(** * vf2lib: the Attributed Relational Graph and the VF matching state

    A shallow embedding of [include/argraph.h], [src/argraph.cc] and of the
    inline predicates of [include/vf_state.h], with the properties of the
    library's specification proved (or refuted) over it, and further
    properties of the code: the bounds of the accessors, what the mutators
    leave alone, the teardown, the visitors, and the loaders that the
    constructor accepts.

    Conventions of the embedding:
    - C++ [int], [short] and [unsigned short] values are [Z]; every
      conversion between them is written out ([to_node_id], [to_count],
      [to_unsigned]).
    - [void *] attribute handles are addresses, i.e. [Z], with [NULL = 0].
    - heap arrays are lists read with [!!] and written with [<[_:=_]>];
      a read or write outside the allocated block is undefined behaviour in
      C++ and is reported as the error [OutOfBounds].
    - [assert] is enabled (NDEBUG is not defined, the default of
      [argraph.h]); a failing assertion is the error [AssertionFailed].
    - [new] succeeds for every non-negative element count and fails
      ([OutOfMemory]) for a negative one. *)

From stdpp Require Import base list list_numbers sorting.
From Stdlib Require Import ZArith Lia.
Local Open Scope Z_scope.

(** ** Machine integers *)

(** [typedef unsigned short node_id;] *)
Definition to_node_id (z : Z) : Z := z mod 65536.
(** [const node_id NULL_NODE=0xFFFF;] *)
Definition NULL_NODE : Z := 65535.
(** [typedef short count_type;] conversion of an [int] to a 16 bit signed value. *)
Definition to_count (z : Z) : Z := (z + 32768) mod 65536 - 32768.
(** the cast [(unsigned)] of a 32 bit [int]. *)
Definition to_unsigned (z : Z) : Z := z mod 2 ^ 32.

(** [void *] handles. *)
Definition handle : Type := Z.
Definition NULL : handle := 0.

(** ** Errors *)

Inductive error_kind : Type :=
  | OutOfMemory        (* ptrcheck: "Out of memory", or new of a negative size *)
  | AssertionFailed    (* a failing assert() *)
  | OutOfBounds        (* an access outside an allocated array *)
  | UnknownEdge        (* "ARGraph_impl::SetEdgeAttr: non existent edge" *)
  | InconsistentGraph  (* "ARGraph_impl::SetEdgeAttr: inconsistent graph state" *)
  | Uninitialised      (* an indeterminate value is read *)
  | Diverged.          (* a loop of the model ran out of fuel *)

Definition result (A : Type) : Type := error_kind + A.

Definition ret {A} (x : A) : result A := inr x.
Definition raise {A} (e : error_kind) : result A := inl e.
Definition bind {A B} (m : result A) (f : A → result B) : result B :=
  match m with
  | inl e => inl e
  | inr x => f x
  end.

Notation "x <- m ;; f" := (bind m (fun x => f))
  (at level 100, m at next level, right associativity).

(** [assert(c)] *)
Definition assert (c : bool) : result unit :=
  if c then ret tt else raise AssertionFailed.

(** reading [a[i]] *)
Definition read {A} (a : list A) (i : Z) : result A :=
  if i <? 0 then raise OutOfBounds
  else match a !! Z.to_nat i with
       | Some x => ret x
       | None => raise OutOfBounds
       end.

(** writing [a[i] = x] *)
Definition write {A} (a : list A) (i : Z) (x : A) : result (list A) :=
  if (0 <=? i) && (i <? Z.of_nat (length a)) then ret (<[Z.to_nat i := x]> a)
  else raise OutOfBounds.

(** [new T[k]]; the fresh block is filled with [d]. *)
Definition new_array {A} (k : Z) (d : A) : result (list A) :=
  if k <? 0 then raise OutOfMemory else ret (replicate (Z.to_nat k) d).

(** [for (i = lo; i < hi; i++) body], threading the loop state [s]. *)
Fixpoint for_each {St} (body : Z → St → result St) (range : list Z) (s : St) : result St :=
  match range with
  | [] => ret s
  | i :: range => s' <- body i s ;; for_each body range s'
  end.

Definition for_loop {St} (lo hi : Z) (body : Z → St → result St) (s : St) : result St :=
  for_each body (seqZ lo (hi - lo)) s.

(** ** Attribute hooks *)

(** A call through a plain C function pointer [fn(arg)]. *)
Inductive call : Type := Call (fn : Z) (arg : handle).

(** [class AttrDestroyer]: the interface has the one virtual method
    [destroy]; an object is known by the calls its method performs. *)
Record AttrDestroyer : Type := { destroy : handle → list call }.

(** [class AttrComparator], with the one virtual method [compatible]. *)
Record AttrComparator : Type := { compatible : handle → handle → bool }.

(** [FunctionAttrDestroyer::destroy]: [if (func!=NULL) func(attr);] *)
Definition FunctionAttrDestroyer (func : Z) : AttrDestroyer :=
  {| destroy a := if func =? NULL then [] else [Call func a] |}.

(** [FunctionAttrComparator::compatible]:
    [if (func!=NULL) return func(attr1, attr2); else return true;] *)
Definition FunctionAttrComparator (func : option (handle → handle → bool)) : AttrComparator :=
  {| compatible a1 a2 := match func with Some f => f a1 a2 | None => true end |}.

(** What an operation does to the outside world. *)
Inductive event : Type :=
  | Invoke (c : call)                    (* a user function is called *)
  | DeleteDestroyer (d : AttrDestroyer)  (* [delete] of a destroyer object *)
  | DeleteComparator (c : AttrComparator).

(** ** The loader interface, [class ARGLoader] *)

Record ARGLoader : Type := {
  L_NodeCount : Z;
  L_GetNodeAttr : Z → handle;
  L_OutEdgeCount : Z → Z;
  L_GetOutEdge : Z → Z → Z * handle   (* the node returned and the value stored in [*pattr] *)
}.

(** ** [class ARGraph_impl] *)

Record ARGraph_impl : Type := {
  n : Z;                        (* number of nodes *)
  attr : list handle;           (* node attributes *)
  in_count : list Z;            (* number of 'in' edges for each node *)
  in_ : list (list Z);          (* nodes connected by 'in' edges to each node *)
  in_attr : list (list handle); (* edge attributes for 'in' edges *)
  out_count : list Z;           (* number of 'out' edges for each node *)
  out : list (list Z);          (* nodes connected by 'out' edges to each node *)
  out_attr : list (list handle);(* edge attributes for 'out' edges *)
  node_destroyer : option AttrDestroyer;
  edge_destroyer : option AttrDestroyer;
  node_comparator : option AttrComparator;
  edge_comparator : option AttrComparator
}.

(** *** Binary search

    The loop
    [while (a<b) { c=(unsigned)(a+b)>>1; if (id[c]<n2) a=c+1; else if (id[c]>n2) b=c; else hit }]
    occurs three times in [argraph.cc]; [bsearch] is that loop, returning the
    index [c] of the hit, or [None] when the loop ends with [a>=b]. *)
Fixpoint bsearch_loop (fuel : nat) (id : list Z) (key a b : Z) : result (option Z) :=
  if a <? b then
    match fuel with
    | O => raise Diverged
    | S fuel =>
        let c := Z.shiftr (to_unsigned (a + b)) 1 in
        x <- read id c ;;
        if x <? key then bsearch_loop fuel id key (c + 1) b
        else if key <? x then bsearch_loop fuel id key a c
        else ret (Some c)
    end
  else ret None.

Definition bsearch (id : list Z) (key count : Z) : result (option Z) :=
  bsearch_loop (Z.to_nat count) id key 0 count.

(** *** Accessors of [argraph.h] *)

Definition NodeCount (g : ARGraph_impl) : Z := n g.

Definition GetNodeAttr (g : ARGraph_impl) (i : Z) : result handle :=
  _ <- assert (i <? n g) ;;
  read (attr g) i.

(** [bool HasEdge(node_id n1, node_id n2, void **pattr)].

    [pattr] tells whether the pointer is non-null. The second component of
    the result is the store made through it: [Some a] when [*pattr = a] was
    executed, [None] when the cell was left as it was. The source reads
    [out[n1]] before its assertions; the pointer is not used before them, so
    the embedding reads it after. *)
Definition HasEdge (g : ARGraph_impl) (n1 n2 : Z) (pattr : bool)
  : result (bool * option handle) :=
  _ <- assert (n1 <? n g) ;;
  _ <- assert (n2 <? n g) ;;
  id <- read (out g) n1 ;;
  b <- read (out_count g) n1 ;;
  hit <- bsearch id n2 b ;;
  match hit with
  | Some c =>
      if pattr then
        row <- read (out_attr g) n1 ;;
        a <- read row c ;;
        ret (true, Some a)
      else ret (true, None)
  | None => ret (false, None)
  end.

(** [bool HasEdge(node_id n1, node_id n2)]: [return HasEdge(n1, n2, NULL);] *)
Definition HasEdge2 (g : ARGraph_impl) (n1 n2 : Z) : result bool :=
  r <- HasEdge g n1 n2 false ;; ret (fst r).

(** [void *GetEdgeAttr(node_id n1, node_id n2)]:
    [void *attr; if (HasEdge(n1, n2, &attr)) return attr; else return NULL;]
    Returning the local while nothing was stored in it would read an
    indeterminate value. *)
Definition GetEdgeAttr (g : ARGraph_impl) (n1 n2 : Z) : result handle :=
  r <- HasEdge g n1 n2 true ;;
  if fst r then
    match snd r with
    | Some a => ret a
    | None => raise Uninitialised
    end
  else ret NULL.

Definition InEdgeCount (g : ARGraph_impl) (node : Z) : result Z :=
  _ <- assert (node <? n g) ;;
  read (in_count g) node.

Definition OutEdgeCount (g : ARGraph_impl) (node : Z) : result Z :=
  _ <- assert (node <? n g) ;;
  read (out_count g) node.

(** [int EdgeCount(node_id node)] *)
Definition EdgeCount (g : ARGraph_impl) (node : Z) : result Z :=
  _ <- assert (node <? n g) ;;
  i <- read (in_count g) node ;;
  o <- read (out_count g) node ;;
  ret (i + o).

(** [node_id GetInEdge(node_id node, int i, void **pattr)]: the node
    returned and the handle stored in [*pattr]. *)
Definition GetInEdge (g : ARGraph_impl) (node i : Z) : result (Z * handle) :=
  _ <- assert (node <? n g) ;;
  k <- read (in_count g) node ;;
  _ <- assert (i <? k) ;;
  arow <- read (in_attr g) node ;;
  a <- read arow i ;;
  row <- read (in_ g) node ;;
  v <- read row i ;;
  ret (v, a).

(** [node_id GetOutEdge(node_id node, int i, void **pattr)] *)
Definition GetOutEdge (g : ARGraph_impl) (node i : Z) : result (Z * handle) :=
  _ <- assert (node <? n g) ;;
  k <- read (out_count g) node ;;
  _ <- assert (i <? k) ;;
  arow <- read (out_attr g) node ;;
  a <- read arow i ;;
  row <- read (out g) node ;;
  v <- read row i ;;
  ret (v, a).

(** [CompatibleNode] and [CompatibleEdge] *)
Definition CompatibleNode (g : ARGraph_impl) (attr1 attr2 : handle) : bool :=
  match node_comparator g with
  | None => true
  | Some c => compatible c attr1 attr2
  end.

Definition CompatibleEdge (g : ARGraph_impl) (attr1 attr2 : handle) : bool :=
  match edge_comparator g with
  | None => true
  | Some c => compatible c attr1 attr2
  end.

(** *** Field updates of the object under construction or mutation *)

Definition with_in_count (g : ARGraph_impl) (x : list Z) : ARGraph_impl :=
  {| n := n g; attr := attr g; in_count := x; in_ := in_ g; in_attr := in_attr g;
     out_count := out_count g; out := out g; out_attr := out_attr g;
     node_destroyer := node_destroyer g; edge_destroyer := edge_destroyer g;
     node_comparator := node_comparator g; edge_comparator := edge_comparator g |}.

Definition with_in (g : ARGraph_impl) (x : list (list Z)) : ARGraph_impl :=
  {| n := n g; attr := attr g; in_count := in_count g; in_ := x; in_attr := in_attr g;
     out_count := out_count g; out := out g; out_attr := out_attr g;
     node_destroyer := node_destroyer g; edge_destroyer := edge_destroyer g;
     node_comparator := node_comparator g; edge_comparator := edge_comparator g |}.

Definition with_in_attr (g : ARGraph_impl) (x : list (list handle)) : ARGraph_impl :=
  {| n := n g; attr := attr g; in_count := in_count g; in_ := in_ g; in_attr := x;
     out_count := out_count g; out := out g; out_attr := out_attr g;
     node_destroyer := node_destroyer g; edge_destroyer := edge_destroyer g;
     node_comparator := node_comparator g; edge_comparator := edge_comparator g |}.

Definition with_out_count (g : ARGraph_impl) (x : list Z) : ARGraph_impl :=
  {| n := n g; attr := attr g; in_count := in_count g; in_ := in_ g; in_attr := in_attr g;
     out_count := x; out := out g; out_attr := out_attr g;
     node_destroyer := node_destroyer g; edge_destroyer := edge_destroyer g;
     node_comparator := node_comparator g; edge_comparator := edge_comparator g |}.

Definition with_out (g : ARGraph_impl) (x : list (list Z)) : ARGraph_impl :=
  {| n := n g; attr := attr g; in_count := in_count g; in_ := in_ g; in_attr := in_attr g;
     out_count := out_count g; out := x; out_attr := out_attr g;
     node_destroyer := node_destroyer g; edge_destroyer := edge_destroyer g;
     node_comparator := node_comparator g; edge_comparator := edge_comparator g |}.

Definition with_out_attr (g : ARGraph_impl) (x : list (list handle)) : ARGraph_impl :=
  {| n := n g; attr := attr g; in_count := in_count g; in_ := in_ g; in_attr := in_attr g;
     out_count := out_count g; out := out g; out_attr := x;
     node_destroyer := node_destroyer g; edge_destroyer := edge_destroyer g;
     node_comparator := node_comparator g; edge_comparator := edge_comparator g |}.

Definition with_attr (g : ARGraph_impl) (x : list handle) : ARGraph_impl :=
  {| n := n g; attr := x; in_count := in_count g; in_ := in_ g; in_attr := in_attr g;
     out_count := out_count g; out := out g; out_attr := out_attr g;
     node_destroyer := node_destroyer g; edge_destroyer := edge_destroyer g;
     node_comparator := node_comparator g; edge_comparator := edge_comparator g |}.

Definition with_node_destroyer (g : ARGraph_impl) (x : option AttrDestroyer) : ARGraph_impl :=
  {| n := n g; attr := attr g; in_count := in_count g; in_ := in_ g; in_attr := in_attr g;
     out_count := out_count g; out := out g; out_attr := out_attr g;
     node_destroyer := x; edge_destroyer := edge_destroyer g;
     node_comparator := node_comparator g; edge_comparator := edge_comparator g |}.

Definition with_edge_destroyer (g : ARGraph_impl) (x : option AttrDestroyer) : ARGraph_impl :=
  {| n := n g; attr := attr g; in_count := in_count g; in_ := in_ g; in_attr := in_attr g;
     out_count := out_count g; out := out g; out_attr := out_attr g;
     node_destroyer := node_destroyer g; edge_destroyer := x;
     node_comparator := node_comparator g; edge_comparator := edge_comparator g |}.

Definition with_node_comparator (g : ARGraph_impl) (x : option AttrComparator) : ARGraph_impl :=
  {| n := n g; attr := attr g; in_count := in_count g; in_ := in_ g; in_attr := in_attr g;
     out_count := out_count g; out := out g; out_attr := out_attr g;
     node_destroyer := node_destroyer g; edge_destroyer := edge_destroyer g;
     node_comparator := x; edge_comparator := edge_comparator g |}.

Definition with_edge_comparator (g : ARGraph_impl) (x : option AttrComparator) : ARGraph_impl :=
  {| n := n g; attr := attr g; in_count := in_count g; in_ := in_ g; in_attr := in_attr g;
     out_count := out_count g; out := out g; out_attr := out_attr g;
     node_destroyer := node_destroyer g; edge_destroyer := edge_destroyer g;
     node_comparator := node_comparator g; edge_comparator := x |}.

(** writing [a[i][j] = x] through the row pointer [a[i]] *)
Definition write2 {A} (a : list (list A)) (i j : Z) (x : A) : result (list (list A)) :=
  row <- read a i ;;
  row' <- write row j x ;;
  write a i row'.

(** reading [a[i][j]] *)
Definition read2 {A} (a : list (list A)) (i j : Z) : result A :=
  row <- read a i ;; read row j.

(** *** The constructor [ARGraph_impl::ARGraph_impl(ARGLoader *loader)] *)

(** The body of the inner loop of the first phase:
    [node_id n2=out[i][j]=loader->GetOutEdge(i, j, &out_attr[i][j]); in_count[n2]++;] *)
Definition ingest_edge (loader : ARGLoader) (i j : Z) (g : ARGraph_impl) : result ARGraph_impl :=
  let e := L_GetOutEdge loader (to_node_id i) j in
  out_attr' <- write2 (out_attr g) i j (snd e) ;;
  let n2 := to_node_id (fst e) in
  out' <- write2 (out g) i j n2 ;;
  c <- read (in_count g) n2 ;;
  in_count' <- write (in_count g) n2 (to_count (c + 1)) ;;
  ret (with_in_count (with_out (with_out_attr g out_attr') out') in_count').

(** The body of the outer loop of the first phase. *)
Definition ingest_node (loader : ARGLoader) (i : Z) (g : ARGraph_impl) : result ARGraph_impl :=
  let k := to_count (L_OutEdgeCount loader (to_node_id i)) in
  out_count' <- write (out_count g) i k ;;
  row <- new_array k 0 ;;
  out' <- write (out g) i row ;;
  arow <- new_array k NULL ;;
  out_attr' <- write (out_attr g) i arow ;;
  for_loop 0 k (ingest_edge loader i)
    (with_out_attr (with_out (with_out_count g out_count') out') out_attr').

(** The body of the inner loop of the second phase; the loop state is the
    object and the local [l]. *)
Definition derive_edge (i j : Z) (s : ARGraph_impl * Z) : result (ARGraph_impl * Z) :=
  let g := fst s in
  let l := snd s in
  h <- HasEdge2 g (to_node_id j) (to_node_id i) ;;
  if h : bool then
    in' <- write2 (in_ g) i l (to_node_id j) ;;
    let g' := with_in g in' in
    a <- GetEdgeAttr g' (to_node_id j) (to_node_id i) ;;
    in_attr' <- write2 (in_attr g') i l a ;;
    ret (with_in_attr g' in_attr', l + 1)
  else ret (g, l).

(** The body of the outer loop of the second phase. *)
Definition derive_node (i : Z) (g : ARGraph_impl) : result ARGraph_impl :=
  k <- read (in_count g) i ;;
  row <- new_array k 0 ;;
  in' <- write (in_ g) i row ;;
  arow <- new_array k NULL ;;
  in_attr' <- write (in_attr g) i arow ;;
  s <- for_loop 0 (n g) (derive_edge i) (with_in_attr (with_in g in') in_attr', 0) ;;
  _ <- assert (snd s =? k) ;;
  ret (fst s).

(** The allocations and the node attributes, up to the first phase. *)
Definition alloc_graph (loader : ARGLoader) : result ARGraph_impl :=
  let n0 := L_NodeCount loader in
  attr0 <- new_array n0 NULL ;;
  attr1 <- for_loop 0 n0 (fun i a => write a i (L_GetNodeAttr loader (to_node_id i))) attr0 ;;
  in_count0 <- new_array n0 0 ;;
  out_count0 <- new_array n0 0 ;;
  in0 <- new_array n0 [] ;;
  out0 <- new_array n0 [] ;;
  in_attr0 <- new_array n0 [] ;;
  out_attr0 <- new_array n0 [] ;;
  ret {| n := n0; attr := attr1; in_count := in_count0; in_ := in0; in_attr := in_attr0;
         out_count := out_count0; out := out0; out_attr := out_attr0;
         node_destroyer := None; edge_destroyer := None;
         node_comparator := None; edge_comparator := None |}.

(** First phase: the out-adjacency is read from the loader. *)
Definition ingest_out (loader : ARGLoader) (g : ARGraph_impl) : result ARGraph_impl :=
  for_loop 0 (n g) (ingest_node loader) g.

(** Second phase: the in-adjacency is derived with [HasEdge]. *)
Definition derive_in (g : ARGraph_impl) : result ARGraph_impl :=
  for_loop 0 (n g) derive_node g.

Definition ARGraph_impl_new (loader : ARGLoader) : result ARGraph_impl :=
  g0 <- alloc_graph loader ;;
  g1 <- ingest_out loader g0 ;;
  derive_in g1.

(** ** Operations that change the object or call the hooks

    [M A] is a computation over the object and the trace of events; an
    error stops it and leaves the state as it was when the error was raised. *)

Definition M (A : Type) : Type :=
  ARGraph_impl * list event → result A * (ARGraph_impl * list event).

Definition mret {A} (x : A) : M A := fun s => (inr x, s).
Definition mbind {A B} (m : M A) (f : A → M B) : M B :=
  fun s => match m s with
           | (inl e, s') => (inl e, s')
           | (inr x, s') => f x s'
           end.
Definition lift {A} (r : result A) : M A := fun s => (r, s).
Definition get : M ARGraph_impl := fun s => (inr (fst s), s).
Definition put (g : ARGraph_impl) : M unit := fun s => (inr tt, (g, snd s)).
Definition emit (evs : list event) : M unit := fun s => (inr tt, (fst s, snd s ++ evs)).

Notation "x <~ m ;; f" := (mbind m (fun x => f))
  (at level 100, m at next level, right associativity).

(** Modelled from the spec: [error.h] is not part of the sources; [error(msg)]
    reports the failure to the caller and ends the operation (section 7 of
    the specification names the two failures of [SetEdgeAttr]). *)
Definition error {A} (e : error_kind) : M A := lift (raise e).

(** Running an operation on an object, from an empty trace. *)
Definition run {A} (m : M A) (g : ARGraph_impl) : result A * (ARGraph_impl * list event) :=
  m (g, []).

(** [DestroyNode]: [if (node_destroyer!=NULL) node_destroyer->destroy(attr);] *)
Definition DestroyNode (a : handle) : M unit :=
  g <~ get ;;
  match node_destroyer g with
  | Some d => emit (Invoke <$> destroy d a)
  | None => mret tt
  end.

(** [DestroyEdge]: [if (edge_destroyer!=NULL) edge_destroyer->destroy(attr);] *)
Definition DestroyEdge (a : handle) : M unit :=
  g <~ get ;;
  match edge_destroyer g with
  | Some d => emit (Invoke <$> destroy d a)
  | None => mret tt
  end.

(** [delete p] of a hook object: nothing for a null pointer. *)
Definition delete_destroyer (p : option AttrDestroyer) : M unit :=
  match p with
  | Some d => emit [DeleteDestroyer d]
  | None => mret tt
  end.

Definition delete_comparator (p : option AttrComparator) : M unit :=
  match p with
  | Some c => emit [DeleteComparator c]
  | None => mret tt
  end.

Definition SetNodeDestroyer (dest : option AttrDestroyer) : M unit :=
  g <~ get ;;
  _ <~ delete_destroyer (node_destroyer g) ;;
  put (with_node_destroyer g dest).

Definition SetNodeDestroy (fn : Z) : M unit :=
  SetNodeDestroyer (Some (FunctionAttrDestroyer fn)).

Definition SetEdgeDestroyer (dest : option AttrDestroyer) : M unit :=
  g <~ get ;;
  _ <~ delete_destroyer (edge_destroyer g) ;;
  put (with_edge_destroyer g dest).

(** [void ARGraph_impl::SetEdgeDestroy(edge_destroy_fn fn)
      { SetNodeDestroyer(new FunctionAttrDestroyer(fn)); }] *)
Definition SetEdgeDestroy (fn : Z) : M unit :=
  SetNodeDestroyer (Some (FunctionAttrDestroyer fn)).

Definition SetNodeComparator (comp : option AttrComparator) : M unit :=
  g <~ get ;;
  _ <~ delete_comparator (node_comparator g) ;;
  put (with_node_comparator g comp).

Definition SetNodeCompat (fn : option (handle → handle → bool)) : M unit :=
  SetNodeComparator (Some (FunctionAttrComparator fn)).

Definition SetEdgeComparator (comp : option AttrComparator) : M unit :=
  g <~ get ;;
  _ <~ delete_comparator (edge_comparator g) ;;
  put (with_edge_comparator g comp).

Definition SetEdgeCompat (fn : option (handle → handle → bool)) : M unit :=
  SetEdgeComparator (Some (FunctionAttrComparator fn)).

(** [void SetNodeAttr(node_id i, void *new_attr, bool destroyOld)] *)
Definition SetNodeAttr (i : Z) (new_attr : handle) (destroyOld : bool) : M unit :=
  g <~ get ;;
  _ <~ lift (assert (i <? n g)) ;;
  _ <~ (if destroyOld then old <~ lift (read (attr g) i) ;; DestroyNode old else mret tt) ;;
  attr' <~ lift (write (attr g) i new_attr) ;;
  put (with_attr g attr').

(** [void SetEdgeAttr(node_id n1, node_id n2, void *new_attr, bool destroyOld)],
    in the two parts that the source marks "Replace the attribute in the
    out_attr array" and "Replace the attribute in the in_attr array". After a
    hit each loop is left by [break] with [a<b]; the test [a>=b] that follows
    the loop holds exactly after a miss. *)
Definition set_out_entry (n1 n2 : Z) (new_attr : handle) (destroyOld : bool) : M unit :=
  g <~ get ;;
  id <~ lift (read (out g) n1) ;;
  b <~ lift (read (out_count g) n1) ;;
  hit <~ lift (bsearch id n2 b) ;;
  match hit with
  | Some c =>
      _ <~ (if destroyOld then
              row <~ lift (read (out_attr g) n1) ;;
              old <~ lift (read row c) ;;
              DestroyEdge old
            else mret tt) ;;
      out_attr' <~ lift (write2 (out_attr g) n1 c new_attr) ;;
      put (with_out_attr g out_attr')
  | None => error UnknownEdge
  end.

Definition set_in_entry (n1 n2 : Z) (new_attr : handle) : M unit :=
  g <~ get ;;
  id <~ lift (read (in_ g) n2) ;;
  b <~ lift (read (in_count g) n2) ;;
  hit <~ lift (bsearch id n1 b) ;;
  match hit with
  | Some c =>
      in_attr' <~ lift (write2 (in_attr g) n2 c new_attr) ;;
      put (with_in_attr g in_attr')
  | None => error InconsistentGraph
  end.

Definition SetEdgeAttr (n1 n2 : Z) (new_attr : handle) (destroyOld : bool) : M unit :=
  g <~ get ;;
  _ <~ lift (assert (n1 <? n g)) ;;
  _ <~ lift (assert (n2 <? n g)) ;;
  _ <~ set_out_entry n1 n2 new_attr destroyOld ;;
  set_in_entry n1 n2 new_attr.

(** [for] loops inside [M]. *)
Fixpoint mfor_each (body : Z → M unit) (range : list Z) : M unit :=
  match range with
  | [] => mret tt
  | i :: range => _ <~ body i ;; mfor_each body range
  end.

Definition mfor_loop (lo hi : Z) (body : Z → M unit) : M unit :=
  mfor_each body (seqZ lo (hi - lo)).

(** The destructor [ARGraph_impl::~ARGraph_impl()], in its three parts: the
    edge attributes (through the out-entries only), the node attributes, the
    hook objects. Freeing the arrays leaves no event. *)
Definition destroy_edges : M unit :=
  g <~ get ;;
  mfor_loop 0 (n g) (fun i =>
    k <~ lift (read (out_count g) i) ;;
    mfor_loop 0 k (fun j =>
      row <~ lift (read (out_attr g) i) ;;
      a <~ lift (read row j) ;;
      DestroyEdge a)).

Definition destroy_nodes : M unit :=
  g <~ get ;;
  mfor_loop 0 (n g) (fun i => a <~ lift (read (attr g) i) ;; DestroyNode a).

Definition delete_hooks : M unit :=
  g <~ get ;;
  _ <~ delete_destroyer (node_destroyer g) ;;
  _ <~ delete_destroyer (edge_destroyer g) ;;
  _ <~ delete_comparator (node_comparator g) ;;
  delete_comparator (edge_comparator g).

Definition ARGraph_impl_delete : M unit :=
  _ <~ destroy_edges ;;
  _ <~ destroy_nodes ;;
  delete_hooks.

(** *** The other accessors of [argraph.h] *)

(** [node_id GetInEdge(node_id node, int i)] *)
Definition GetInEdge2 (g : ARGraph_impl) (node i : Z) : result Z :=
  _ <- assert (node <? n g) ;;
  k <- read (in_count g) node ;;
  _ <- assert (i <? k) ;;
  read2 (in_ g) node i.

(** [node_id GetOutEdge(node_id node, int i)] *)
Definition GetOutEdge2 (g : ARGraph_impl) (node i : Z) : result Z :=
  _ <- assert (node <? n g) ;;
  k <- read (out_count g) node ;;
  _ <- assert (i <? k) ;;
  read2 (out g) node i.

(** *** The visitors

    The type [edge_visitor] is a pointer to a function of the object, the
    two ends of the edge, the attribute of the edge and a parameter: user
    code that is called with the object; it runs in [M], the object being
    the one of the state. *)
Definition edge_visitor : Type := Z → Z → handle → handle → M unit.

(** The loop [for(i=0; i<count[node]; i++) body]: the bound is read from the
    object before every iteration. A [count_type] is at most 32767, so the
    body runs at most 32767 times, whatever it does. *)
Fixpoint visit_loop (fuel : nat) (count : ARGraph_impl → result Z) (body : Z → M unit)
    (i : Z) : M unit :=
  g <~ get ;;
  k <~ lift (count g) ;;
  if i <? k then
    match fuel with
    | O => lift (raise Diverged)
    | S fuel => _ <~ body i ;; visit_loop fuel count body (i + 1)
    end
  else mret tt.

(** [void VisitInEdges(node_id node, edge_visitor vis, param_type param)]:
    [vis(this, in[node][i], node, in_attr[node][i], param)] for every [i]. *)
Definition VisitInEdges (node : Z) (vis : edge_visitor) (param : handle) : M unit :=
  g <~ get ;;
  _ <~ lift (assert (node <? n g)) ;;
  visit_loop (Z.to_nat 32767) (fun g => read (in_count g) node)
    (fun i =>
       g <~ get ;;
       n1 <~ lift (read2 (in_ g) node i) ;;
       a <~ lift (read2 (in_attr g) node i) ;;
       vis n1 node a param)
    0.

(** [void VisitOutEdges(node_id node, edge_visitor vis, param_type param)]:
    [vis(this, node, out[node][i], out_attr[node][i], param)] for every [i]. *)
Definition VisitOutEdges (node : Z) (vis : edge_visitor) (param : handle) : M unit :=
  g <~ get ;;
  _ <~ lift (assert (node <? n g)) ;;
  visit_loop (Z.to_nat 32767) (fun g => read (out_count g) node)
    (fun i =>
       g <~ get ;;
       n2 <~ lift (read2 (out g) node i) ;;
       a <~ lift (read2 (out_attr g) node i) ;;
       vis node n2 a param)
    0.

(** [void VisitEdges(node_id node, edge_visitor vis, param_type param)
      { VisitInEdges(node, vis, param); VisitOutEdges(node, vis, param); }] *)
Definition VisitEdges (node : Z) (vis : edge_visitor) (param : handle) : M unit :=
  _ <~ VisitInEdges node vis param ;;
  VisitOutEdges node vis param.

(** ** [class VFState], the inline predicates of [vf_state.h] *)

Definition ST_CORE : Z := 1.
Definition ST_TERM_IN : Z := 2.
Definition ST_TERM_OUT : Z := 4.

Record VFState : Type := {
  core_len : Z;
  t1in_len : Z; t1out_len : Z; t2in_len : Z; t2out_len : Z;
  core_1 : list Z;
  core_2 : list Z;
  node_flags_1 : list Z;
  node_flags_2 : list Z;
  n1 : Z;
  n2 : Z
}.

(** [bool IsGoal() { return core_len==n1 && core_len==n2; }] *)
Definition IsGoal (s : VFState) : bool :=
  (core_len s =? n1 s) && (core_len s =? n2 s).

(** [bool IsDead() { return n1!=n2 || t1out_len!=t2out_len || t1in_len!=t2in_len; }] *)
Definition IsDead (s : VFState) : bool :=
  negb (n1 s =? n2 s) || negb (t1out_len s =? t2out_len s) || negb (t1in_len s =? t2in_len s).

Definition CoreLen (s : VFState) : Z := core_len s.

(** * The vocabulary of the properties *)

(** ** Arrays *)

(** Whether an array of node ids is strictly ascending. *)
Fixpoint ascending (l : list Z) : bool :=
  match l with
  | x :: l' =>
      match l' with
      | y :: _ => (x <? y) && ascending l'
      | [] => true
      end
  | [] => true
  end.

(** Every array of the two adjacencies is strictly ascending. *)
Definition sorted_arrays (g : ARGraph_impl) : bool :=
  forallb ascending (out g) && forallb ascending (in_ g).

(** Number of elements of a list that satisfy [p]. *)
Fixpoint count_if {A} (p : A → bool) (l : list A) : Z :=
  match l with
  | [] => 0
  | x :: l => (if p x then 1 else 0) + count_if p l
  end.

(** Number of occurrences of [v]. *)
Definition occ (v : Z) (l : list Z) : Z := count_if (Z.eqb v) l.

(** The node ids of a graph. *)
Definition node (g : ARGraph_impl) (u : Z) : Prop := 0 ≤ u < n g.

(** The out-entries of node [u] are the array [row] of neighbours and the
    parallel array [arow] of attribute handles, of the length that
    [out_count] records ([count_type] is a 16 bit [short]). *)
Definition out_row (g : ARGraph_impl) (u : Z) (row : list Z) (arow : list handle) : Prop :=
  out g !! Z.to_nat u = Some row ∧ out_attr g !! Z.to_nat u = Some arow ∧
  out_count g !! Z.to_nat u = Some (Z.of_nat (length row)) ∧
  length arow = length row ∧ Z.of_nat (length row) ≤ 32767.

(** The same for the in-entries. *)
Definition in_row (g : ARGraph_impl) (v : Z) (row : list Z) (arow : list handle) : Prop :=
  in_ g !! Z.to_nat v = Some row ∧ in_attr g !! Z.to_nat v = Some arow ∧
  in_count g !! Z.to_nat v = Some (Z.of_nat (length row)) ∧
  length arow = length row ∧ Z.of_nat (length row) ≤ 65536.

(** The cells [a], ..., [b - 1] of [id] are strictly ascending. *)
Definition ascending_on (id : list Z) (a b : Z) : Prop :=
  ∀ i j x y, a ≤ i → i < j → j < b →
    id !! Z.to_nat i = Some x → id !! Z.to_nat j = Some y → x < y.

(** The sum of [f] over a list. *)
Definition sumZ {A} (f : A → Z) (l : list A) : Z := foldr (fun x acc => f x + acc) 0 l.

(** The sum of what [count] returns for the nodes below [m], as a caller
    computes it with a loop over the nodes. *)
Definition total (count : Z → result Z) (m : Z) : result Z :=
  for_loop 0 m (fun i acc => k <- count i ;; ret (acc + k)) 0.

(** ** Traces *)

(** What the edge destroyer does to a handle. *)
Definition edge_events (g : ARGraph_impl) (a : handle) : list event :=
  match edge_destroyer g with
  | Some d => Invoke <$> destroy d a
  | None => []
  end.

(** [m] leaves the object alone and adds nothing to the trace. *)
Definition quiet (m : M unit) (g : ARGraph_impl) : Prop :=
  ∀ tr, ∃ r, m (g, tr) = (r, (g, tr)).

(** [m] runs the same on both objects: same result, same events. *)
Definition alike (m : M unit) (g1 g2 : ARGraph_impl) : Prop :=
  ∀ tr, ∃ r tr', m (g1, tr) = (r, (g1, tr')) ∧ m (g2, tr) = (r, (g2, tr')).

(** What the node destroyer does to a handle. *)
Definition node_events (g : ARGraph_impl) (a : handle) : list event :=
  match node_destroyer g with
  | Some d => Invoke <$> destroy d a
  | None => []
  end.

(** The event of [delete] on a hook slot. *)
Definition destroyer_deleted (p : option AttrDestroyer) : list event :=
  match p with
  | Some d => [DeleteDestroyer d]
  | None => []
  end.

Definition comparator_deleted (p : option AttrComparator) : list event :=
  match p with
  | Some c => [DeleteComparator c]
  | None => []
  end.

(** The events of a teardown: the edge handles in the order of the
    out-entries, the node handles, the four hook objects. *)
Definition teardown_events (g : ARGraph_impl) : list event :=
  concat ((fun arow => concat (edge_events g <$> arow)) <$> out_attr g) ++
  concat (node_events g <$> attr g) ++
  destroyer_deleted (node_destroyer g) ++ destroyer_deleted (edge_destroyer g) ++
  comparator_deleted (node_comparator g) ++ comparator_deleted (edge_comparator g).

(** A visitor that observes: it leaves the object as it is and adds the
    events [log n1 n2 attr param] to the trace. *)
Definition observer (vis : edge_visitor) (log : Z → Z → handle → handle → list event) : Prop :=
  ∀ n1 n2 a param g tr, vis n1 n2 a param (g, tr) = (inr tt, (g, tr ++ log n1 n2 a param)).

(** The events of a visit of the entries [row], [arow]. *)
Definition visit_events (f : Z → handle → list event) (row : list Z) (arow : list handle)
  : list event :=
  concat (zip_with f row arow).

(** ** What [SetEdgeAttr] writes *)

(** What [SetEdgeAttr(u, v, a, _)] may have written in the out-attributes:
    nothing, or [a] at the index where the search finds [v]. *)
Definition out_attr_written (g : ARGraph_impl) (u v : Z) (a : handle)
    (oa : list (list handle)) : Prop :=
  oa = out_attr g ∨
  ∃ row b c, read (out g) u = inr row ∧ read (out_count g) u = inr b ∧
             bsearch row v b = inr (Some c) ∧ write2 (out_attr g) u c a = inr oa.

(** The same for the in-attributes. *)
Definition in_attr_written (g : ARGraph_impl) (u v : Z) (a : handle)
    (ia : list (list handle)) : Prop :=
  ia = in_attr g ∨
  ∃ row b c, read (in_ g) v = inr row ∧ read (in_count g) v = inr b ∧
             bsearch row u b = inr (Some c) ∧ write2 (in_attr g) v c a = inr ia.

(** ** The aliasing of the edge attributes *)

(** The handle that [HasEdge(u, v, &p)] yields is the handle of the in-entry
    of [v] that holds [u], and every edge has such an in-entry. *)
Definition aliasing (g : ARGraph_impl) : Prop :=
  ∀ u v, node g u → node g v →
    (∀ l a, GetInEdge g v l = inr (u, a) → HasEdge g u v true = inr (true, Some a)) ∧
    (∀ a, HasEdge g u v true = inr (true, Some a) → ∃ l, GetInEdge g v l = inr (u, a)).

(** The in-arrays have the length that [in_count] records and are strictly
    ascending. *)
Definition in_rows_ok (g : ARGraph_impl) : Prop :=
  ∀ v, node g v → ∃ row arow, in_row g v row arow ∧ ascending row = true.

(** The invariant of the objects that the constructor returns. *)
Definition ARG_inv (g : ARGraph_impl) : Prop := aliasing g ∧ in_rows_ok g.

(** ** Loaders *)

(** What the loader reports for node [u]: the neighbours and the handles,
    in the order of the loader. *)
Definition loader_row (loader : ARGLoader) (u : Z) : list Z :=
  (fun j => fst (L_GetOutEdge loader u j)) <$> seqZ 0 (L_OutEdgeCount loader u).

Definition loader_arow (loader : ARGLoader) (u : Z) : list handle :=
  (fun j => snd (L_GetOutEdge loader u j)) <$> seqZ 0 (L_OutEdgeCount loader u).

(** The sources of the edges into [v], ascending. *)
Definition loader_preds (loader : ARGLoader) (v : Z) : list Z :=
  filter (fun u => v ∈ loader_row loader u) (seqZ 0 (L_NodeCount loader)).

(** The handle that the loader gives with the edge from [u] to [v]. *)
Definition loader_edge_attr (loader : ARGLoader) (v u : Z) : handle :=
  match list_find (fun x => x = v) (loader_row loader u) with
  | Some (c, _) => default NULL (loader_arow loader u !! c)
  | None => NULL
  end.

(** The loaders that the constructor is written for: at most 65535 nodes,
    so that every node id is below [NULL_NODE]; out-edges of every node
    reported in strictly ascending order of the neighbour, which is a node;
    out-degrees and in-degrees within [count_type]. *)
Definition loader_ok (loader : ARGLoader) : Prop :=
  0 ≤ L_NodeCount loader ≤ 65535 ∧
  (∀ u, 0 ≤ u < L_NodeCount loader →
     0 ≤ L_OutEdgeCount loader u ≤ 32767 ∧
     ascending (loader_row loader u) = true ∧
     ∀ v, v ∈ loader_row loader u → 0 ≤ v < L_NodeCount loader) ∧
  (∀ v, 0 ≤ v < L_NodeCount loader →
     Z.of_nat (length (loader_preds loader v)) ≤ 32767).

(** A decision procedure for [loader_ok], for loaders that are given in full. *)
Definition loader_okb (loader : ARGLoader) : bool :=
  let m := L_NodeCount loader in
  (0 <=? m) && (m <=? 65535) &&
  forallb (fun u =>
             (0 <=? L_OutEdgeCount loader u) && (L_OutEdgeCount loader u <=? 32767) &&
             ascending (loader_row loader u) &&
             forallb (fun v => (0 <=? v) && (v <? m)) (loader_row loader u))
          (seqZ 0 m) &&
  forallb (fun v => Z.of_nat (length (loader_preds loader v)) <=? 32767) (seqZ 0 m).

(** The object that the constructor builds from such a loader. *)
Definition graph_of (loader : ARGLoader) : ARGraph_impl :=
  let nodes := seqZ 0 (L_NodeCount loader) in
  {| n := L_NodeCount loader;
     attr := L_GetNodeAttr loader <$> nodes;
     in_count := (fun v => Z.of_nat (length (loader_preds loader v))) <$> nodes;
     in_ := loader_preds loader <$> nodes;
     in_attr := (fun v => loader_edge_attr loader v <$> loader_preds loader v) <$> nodes;
     out_count := L_OutEdgeCount loader <$> nodes;
     out := loader_row loader <$> nodes;
     out_attr := loader_arow loader <$> nodes;
     node_destroyer := None; edge_destroyer := None;
     node_comparator := None; edge_comparator := None |}.

(** ** The loops of the constructor *)

(** The object during the first phase: the out-arrays so far, and the
    in-counts of the edges read so far. *)
Definition ingest_state (loader : ARGLoader) (oc : list Z) (o : list (list Z))
    (oa : list (list handle)) (edges : list Z) : ARGraph_impl :=
  let nodes := seqZ 0 (L_NodeCount loader) in
  {| n := L_NodeCount loader;
     attr := L_GetNodeAttr loader <$> nodes;
     in_count := (fun v => to_count (occ v edges)) <$> nodes;
     in_ := replicate (Z.to_nat (L_NodeCount loader)) [];
     in_attr := replicate (Z.to_nat (L_NodeCount loader)) [];
     out_count := oc; out := o; out_attr := oa;
     node_destroyer := None; edge_destroyer := None;
     node_comparator := None; edge_comparator := None |}.

(** The targets of the out-edges of the nodes below [i], in reading order. *)
Definition edges_upto (loader : ARGLoader) (i : Z) : list Z :=
  concat (loader_row loader <$> seqZ 0 i).

(** Before node [i]. *)
Definition ingested (loader : ARGLoader) (i : Z) : ARGraph_impl :=
  let rest := Z.to_nat (L_NodeCount loader - i) in
  ingest_state loader
    ((L_OutEdgeCount loader <$> seqZ 0 i) ++ replicate rest 0)
    ((loader_row loader <$> seqZ 0 i) ++ replicate rest [])
    ((loader_arow loader <$> seqZ 0 i) ++ replicate rest [])
    (edges_upto loader i).

(** Before out-edge [j] of node [i]. *)
Definition ingesting (loader : ARGLoader) (i j : Z) : ARGraph_impl :=
  let rest := Z.to_nat (L_NodeCount loader - i - 1) in
  let left := Z.to_nat (L_OutEdgeCount loader i - j) in
  let row := (fun j => fst (L_GetOutEdge loader i j)) <$> seqZ 0 j in
  let arow := (fun j => snd (L_GetOutEdge loader i j)) <$> seqZ 0 j in
  ingest_state loader
    ((L_OutEdgeCount loader <$> seqZ 0 i) ++ L_OutEdgeCount loader i :: replicate rest 0)
    ((loader_row loader <$> seqZ 0 i) ++ (row ++ replicate left 0) :: replicate rest [])
    ((loader_arow loader <$> seqZ 0 i) ++ (arow ++ replicate left NULL) :: replicate rest [])
    (edges_upto loader i ++ row).

(** Whether [HasEdge(j, i)] returns [true] on [g]. *)
Definition hitb (g : ARGraph_impl) (i j : Z) : bool :=
  match HasEdge2 g j i with
  | inr true => true
  | _ => false
  end.

(** The sources [j < m] with an edge to [i], in the order of the loop. *)
Definition hits (g : ARGraph_impl) (i m : Z) : list Z :=
  filter (fun j => hitb g i j = true) (seqZ 0 m).

(** The handle that [GetEdgeAttr(j, i)] returns on [g]. *)
Definition hit_attr (g : ARGraph_impl) (i j : Z) : handle :=
  match GetEdgeAttr g j i with
  | inr a => a
  | inl _ => NULL
  end.

(** What the loop over the sources of [i] needs to end well. *)
Definition derivable (g : ARGraph_impl) (i : Z) : Prop :=
  (∀ j, 0 ≤ j < n g → ∃ b, HasEdge2 g j i = inr b) ∧
  (∀ j, 0 ≤ j < n g → hitb g i j = true → ∃ a, GetEdgeAttr g j i = inr a) ∧
  in_count g !! Z.to_nat i = Some (Z.of_nat (length (hits g i (n g)))) ∧
  (Z.to_nat i < length (in_ g))%nat ∧ (Z.to_nat i < length (in_attr g))%nat.

(** The same with [k], the count that was recorded for [i], not below the
    number of sources that [HasEdge] finds. *)
Definition derivable_upto (g : ARGraph_impl) (i k : Z) : Prop :=
  (∀ j, 0 ≤ j < n g → ∃ b, HasEdge2 g j i = inr b) ∧
  (∀ j, 0 ≤ j < n g → hitb g i j = true → ∃ a, GetEdgeAttr g j i = inr a) ∧
  Z.of_nat (length (hits g i (n g))) ≤ k.

(** The second phase writes the in-arrays only. *)
Definition same_out (g g1 : ARGraph_impl) : Prop :=
  n g = n g1 ∧ out g = out g1 ∧ out_count g = out_count g1 ∧ out_attr g = out_attr g1 ∧
  in_count g = in_count g1 ∧ attr g = attr g1 ∧
  node_destroyer g = node_destroyer g1 ∧ edge_destroyer g = edge_destroyer g1 ∧
  node_comparator g = node_comparator g1 ∧ edge_comparator g = edge_comparator g1 ∧
  length (in_ g) = length (in_ g1) ∧ length (in_attr g) = length (in_attr g1).

(** The state of the loop over the sources of [i], before source [j]: the
    hits so far fill the first [l] cells of the two arrays of [i]. *)
Definition filling (g1 gs : ARGraph_impl) (i k j : Z) (s : ARGraph_impl * Z) : Prop :=
  same_out (fst s) g1 ∧
  snd s = Z.of_nat (length (hits g1 i j)) ∧
  Forall (fun u => ∃ a, GetEdgeAttr g1 u i = inr a) (hits g1 i j) ∧
  ∃ pad apad,
    in_ (fst s) = <[Z.to_nat i := hits g1 i j ++ pad]> (in_ gs) ∧
    in_attr (fst s) = <[Z.to_nat i := (hit_attr g1 i <$> hits g1 i j) ++ apad]> (in_attr gs) ∧
    Z.of_nat (length (hits g1 i j) + length pad) = k ∧ length apad = length pad.

(** What the second phase has done once it reaches node [i]. *)
Definition derived (g1 : ARGraph_impl) (i : Z) (g : ARGraph_impl) : Prop :=
  same_out g g1 ∧
  ∀ v, 0 ≤ v < i →
    in_ g !! Z.to_nat v = Some (hits g1 v (n g1)) ∧
    in_attr g !! Z.to_nat v = Some (hit_attr g1 v <$> hits g1 v (n g1)) ∧
    in_count g1 !! Z.to_nat v = Some (Z.of_nat (length (hits g1 v (n g1)))) ∧
    Forall (fun u => ∃ a, GetEdgeAttr g1 u v = inr a) (hits g1 v (n g1)).

(** ** Loaders that report the out-edges in any order *)

(** What the first phase needs of node [u]: an out-degree within
    [count_type] and neighbours that are nodes. *)
Definition node_ok (loader : ARGLoader) (u : Z) : Prop :=
  0 ≤ L_OutEdgeCount loader u ≤ 32767 ∧
  ∀ v, v ∈ loader_row loader u → 0 ≤ v < L_NodeCount loader.

(** The loaders within the ranges of the representation: at most 65535
    nodes, and for every node an out-degree within [count_type], neighbours
    that are nodes, and at most 32767 reported edges into it. Nothing is
    asked of the order of the out-edges. *)
Definition loader_ranges (loader : ARGLoader) : Prop :=
  0 ≤ L_NodeCount loader ≤ 65535 ∧
  (∀ u, 0 ≤ u < L_NodeCount loader → node_ok loader u) ∧
  (∀ v, 0 ≤ v < L_NodeCount loader →
     occ v (edges_upto loader (L_NodeCount loader)) ≤ 32767).

(** A decision procedure for [loader_ranges]. *)
Definition loader_rangesb (loader : ARGLoader) : bool :=
  let m := L_NodeCount loader in
  (0 <=? m) && (m <=? 65535) &&
  forallb (fun u =>
             (0 <=? L_OutEdgeCount loader u) && (L_OutEdgeCount loader u <=? 32767) &&
             forallb (fun v => (0 <=? v) && (v <? m)) (loader_row loader u))
          (seqZ 0 m) &&
  forallb (fun v => occ v (edges_upto loader m) <=? 32767) (seqZ 0 m).

(** ** The counters of the matching state *)

(** Whether the flag byte [f] has the bit [flag]: [f & flag]. *)
Definition has_flag (f flag : Z) : bool := negb (Z.land f flag =? 0).

(** The flag byte of node [i]. *)
Definition flag_of (flags : list Z) (i : Z) : Z := default 0 (flags !! Z.to_nat i).

(** Nodes of a side of [m] nodes that are in the core. *)
Definition core_count (flags : list Z) (m : Z) : Z :=
  count_if (fun i => has_flag (flag_of flags i) ST_CORE) (seqZ 0 m).

(** Nodes of a side that are outside the core and have the bit [flag]. *)
Definition term_count (flag : Z) (flags : list Z) (m : Z) : Z :=
  count_if (fun i => has_flag (flag_of flags i) flag && negb (has_flag (flag_of flags i) ST_CORE))
           (seqZ 0 m).

(** The invariants of the counters of a state. *)
Definition counters_ok (s : VFState) : Prop :=
  core_len s = core_count (node_flags_1 s) (n1 s) ∧
  core_len s = core_count (node_flags_2 s) (n2 s) ∧
  t1in_len s = term_count ST_TERM_IN (node_flags_1 s) (n1 s) ∧
  t1out_len s = term_count ST_TERM_OUT (node_flags_1 s) (n1 s) ∧
  t2in_len s = term_count ST_TERM_IN (node_flags_2 s) (n2 s) ∧
  t2out_len s = term_count ST_TERM_OUT (node_flags_2 s) (n2 s).

(** ** Examples *)

(** A loader over explicit adjacency lists, for examples. *)
Definition list_loader (attrs : list handle) (adj : list (list (Z * handle))) : ARGLoader :=
  {| L_NodeCount := Z.of_nat (length attrs);
     L_GetNodeAttr u := default NULL (attrs !! Z.to_nat u);
     L_OutEdgeCount u := Z.of_nat (length (default [] (adj !! Z.to_nat u)));
     L_GetOutEdge u j := default (0, NULL) (default [] (adj !! Z.to_nat u) !! Z.to_nat j) |}.

(** The triangle 0→1, 1→2, 2→0. *)
Definition triangle : ARGLoader :=
  list_loader [10; 11; 12] [[(1, 101)]; [(2, 112)]; [(0, 120)]].

(** The edges 0→1, 0→2, 1→2, the out-edges of node 0 in ascending order. *)
Definition fan_sorted : ARGLoader :=
  list_loader [10; 11; 12] [[(1, 101); (2, 102)]; [(2, 112)]; []].

(** The same edges, the out-edges of node 0 reported as 2, 1. *)
Definition fan_unsorted : ARGLoader :=
  list_loader [10; 11; 12] [[(2, 102); (1, 101)]; [(2, 112)]; []].

(** One node that reports 65536 out-edges, all to itself. *)
Definition wide : ARGLoader :=
  {| L_NodeCount := 1;
     L_GetNodeAttr := fun _ => NULL;
     L_OutEdgeCount := fun _ => 65536;
     L_GetOutEdge := fun _ _ => (0, NULL) |}.

(** The loader of [m] nodes without edges. *)
Definition isolated (m : Z) : ARGLoader :=
  {| L_NodeCount := m;
     L_GetNodeAttr := fun _ => NULL;
     L_OutEdgeCount := fun _ => 0;
     L_GetOutEdge := fun _ _ => (0, NULL) |}.

(** A small graph for the examples: 0→1, 0→2, 1→2. *)
Definition fan_graph : ARGraph_impl :=
  {| n := 3; attr := [10; 11; 12];
     in_count := [0; 1; 2]; in_ := [[]; [0]; [0; 1]]; in_attr := [[]; [101]; [102; 112]];
     out_count := [2; 1; 0]; out := [[1; 2]; [2]; []]; out_attr := [[101; 102]; [112]; []];
     node_destroyer := None; edge_destroyer := None;
     node_comparator := None; edge_comparator := None |}.

(** The same graph with a null handle on the edge 0→2. *)
Definition fan_graph_null : ARGraph_impl :=
  with_in_attr (with_out_attr fan_graph [[101; NULL]; [112]; []]) [[]; [101]; [NULL; 112]].

(** A comparator that accepts equal handles only, installed on the nodes. *)
Definition same_handle : AttrComparator := FunctionAttrComparator (Some Z.eqb).

Definition fan_graph_cmp : ARGraph_impl := with_node_comparator fan_graph (Some same_handle).

(** The state reached on two graphs of two nodes once both are matched. *)
Definition full_state : VFState :=
  {| core_len := 2; t1in_len := 0; t1out_len := 0; t2in_len := 0; t2out_len := 0;
     core_1 := [1; 0]; core_2 := [1; 0];
     node_flags_1 := [3; 5]; node_flags_2 := [5; 3]; n1 := 2; n2 := 2 |}.

(** The graph [fan_graph] with a destroyer for the nodes and another for the
    edges. *)
Definition fan_graph_hooks : ARGraph_impl :=
  with_edge_destroyer
    (with_node_destroyer fan_graph (Some (FunctionAttrDestroyer 5)))
    (Some (FunctionAttrDestroyer 6)).

(** A visitor that passes the two ends of the edge and its handle to the
    function [param]. *)
Definition logging_visitor : edge_visitor :=
  fun n1 n2 a param =>
    emit [Invoke (Call param n1); Invoke (Call param n2); Invoke (Call param a)].

Definition logging_events (n1 n2 : Z) (a param : handle) : list event :=
  [Invoke (Call param n1); Invoke (Call param n2); Invoke (Call param a)].

(** Two nodes, the second of which reports 40000 out-edges. *)
Definition second_wide : ARGLoader :=
  {| L_NodeCount := 2;
     L_GetNodeAttr := fun _ => NULL;
     L_OutEdgeCount := fun u => if u =? 0 then 0 else 40000;
     L_GetOutEdge := fun _ _ => (0, NULL) |}.

(** * Properties *)

(** ** The error monad and the arrays *)

Lemma bind_inr {A B} (m : result A) (f : A → result B) (y : B) :
  bind m f = inr y ↔ ∃ x, m = inr x ∧ f x = inr y.
Proof.
  destruct m as [e|x]; simpl; split.
  - discriminate.
  - intros (x & Hx & _). discriminate.
  - eauto.
  - intros (x' & Hx & Hf). injection Hx as ->. exact Hf.
Qed.

Lemma assert_inr (c : bool) (u : unit) : assert c = inr u ↔ c = true.
Proof. destruct c, u; simpl; split; (done || discriminate). Qed.

Lemma read_inr {A} (a : list A) (i : Z) (x : A) :
  read a i = inr x ↔ 0 ≤ i ∧ a !! Z.to_nat i = Some x.
Proof.
  unfold read. destruct (Z.ltb_spec i 0).
  - split; [discriminate | lia].
  - destruct (a !! Z.to_nat i) as [y|]; simpl; split.
    + intros [= ->]. done.
    + intros [_ [= ->]]. done.
    + discriminate.
    + intros [_ ?]. discriminate.
Qed.

Lemma read_nat {A} (a : list A) (i : nat) (x : A) :
  a !! i = Some x → read a (Z.of_nat i) = inr x.
Proof. intros H. apply read_inr. rewrite Nat2Z.id. split; [lia | done]. Qed.

Lemma write_inr {A} (a a' : list A) (i : Z) (x : A) :
  write a i x = inr a' ↔ (0 ≤ i < Z.of_nat (length a)) ∧ a' = <[Z.to_nat i := x]> a.
Proof.
  unfold write.
  destruct (Z.leb_spec 0 i), (Z.ltb_spec i (Z.of_nat (length a))); simpl;
    (split; [ (intros [= <-]; split; [lia | done]) || discriminate
            | intros [? ->]; (done || lia) ]).
Qed.

Lemma write_ok {A} (a : list A) (i : Z) (x : A) :
  0 ≤ i < Z.of_nat (length a) → write a i x = inr (<[Z.to_nat i := x]> a).
Proof. intros. by apply write_inr. Qed.

Lemma new_array_inr {A} (k : Z) (d : A) (a : list A) :
  new_array k d = inr a ↔ 0 ≤ k ∧ a = replicate (Z.to_nat k) d.
Proof.
  unfold new_array. destruct (Z.ltb_spec k 0); simpl; split.
  - discriminate.
  - lia.
  - intros [= <-]. done.
  - intros [_ ->]. done.
Qed.

(** Taking a monadic equation apart. *)
Ltac inv_result :=
  repeat match goal with
    | H : bind _ _ = inr _ |- _ => apply bind_inr in H; destruct H as (? & ? & H)
    | H : assert _ = inr _ |- _ => apply assert_inr in H
    end;
  unfold ret, raise in *; simplify_eq.

(** ** Strictly ascending arrays *)

Lemma ascending_cons (x : Z) (l : list Z) :
  ascending (x :: l) = true ↔ ascending l = true ∧ ∀ y, y ∈ l → x < y.
Proof.
  revert x. induction l as [|y l IH]; intros x.
  - simpl. split; [|done]. intros _. split; [done|]. intros y Hy. by apply elem_of_nil in Hy.
  - change (ascending (x :: y :: l)) with ((x <? y) && ascending (y :: l)).
    rewrite andb_true_iff, Z.ltb_lt. split.
    + intros [Hxy Hl]. split; [done|]. intros z Hz.
      apply elem_of_cons in Hz as [->|Hz]; [done|].
      apply IH in Hl as [_ Hl]. specialize (Hl z Hz). lia.
    + intros [Hl Hx]. split; [|done]. apply Hx. by left.
Qed.

Lemma ascending_lookup (l : list Z) (i j : nat) (x y : Z) :
  ascending l = true → l !! i = Some x → l !! j = Some y → (i < j)%nat → x < y.
Proof.
  revert i j. induction l as [|z l IH]; intros i j Hl Hi Hj Hij; [done|].
  apply ascending_cons in Hl as [Hl Hz].
  destruct j as [|j]; [lia|]. destruct i as [|i]; simpl in *.
  - injection Hi as ->. apply Hz. by eapply list_elem_of_lookup_2.
  - eapply (IH i j); eauto with lia.
Qed.

Lemma ascending_lookup_inj (l : list Z) (i j : nat) (x : Z) :
  ascending l = true → l !! i = Some x → l !! j = Some x → i = j.
Proof.
  intros Hl Hi Hj. destruct (Nat.lt_total i j) as [H|[H|H]]; [|done|].
  - pose proof (ascending_lookup l i j x x Hl Hi Hj H). lia.
  - pose proof (ascending_lookup l j i x x Hl Hj Hi H). lia.
Qed.

Lemma ascending_NoDup (l : list Z) : ascending l = true → NoDup l.
Proof.
  intros Hl. apply NoDup_alt. intros i j x. by apply ascending_lookup_inj.
Qed.

(** ** Binary search *)

Lemma midpoint (a b : Z) :
  0 ≤ a → a < b → b < 2 ^ 31 →
  a ≤ Z.shiftr (to_unsigned (a + b)) 1 < b.
Proof.
  intros Ha Hab Hb. unfold to_unsigned.
  rewrite Z.mod_small by lia. rewrite Z.shiftr_div_pow2 by lia.
  change (2 ^ 1) with 2. split.
  - apply Z.div_le_lower_bound; lia.
  - apply Z.div_lt_upper_bound; lia.
Qed.

(** The loop ends; a hit is at an index that holds the key. *)
Lemma bsearch_loop_hit (fuel : nat) (id : list Z) (key a b : Z) :
  0 ≤ a → b ≤ Z.of_nat (length id) → b < 2 ^ 31 → (Z.to_nat (b - a) ≤ fuel)%nat →
  ∃ r, bsearch_loop fuel id key a b = inr r ∧
       ∀ c, r = Some c → a ≤ c < b ∧ id !! Z.to_nat c = Some key.
Proof.
  revert a b. induction fuel as [|fuel IH]; intros a b Ha Hlen Hb Hfuel; simpl.
  - destruct (Z.ltb_spec a b); [lia|]. eexists; split; [done|]. discriminate.
  - destruct (Z.ltb_spec a b) as [Hab|]; [|eexists; split; [done|discriminate]].
    pose proof (midpoint a b Ha Hab Hb) as Hc.
    set (c := Z.shiftr (to_unsigned (a + b)) 1) in *.
    destruct (lookup_lt_is_Some_2 id (Z.to_nat c)) as [x Hx]; [lia|].
    rewrite (proj2 (read_inr id c x)) by (split; [lia|done]). simpl.
    destruct (Z.ltb_spec x key).
    { destruct (IH (c + 1) b) as (r & -> & Hr); [lia..|]. exists r. split; [done|].
      intros c' Hc'. specialize (Hr c' Hc'). split; [lia | apply Hr]. }
    destruct (Z.ltb_spec key x).
    { destruct (IH a c) as (r & -> & Hr); [lia..|]. exists r. split; [done|].
      intros c' Hc'. specialize (Hr c' Hc'). split; [lia | apply Hr]. }
    eexists; split; [done|]. intros c' [= <-]. split; [lia|].
    rewrite Hx. f_equal. lia.
Qed.

(** On a strictly ascending array the loop finds the key wherever it is
    in the range that is searched. *)
Lemma bsearch_loop_find (fuel : nat) (id : list Z) (key a b c0 : Z) :
  ascending id = true →
  0 ≤ a → b ≤ Z.of_nat (length id) → b < 2 ^ 31 → (Z.to_nat (b - a) ≤ fuel)%nat →
  a ≤ c0 < b → id !! Z.to_nat c0 = Some key →
  bsearch_loop fuel id key a b = inr (Some c0).
Proof.
  intros Hasc. revert a b.
  induction fuel as [|fuel IH]; intros a b Ha Hlen Hb Hfuel Hc0 Hkey; simpl.
  - lia.
  - destruct (Z.ltb_spec a b) as [Hab|]; [|lia].
    pose proof (midpoint a b Ha Hab Hb) as Hc.
    set (c := Z.shiftr (to_unsigned (a + b)) 1) in *.
    destruct (lookup_lt_is_Some_2 id (Z.to_nat c)) as [x Hx]; [lia|].
    rewrite (proj2 (read_inr id c x)) by (split; [lia|done]). simpl.
    destruct (Z.lt_total c c0) as [Hlt|[Heq|Hgt]].
    + pose proof (ascending_lookup id _ _ x key Hasc Hx Hkey ltac:(lia)).
      destruct (Z.ltb_spec x key); [|lia]. apply IH; lia || done.
    + subst c0. rewrite Hkey in Hx. injection Hx as <-.
      rewrite !Z.ltb_irrefl. done.
    + pose proof (ascending_lookup id _ _ key x Hasc Hkey Hx ltac:(lia)).
      destruct (Z.ltb_spec x key); [lia|].
      destruct (Z.ltb_spec key x); [|lia]. apply IH; lia || done.
Qed.

(** What [bsearch] returns on an array of [count] elements. *)
Lemma bsearch_total (id : list Z) (key count : Z) :
  count = Z.of_nat (length id) → count < 2 ^ 31 →
  ∃ r, bsearch id key count = inr r ∧
       ∀ c, r = Some c → 0 ≤ c < count ∧ id !! Z.to_nat c = Some key.
Proof.
  intros Hlen Hb. apply bsearch_loop_hit; lia.
Qed.

Lemma bsearch_loop_hit_key (fuel : nat) (id : list Z) (key a b c : Z) :
  bsearch_loop fuel id key a b = inr (Some c) → 0 ≤ c ∧ id !! Z.to_nat c = Some key.
Proof.
  revert a b. induction fuel as [|fuel IH]; intros a b; simpl.
  - destruct (a <? b); intros H; inv_result.
  - destruct (a <? b); [|intros H; inv_result].
    set (m := Z.shiftr (to_unsigned (a + b)) 1).
    intros H. apply bind_inr in H as (x & Hx & H). apply read_inr in Hx as [Hm Hx].
    destruct (Z.ltb_spec x key); [by eapply IH|].
    destruct (Z.ltb_spec key x); [by eapply IH|].
    inv_result. split; [done|]. rewrite Hx. f_equal. lia.
Qed.

Lemma bsearch_hit_key (id : list Z) (key count c : Z) :
  bsearch id key count = inr (Some c) → 0 ≤ c ∧ id !! Z.to_nat c = Some key.
Proof. apply bsearch_loop_hit_key. Qed.

Lemma bsearch_miss (id : list Z) (key count : Z) :
  count = Z.of_nat (length id) → count < 2 ^ 31 →
  key ∉ id → bsearch id key count = inr None.
Proof.
  intros Hlen Hb Hnot.
  destruct (bsearch_total id key count Hlen Hb) as ([c|] & Hr & Hc); [|done].
  destruct (Hc c eq_refl) as [_ Hin]. exfalso. apply Hnot.
  by eapply list_elem_of_lookup_2.
Qed.

Lemma bsearch_find (id : list Z) (key count : Z) (c : nat) :
  ascending id = true → count = Z.of_nat (length id) → count < 2 ^ 31 →
  id !! c = Some key → bsearch id key count = inr (Some (Z.of_nat c)).
Proof.
  intros Hasc Hlen Hb Hc. apply bsearch_loop_find; try lia; try done.
  - apply lookup_lt_Some in Hc. lia.
  - by rewrite Nat2Z.id.
Qed.

(** ** Edge lookup *)

Lemma read_ok {A} (a : list A) (i : Z) (x : A) :
  0 ≤ i → a !! Z.to_nat i = Some x → read a i = inr x.
Proof. intros. by apply read_inr. Qed.

Lemma assert_lt (i m : Z) : i < m → assert (i <? m) = inr tt.
Proof. intros H. apply assert_inr. by apply Z.ltb_lt. Qed.

Lemma HasEdge_hit (g : ARGraph_impl) (u v : Z) (pattr : bool)
    (row : list Z) (arow : list handle) (c : nat) (a : handle) :
  0 ≤ u < n g → v < n g → out_row g u row arow → ascending row = true →
  row !! c = Some v → arow !! c = Some a →
  HasEdge g u v pattr = inr (true, if pattr then Some a else None).
Proof.
  intros Hu Hv (Hrow & Harow & Hcnt & Hlen & Hshort) Hasc Hc Ha.
  unfold HasEdge.
  rewrite !assert_lt by lia. simpl.
  rewrite (read_ok _ _ _ (proj1 Hu) Hrow). simpl.
  rewrite (read_ok _ _ _ (proj1 Hu) Hcnt). simpl.
  rewrite (bsearch_find row v _ c) by (done || lia). simpl.
  destruct pattr; [|done].
  rewrite (read_ok _ _ _ (proj1 Hu) Harow). simpl.
  by rewrite (read_nat _ _ _ Ha).
Qed.

Lemma HasEdge_miss (g : ARGraph_impl) (u v : Z) (pattr : bool)
    (row : list Z) (arow : list handle) :
  0 ≤ u < n g → v < n g → out_row g u row arow → v ∉ row →
  HasEdge g u v pattr = inr (false, None).
Proof.
  intros Hu Hv (Hrow & Harow & Hcnt & Hlen & Hshort) Hnot.
  unfold HasEdge.
  rewrite !assert_lt by lia. simpl.
  rewrite (read_ok _ _ _ (proj1 Hu) Hrow). simpl.
  rewrite (read_ok _ _ _ (proj1 Hu) Hcnt). simpl.
  by rewrite (bsearch_miss row v) by (done || lia).
Qed.

(** Whatever the arrays hold, a hit of [HasEdge] is at an out-entry of [n1]
    that holds [n2], and the handle stored through [pattr] is the one of
    that entry. *)
Lemma HasEdge_true_inv (g : ARGraph_impl) (u v : Z) (pattr : bool) (st : option handle) :
  HasEdge g u v pattr = inr (true, st) →
  ∃ row c, u < n g ∧ v < n g ∧ read (out g) u = inr row ∧
    (∃ b, read (out_count g) u = inr b ∧ bsearch row v b = inr (Some c)) ∧
    0 ≤ c ∧ row !! Z.to_nat c = Some v ∧
    if pattr then ∃ arow a, read (out_attr g) u = inr arow ∧ read arow c = inr a ∧ st = Some a
    else st = None.
Proof.
  unfold HasEdge. intros H.
  apply bind_inr in H as ([] & Hu%assert_inr%Z.ltb_lt & H).
  apply bind_inr in H as ([] & Hv%assert_inr%Z.ltb_lt & H).
  apply bind_inr in H as (row & Hrow & H).
  apply bind_inr in H as (b & Hb & H).
  apply bind_inr in H as ([c|] & Hhit & H); [|inv_result].
  exists row, c. destruct (bsearch_hit_key _ _ _ _ Hhit) as [Hc0 Hc].
  repeat split; eauto.
  destruct pattr; [|by inv_result].
  apply bind_inr in H as (arow & Harow & H).
  apply bind_inr in H as (a & Ha & H). inv_result. eauto.
Qed.

Lemma GetEdgeAttr_hit (g : ARGraph_impl) (u v : Z)
    (row : list Z) (arow : list handle) (c : nat) (a : handle) :
  0 ≤ u < n g → v < n g → out_row g u row arow → ascending row = true →
  row !! c = Some v → arow !! c = Some a →
  GetEdgeAttr g u v = inr a.
Proof.
  intros. unfold GetEdgeAttr.
  by rewrite (HasEdge_hit g u v true row arow c a).
Qed.

Lemma GetEdgeAttr_miss (g : ARGraph_impl) (u v : Z) (row : list Z) (arow : list handle) :
  0 ≤ u < n g → v < n g → out_row g u row arow → v ∉ row →
  GetEdgeAttr g u v = inr NULL.
Proof.
  intros. unfold GetEdgeAttr.
  by rewrite (HasEdge_miss g u v true row arow).
Qed.

Example fan_graph_built : ARGraph_impl_new fan_sorted = inr fan_graph.
Proof. reflexivity. Qed.

Example triangle_built :
  ARGraph_impl_new triangle =
    inr {| n := 3; attr := [10; 11; 12];
           in_count := [1; 1; 1]; in_ := [[2]; [0]; [1]]; in_attr := [[120]; [101]; [112]];
           out_count := [1; 1; 1]; out := [[1]; [2]; [0]]; out_attr := [[101]; [112]; [120]];
           node_destroyer := None; edge_destroyer := None;
           node_comparator := None; edge_comparator := None |}.
Proof. reflexivity. Qed.

(** C3. On an ARG whose out-neighbour array at [u] is strictly ascending,
    for node ids [u], [v] below [n], [HasEdge(u, v, pattr)] returns a value,
    which is [true] exactly when [v] occurs in the out-neighbour array of
    [u]; on a hit with a non-null [pattr] the handle stored through [pattr]
    is the one of the out-entry that holds [v] (and nothing is stored through
    a null [pattr]); on a miss nothing is stored. *)
Theorem HasEdge_binary_search (g : ARGraph_impl) (u v : Z) (pattr : bool)
    (row : list Z) (arow : list handle) :
  0 ≤ u < n g → 0 ≤ v < n g → out_row g u row arow → ascending row = true →
  ∃ found stored,
    HasEdge g u v pattr = inr (found, stored) ∧
    (found = true ↔ v ∈ row) ∧
    (found = true →
       if pattr then ∃ c a, row !! c = Some v ∧ arow !! c = Some a ∧ stored = Some a
       else stored = None) ∧
    (found = false → stored = None).
Proof.
  intros Hu Hv Hrow Hasc.
  destruct (decide (v ∈ row)) as [Hin|Hnot].
  - apply list_elem_of_lookup in Hin as [c Hc].
    pose proof Hrow as (Hr & Har & Hcnt & Hlen & Hshort).
    destruct (lookup_lt_is_Some_2 arow c) as [a Ha].
    { rewrite Hlen. by eapply lookup_lt_Some. }
    exists true, (if pattr then Some a else None). repeat split.
    + apply (HasEdge_hit g u v pattr row arow c a); done || lia.
    + intros _. by eapply list_elem_of_lookup_2.
    + intros _. destruct pattr; eauto.
    + discriminate.
  - exists false, None. repeat split.
    + apply (HasEdge_miss g u v pattr row arow); done || lia.
    + discriminate.
    + done.
    + discriminate.
Qed.

Lemma HasEdge_binary_search_witness :
  ∃ found stored,
    HasEdge fan_graph 0 2 true = inr (found, stored) ∧
    (found = true ↔ 2 ∈ [1; 2]) ∧
    (found = true → ∃ c a, [1; 2] !! c = Some 2 ∧ [101; 102] !! c = Some a ∧ stored = Some a) ∧
    (found = false → stored = None).
Proof.
  apply (HasEdge_binary_search fan_graph 0 2 true [1; 2] [101; 102]).
  - simpl. lia.
  - simpl. lia.
  - repeat split. simpl. lia.
  - reflexivity.
Defined.

(** C10. For node ids [u], [v] below [n] (out-array of [u] strictly
    ascending), [GetEdgeAttr(u, v)] returns the handle stored for the edge
    when [v] is among the out-neighbours of [u], and [NULL] when it is not;
    so for a recorded edge whose handle is [NULL] the result is the one of
    an absent edge, in this graph or in any other. *)
Theorem GetEdgeAttr_null_when_absent (g : ARGraph_impl) (u v : Z)
    (row : list Z) (arow : list handle) :
  0 ≤ u < n g → 0 ≤ v < n g → out_row g u row arow → ascending row = true →
  (∀ c a, row !! c = Some v → arow !! c = Some a → GetEdgeAttr g u v = inr a) ∧
  (v ∉ row → GetEdgeAttr g u v = inr NULL) ∧
  (∀ c g' u' v' row' arow',
     row !! c = Some v → arow !! c = Some NULL →
     0 ≤ u' < n g' → 0 ≤ v' < n g' → out_row g' u' row' arow' → v' ∉ row' →
     GetEdgeAttr g u v = GetEdgeAttr g' u' v').
Proof.
  intros Hu Hv Hrow Hasc. split; [|split].
  - intros c a Hc Ha. apply (GetEdgeAttr_hit g u v row arow c a); done || lia.
  - intros Hnot. apply (GetEdgeAttr_miss g u v row arow); done || lia.
  - intros c g' u' v' row' arow' Hc Ha Hu' Hv' Hrow' Hnot.
    rewrite (GetEdgeAttr_hit g u v row arow c NULL) by (done || lia).
    by rewrite (GetEdgeAttr_miss g' u' v' row' arow') by (done || lia).
Qed.

Lemma GetEdgeAttr_null_when_absent_witness :
  GetEdgeAttr fan_graph_null 0 2 = inr NULL ∧
  GetEdgeAttr fan_graph_null 1 0 = inr NULL ∧
  GetEdgeAttr fan_graph_null 0 2 = GetEdgeAttr fan_graph_null 1 0.
Proof.
  assert (Hr0 : out_row fan_graph_null 0 [1; 2] [101; NULL]) by (repeat split; simpl; lia).
  assert (Hr1 : out_row fan_graph_null 1 [2] [112]) by (repeat split; simpl; lia).
  destruct (GetEdgeAttr_null_when_absent fan_graph_null 0 2 [1; 2] [101; NULL])
    as (Hhit & _ & Hsame); [simpl; lia | simpl; lia | exact Hr0 | reflexivity |].
  destruct (GetEdgeAttr_null_when_absent fan_graph_null 1 0 [2] [112])
    as (_ & Hmiss & _); [simpl; lia | simpl; lia | exact Hr1 | reflexivity |].
  assert (Hno : (0 : Z) ∉ [2]) by (intros [=]%list_elem_of_singleton).
  split; [|split].
  - apply (Hhit 1%nat NULL); reflexivity.
  - apply Hmiss, Hno.
  - apply (Hsame 1%nat fan_graph_null 1 0 [2] [112]);
      [reflexivity | reflexivity | simpl; lia | simpl; lia | exact Hr1 | exact Hno].
Defined.

(** ** Attribute hooks *)

(** C9. Without a node comparator [CompatibleNode(a, b)] is [true], with a
    comparator object [c] it is [c.compatible(a, b)]; the same for
    [CompatibleEdge] and the edge comparator. Both are total: they return a
    boolean and raise nothing. *)
Theorem Compatible_default_true (g : ARGraph_impl) (a b : handle) :
  (node_comparator g = None → CompatibleNode g a b = true) ∧
  (∀ c, node_comparator g = Some c → CompatibleNode g a b = compatible c a b) ∧
  (edge_comparator g = None → CompatibleEdge g a b = true) ∧
  (∀ c, edge_comparator g = Some c → CompatibleEdge g a b = compatible c a b).
Proof.
  unfold CompatibleNode, CompatibleEdge.
  repeat split; intros; simplify_option_eq; done.
Qed.

Lemma Compatible_default_true_witness :
  CompatibleNode fan_graph_cmp 10 11 = compatible same_handle 10 11 ∧
  CompatibleEdge fan_graph_cmp 10 11 = true.
Proof.
  destruct (Compatible_default_true fan_graph_cmp 10 11) as (_ & Hn & He & _).
  split; [apply Hn | apply He]; reflexivity.
Defined.

Lemma quiet_bind_lift {A} (r : result A) (f : A → M unit) (g : ARGraph_impl) :
  (∀ x, r = inr x → quiet (f x) g) → quiet (mbind (lift r) f) g.
Proof.
  intros Hf tr. unfold mbind, lift. destruct r as [e|x]; [by eexists|].
  by apply Hf.
Qed.

Lemma alike_bind_lift {A} (r : result A) (f : A → M unit) (g1 g2 : ARGraph_impl) :
  (∀ x, r = inr x → alike (f x) g1 g2) → alike (mbind (lift r) f) g1 g2.
Proof.
  intros Hf tr. unfold mbind, lift. destruct r as [e|x]; [by eexists _, _|].
  by apply Hf.
Qed.

Lemma quiet_for_each (body : Z → M unit) (range : list Z) (g : ARGraph_impl) :
  (∀ i, quiet (body i) g) → quiet (mfor_each body range) g.
Proof.
  intros Hb. induction range as [|i range IH]; intros tr; simpl.
  - by eexists.
  - unfold mbind. destruct (Hb i tr) as [[e|[]] ->]; [by eexists|]. apply IH.
Qed.

Lemma alike_for_each (body1 body2 : Z → M unit) (range : list Z) (g1 g2 : ARGraph_impl) :
  (∀ i tr, ∃ r tr', body1 i (g1, tr) = (r, (g1, tr')) ∧ body2 i (g2, tr) = (r, (g2, tr'))) →
  ∀ tr, ∃ r tr', mfor_each body1 range (g1, tr) = (r, (g1, tr')) ∧
                 mfor_each body2 range (g2, tr) = (r, (g2, tr')).
Proof.
  intros Hb. induction range as [|i range IH]; intros tr; simpl.
  - by eexists _, _.
  - unfold mbind. destruct (Hb i tr) as ([e|[]] & tr' & -> & ->); [by eexists _, _|].
    apply IH.
Qed.

Lemma DestroyEdge_quiet (g : ARGraph_impl) (a : handle) :
  edge_destroyer g = None → quiet (DestroyEdge a) g.
Proof.
  intros Hd tr. unfold DestroyEdge, mbind, get. simpl. rewrite Hd. by eexists.
Qed.

Lemma DestroyEdge_alike (g1 g2 : ARGraph_impl) (a : handle) :
  edge_destroyer g1 = edge_destroyer g2 → alike (DestroyEdge a) g1 g2.
Proof.
  intros Hd tr. unfold DestroyEdge, mbind, get. simpl. rewrite Hd.
  destruct (edge_destroyer g2); by eexists _, _.
Qed.

Lemma destroy_edges_quiet (g : ARGraph_impl) :
  edge_destroyer g = None → quiet destroy_edges g.
Proof.
  intros Hd tr. unfold destroy_edges, mbind at 1, get. simpl.
  apply quiet_for_each. intros i. apply quiet_bind_lift. intros k _.
  apply quiet_for_each. intros j. apply quiet_bind_lift. intros row _.
  apply quiet_bind_lift. intros a _. by apply DestroyEdge_quiet.
Qed.

Lemma destroy_edges_alike (g1 g2 : ARGraph_impl) :
  n g1 = n g2 → out_count g1 = out_count g2 → out_attr g1 = out_attr g2 →
  edge_destroyer g1 = edge_destroyer g2 → alike destroy_edges g1 g2.
Proof.
  intros Hn Hc Ha Hd tr. unfold destroy_edges, mbind at 1 3, get. simpl.
  rewrite Hn, Hc, Ha. unfold mfor_loop.
  apply alike_for_each. intros i tr1. apply alike_bind_lift. intros k _ tr2.
  apply alike_for_each. intros j tr3. apply alike_bind_lift. intros row _.
  apply alike_bind_lift. intros a _. by apply DestroyEdge_alike.
Qed.

(** C7. [SetEdgeDestroy(fn)] puts a [FunctionAttrDestroyer] around [fn] in
    the node destroyer slot, after deleting the node destroyer that was
    there, and leaves the edge destroyer slot as it was. So the destruction
    of the edge attributes at teardown runs as before the call, and with an
    empty edge slot it calls nothing, hence not [fn]; it is the destruction
    of a node attribute that calls [fn]. *)
Theorem SetEdgeDestroy_sets_node_slot (g : ARGraph_impl) (fn : Z) :
  ∃ g',
    run (SetEdgeDestroy fn) g =
      (inr tt, (g', match node_destroyer g with
                    | Some old => [DeleteDestroyer old]
                    | None => []
                    end)) ∧
    node_destroyer g' = Some (FunctionAttrDestroyer fn) ∧
    edge_destroyer g' = edge_destroyer g ∧
    alike destroy_edges g' g ∧
    (edge_destroyer g = None → fn ≠ NULL →
       quiet destroy_edges g' ∧
       ∀ a tr, DestroyNode a (g', tr) = (inr tt, (g', tr ++ [Invoke (Call fn a)]))).
Proof.
  exists (with_node_destroyer g (Some (FunctionAttrDestroyer fn))).
  split; [|split; [|split; [|split]]].
  - unfold run, SetEdgeDestroy, SetNodeDestroyer, mbind, get, put, delete_destroyer. simpl.
    by destruct (node_destroyer g).
  - done.
  - done.
  - by apply destroy_edges_alike.
  - intros Hd Hfn. split; [by apply destroy_edges_quiet|].
    intros a tr. unfold DestroyNode, mbind, get, emit. simpl.
    destruct (Z.eqb_spec fn NULL); done.
Qed.

Lemma SetEdgeDestroy_sets_node_slot_witness :
  ∃ g',
    run (SetEdgeDestroy 5) fan_graph = (inr tt, (g', [])) ∧
    node_destroyer g' = Some (FunctionAttrDestroyer 5) ∧
    edge_destroyer g' = None ∧
    run destroy_edges g' = (inr tt, (g', [])) ∧
    DestroyNode 10 (g', []) = (inr tt, (g', [Invoke (Call 5 10)])) ∧
    run ARGraph_impl_delete g' =
      (inr tt, (g', [Invoke (Call 5 10); Invoke (Call 5 11); Invoke (Call 5 12);
                     DeleteDestroyer (FunctionAttrDestroyer 5)])).
Proof.
  destruct (SetEdgeDestroy_sets_node_slot fan_graph 5) as (g' & Hrun & Hn & He & _ & Hq).
  destruct Hq as [Hq Hnode]; [reflexivity | discriminate |].
  exists g'. split; [exact Hrun|]. split; [exact Hn|]. split; [exact He|].
  injection Hrun as <-.
  split; [reflexivity|]. split; [apply (Hnode 10 [])|reflexivity].
Defined.

(** ** The matching state *)

Lemma count_if_bounds {A} (p : A → bool) (l : list A) :
  0 ≤ count_if p l ≤ Z.of_nat (length l).
Proof. induction l as [|x l IH]; simpl; [lia|]. destruct (p x); lia. Qed.

Lemma count_if_full {A} (p q : A → bool) (l : list A) :
  count_if p l = Z.of_nat (length l) → (∀ x, p x = true → q x = false) → count_if q l = 0.
Proof.
  intros Hfull Hpq. induction l as [|x l IH]; simpl in *; [done|].
  pose proof (count_if_bounds p l).
  destruct (p x) eqn:Hp; [|lia]. rewrite (Hpq x Hp). rewrite IH; lia.
Qed.

Lemma term_count_all_core (flag : Z) (flags : list Z) (m : Z) :
  core_count flags m = m → term_count flag flags m = 0.
Proof.
  intros Hcore. unfold term_count, core_count in *.
  apply (count_if_full (fun i => has_flag (flag_of flags i) ST_CORE)).
  - pose proof (count_if_bounds (fun i => has_flag (flag_of flags i) ST_CORE) (seqZ 0 m)) as Hb.
    rewrite length_seqZ in *. lia.
  - intros i ->. by rewrite andb_false_r.
Qed.

(** C8. A state whose counters satisfy their invariants is never both a
    goal and dead. *)
Theorem goal_not_dead (s : VFState) :
  counters_ok s → ¬ (IsGoal s = true ∧ IsDead s = true).
Proof.
  intros (Hc1 & Hc2 & Hi1 & Ho1 & Hi2 & Ho2) [Hgoal Hdead].
  unfold IsGoal in Hgoal. apply andb_true_iff in Hgoal as [H1%Z.eqb_eq H2%Z.eqb_eq].
  assert (Hf1 : core_count (node_flags_1 s) (n1 s) = n1 s) by congruence.
  assert (Hf2 : core_count (node_flags_2 s) (n2 s) = n2 s) by congruence.
  rewrite (term_count_all_core _ _ _ Hf1) in Hi1. rewrite (term_count_all_core _ _ _ Hf1) in Ho1.
  rewrite (term_count_all_core _ _ _ Hf2) in Hi2. rewrite (term_count_all_core _ _ _ Hf2) in Ho2.
  unfold IsDead in Hdead. rewrite Hi1, Ho1, Hi2, Ho2 in Hdead.
  rewrite <- H1, <- H2, !Z.eqb_refl in Hdead. discriminate.
Qed.

Lemma goal_not_dead_witness :
  counters_ok full_state ∧ IsGoal full_state = true ∧ IsDead full_state = false
  ∧ ¬ (IsGoal full_state = true ∧ IsDead full_state = true).
Proof.
  split; [repeat split|]. split; [reflexivity|]. split; [reflexivity|].
  apply (goal_not_dead full_state). repeat split.
Defined.

(** ** Changing the attribute of an edge *)

Lemma read_err {A} (a : list A) (i : Z) (e : error_kind) : read a i = inl e → e = OutOfBounds.
Proof.
  unfold read. destruct (i <? 0); [by intros [= <-]|].
  destruct (a !! Z.to_nat i); [discriminate | by intros [= <-]].
Qed.

Lemma write_err {A} (a : list A) (i : Z) (x : A) (e : error_kind) :
  write a i x = inl e → e = OutOfBounds.
Proof.
  unfold write. destruct ((0 <=? i) && (i <? Z.of_nat (length a))); [discriminate|].
  by intros [= <-].
Qed.

Lemma write2_err {A} (a : list (list A)) (i j : Z) (x : A) (e : error_kind) :
  write2 a i j x = inl e → e = OutOfBounds.
Proof.
  unfold write2. destruct (read a i) as [e'|row] eqn:Hr; simpl.
  { intros [= <-]. by eapply read_err. }
  destruct (write row j x) as [e'|row'] eqn:Hw; simpl.
  { intros [= <-]. by eapply write_err. }
  apply write_err.
Qed.

Lemma bsearch_loop_err (fuel : nat) (id : list Z) (key a b : Z) (e : error_kind) :
  bsearch_loop fuel id key a b = inl e → e = OutOfBounds ∨ e = Diverged.
Proof.
  revert a b. induction fuel as [|fuel IH]; intros a b; simpl.
  - destruct (a <? b); [|discriminate]. intros [= <-]. by right.
  - destruct (a <? b); [|discriminate].
    destruct (read id _) as [e'|x] eqn:Hr; simpl.
    { intros [= <-]. left. by eapply read_err. }
    destruct (x <? key); [apply IH|]. destruct (key <? x); [apply IH|discriminate].
Qed.

Lemma write2_inr {A} (a a' : list (list A)) (i j : Z) (x : A) :
  write2 a i j x = inr a' ↔
  ∃ row, read a i = inr row ∧ 0 ≤ j < Z.of_nat (length row) ∧
         a' = <[Z.to_nat i := <[Z.to_nat j := x]> row]> a.
Proof.
  unfold write2. split.
  - intros H. apply bind_inr in H as (row & Hrow & H).
    apply bind_inr in H as (row' & Hrow' & H).
    apply write_inr in Hrow' as [Hj ->]. apply write_inr in H as [Hi ->]. eauto.
  - intros (row & Hrow & Hj & ->). rewrite Hrow. simpl.
    rewrite write_ok by done. simpl. apply write_ok.
    apply read_inr in Hrow as [Hi Hrow]. apply lookup_lt_Some in Hrow. lia.
Qed.

Lemma write2_ok {A} (a : list (list A)) (row : list A) (i j : Z) (x : A) :
  read a i = inr row → 0 ≤ j < Z.of_nat (length row) →
  write2 a i j x = inr (<[Z.to_nat i := <[Z.to_nat j := x]> row]> a).
Proof. intros. apply write2_inr. eauto. Qed.

Lemma read2_inr {A} (a : list (list A)) (i j : Z) (x : A) :
  read2 a i j = inr x ↔ ∃ row, read a i = inr row ∧ read row j = inr x.
Proof. unfold read2. apply bind_inr. Qed.

(** Reading after [a[i][j] = x]. *)
Lemma read2_write2 {A} (a a' : list (list A)) (i j i' j' : Z) (x : A) :
  write2 a i j x = inr a' →
  read2 a' i' j' = if decide (i' = i ∧ j' = j) then inr x else read2 a i' j'.
Proof.
  intros (row & Hrow & Hj & ->)%write2_inr.
  apply read_inr in Hrow as [Hi Hrow]. pose proof (lookup_lt_Some _ _ _ Hrow) as Hlt.
  unfold read2, read at 1 3. destruct (Z.ltb_spec i' 0) as [Hneg|Hpos].
  { simpl. case_decide; [lia|done]. }
  destruct (decide (i' = i)) as [->|Hne].
  - rewrite list_lookup_insert_eq by done. rewrite Hrow. simpl.
    unfold read. destruct (Z.ltb_spec j' 0) as [Hneg'|Hpos'].
    { case_decide; [lia|done]. }
    destruct (decide (j' = j)) as [->|Hne'].
    + rewrite list_lookup_insert_eq by lia. simpl. case_decide; [done|tauto].
    + rewrite list_lookup_insert_ne by lia. case_decide; [tauto|done].
  - rewrite list_lookup_insert_ne by lia. case_decide; [tauto|done].
Qed.

Lemma length_write2 {A} (a a' : list (list A)) (i j : Z) (x : A) :
  write2 a i j x = inr a' → length a' = length a.
Proof. intros (row & _ & _ & ->)%write2_inr. apply length_insert. Qed.

Lemma set_out_entry_miss (g : ARGraph_impl) (tr : list event) (u v : Z) (a' : handle)
    (d : bool) (row : list Z) (b : Z) :
  read (out g) u = inr row → read (out_count g) u = inr b → bsearch row v b = inr None →
  set_out_entry u v a' d (g, tr) = (inl UnknownEdge, (g, tr)).
Proof.
  intros Hrow Hb Hs. unfold set_out_entry, mbind, get, lift. simpl.
  by rewrite Hrow, Hb, Hs.
Qed.

Lemma set_out_entry_hit (g : ARGraph_impl) (tr : list event) (u v : Z) (a' : handle)
    (d : bool) (row : list Z) (b c : Z) (old : handle) (oa' : list (list handle)) :
  read (out g) u = inr row → read (out_count g) u = inr b → bsearch row v b = inr (Some c) →
  read2 (out_attr g) u c = inr old → write2 (out_attr g) u c a' = inr oa' →
  set_out_entry u v a' d (g, tr) =
    (inr tt, (with_out_attr g oa', tr ++ if d then edge_events g old else [])).
Proof.
  intros Hrow Hb Hs (arow & Harow & Hold)%read2_inr Hw.
  unfold set_out_entry, mbind, get, lift. simpl. rewrite Hrow, Hb, Hs.
  destruct d.
  - rewrite Harow, Hold. unfold DestroyEdge, edge_events, mbind, get, emit, mret. simpl.
    destruct (edge_destroyer g); simpl; rewrite Hw; unfold put; simpl; [done|].
    by rewrite app_nil_r.
  - unfold mret. rewrite Hw. unfold put. simpl. by rewrite app_nil_r.
Qed.

Lemma set_in_entry_hit (g : ARGraph_impl) (tr : list event) (u v : Z) (a' : handle)
    (row : list Z) (b c : Z) (ia' : list (list handle)) :
  read (in_ g) v = inr row → read (in_count g) v = inr b → bsearch row u b = inr (Some c) →
  write2 (in_attr g) v c a' = inr ia' →
  set_in_entry u v a' (g, tr) = (inr tt, (with_in_attr g ia', tr)).
Proof.
  intros Hrow Hb Hs Hw. unfold set_in_entry, mbind, get, lift. simpl.
  by rewrite Hrow, Hb, Hs, Hw.
Qed.

(** The second part reports a missing in-entry as an inconsistent graph,
    never as an unknown edge. *)
Lemma set_in_entry_not_unknown (u v : Z) (a' : handle) (s : ARGraph_impl * list event) :
  fst (set_in_entry u v a' s) ≠ inl UnknownEdge.
Proof.
  unfold set_in_entry, mbind, get, lift, error, put. simpl.
  destruct (read (in_ (fst s)) v) as [e|row] eqn:Hr; simpl.
  { apply read_err in Hr as ->. discriminate. }
  destruct (read (in_count (fst s)) v) as [e|b] eqn:Hb; simpl.
  { apply read_err in Hb as ->. discriminate. }
  destruct (bsearch row u b) as [e|[c|]] eqn:Hs; simpl.
  - apply bsearch_loop_err in Hs as [-> | ->]; discriminate.
  - destruct (write2 _ v c a') as [e|ia'] eqn:Hw; simpl; [|discriminate].
    apply write2_err in Hw as ->. discriminate.
  - discriminate.
Qed.

(** C5. [SetEdgeAttr(u, v, a)] on a pair for which [v] is not among the
    out-neighbours of [u] raises [UnknownEdge] and leaves the object as it
    was, with no event; and on an ARG (out-array of [u] strictly ascending)
    [UnknownEdge] is raised exactly when the edge is absent. *)
Theorem SetEdgeAttr_unknown_edge (g : ARGraph_impl) (u v : Z) (a' : handle) (d : bool)
    (row : list Z) (arow : list handle) :
  0 ≤ u < n g → 0 ≤ v < n g → out_row g u row arow →
  (v ∉ row → run (SetEdgeAttr u v a' d) g = (inl UnknownEdge, (g, []))) ∧
  (ascending row = true →
     (fst (run (SetEdgeAttr u v a' d) g) = inl UnknownEdge ↔ v ∉ row)).
Proof.
  intros Hu Hv Hrow.
  pose proof Hrow as (Hr & Har & Hcnt & Hlen & Hshort).
  assert (Hstart : ∀ tr, SetEdgeAttr u v a' d (g, tr) =
            match set_out_entry u v a' d (g, tr) with
            | (inl e, s') => (inl e, s')
            | (inr _, s') => set_in_entry u v a' s'
            end).
  { intros tr. unfold SetEdgeAttr, mbind at 1 2 3, get, lift. simpl.
    rewrite !assert_lt by lia. done. }
  assert (Hmiss : v ∉ row → run (SetEdgeAttr u v a' d) g = (inl UnknownEdge, (g, []))).
  { intros Hnot. unfold run. rewrite Hstart.
    rewrite (set_out_entry_miss g [] u v a' d row (Z.of_nat (length row))); [done|..].
    - by apply read_ok; [lia|].
    - by apply read_ok; [lia|].
    - apply bsearch_miss; done || lia. }
  split; [exact Hmiss|]. intros Hasc. split.
  - intros Herr Hin. apply list_elem_of_lookup in Hin as [c Hc].
    destruct (lookup_lt_is_Some_2 arow c) as [old Hold].
    { rewrite Hlen. by eapply lookup_lt_Some. }
    assert (Hw : write2 (out_attr g) u (Z.of_nat c) a' =
                 inr (<[Z.to_nat u := <[Z.to_nat (Z.of_nat c) := a']> arow]> (out_attr g))).
    { apply write2_inr. exists arow. split; [by apply read_ok; [lia|]|]. split; [|done].
      apply lookup_lt_Some in Hold. lia. }
    unfold run in Herr. rewrite Hstart in Herr.
    rewrite (set_out_entry_hit g [] u v a' d row (Z.of_nat (length row)) (Z.of_nat c) old _
               ltac:(by apply read_ok; [lia|]) ltac:(by apply read_ok; [lia|])
               ltac:(apply bsearch_find; done || lia)
               ltac:(apply read2_inr; exists arow; split;
                       [by apply read_ok; [lia|] | by apply read_nat])
               Hw) in Herr.
    by apply set_in_entry_not_unknown in Herr.
  - intros Hnot. by rewrite Hmiss.
Qed.

Lemma SetEdgeAttr_unknown_edge_witness :
  run (SetEdgeAttr 1 0 777 true) fan_graph = (inl UnknownEdge, (fan_graph, [])) ∧
  (fst (run (SetEdgeAttr 1 0 777 true) fan_graph) = inl UnknownEdge ↔ 0 ∉ [2]).
Proof.
  destruct (SetEdgeAttr_unknown_edge fan_graph 1 0 777 true [2] [112]) as [Hmiss Hiff].
  - simpl. lia.
  - simpl. lia.
  - repeat split. simpl. lia.
  - split; [|apply Hiff; reflexivity].
    apply Hmiss. intros [=]%list_elem_of_singleton.
Defined.

(** ** The aliasing of the edge attributes *)

Lemma HasEdge_attr_iff (g : ARGraph_impl) (u v : Z) (a : handle) :
  HasEdge g u v true = inr (true, Some a) ↔
  u < n g ∧ v < n g ∧
  ∃ row b c, read (out g) u = inr row ∧ read (out_count g) u = inr b ∧
             bsearch row v b = inr (Some c) ∧ read2 (out_attr g) u c = inr a.
Proof.
  split.
  - intros (row & c & Hu & Hv & Hrow & (b & Hb & Hs) & _ & _ & arow & a0 & Har & Ha & [= <-])
      %HasEdge_true_inv.
    split; [done|]. split; [done|]. exists row, b, c. repeat split; try done.
    apply read2_inr. eauto.
  - intros (Hu & Hv & row & b & c & Hrow & Hb & Hs & (arow & Har & Ha)%read2_inr).
    unfold HasEdge. rewrite !assert_lt by done. simpl.
    rewrite Hrow. simpl. rewrite Hb. simpl. rewrite Hs. simpl.
    rewrite Har. simpl. by rewrite Ha.
Qed.

Lemma GetInEdge_iff (g : ARGraph_impl) (v l u : Z) (a : handle) :
  GetInEdge g v l = inr (u, a) ↔
  v < n g ∧ ∃ k, read (in_count g) v = inr k ∧ l < k ∧
                 read2 (in_attr g) v l = inr a ∧ read2 (in_ g) v l = inr u.
Proof.
  unfold GetInEdge. split.
  - intros H.
    apply bind_inr in H as ([] & Hv%assert_inr%Z.ltb_lt & H).
    apply bind_inr in H as (k & Hk & H).
    apply bind_inr in H as ([] & Hl%assert_inr%Z.ltb_lt & H).
    apply bind_inr in H as (arow & Har & H).
    apply bind_inr in H as (a0 & Ha & H).
    apply bind_inr in H as (row & Hrow & H).
    apply bind_inr in H as (u0 & Hu0 & H). inv_result.
    split; [done|]. exists k. repeat split; try done; apply read2_inr; eauto.
  - intros (Hv & k & Hk & Hl & (arow & Har & Ha)%read2_inr & (row & Hrow & Hu)%read2_inr).
    rewrite assert_lt by done. simpl. rewrite Hk. simpl.
    rewrite assert_lt by done. simpl. rewrite Har. simpl. rewrite Ha. simpl.
    rewrite Hrow. simpl. by rewrite Hu.
Qed.

Lemma SetEdgeAttr_unfold (g : ARGraph_impl) (tr : list event) (u v : Z) (a' : handle) (d : bool) :
  u < n g → v < n g →
  SetEdgeAttr u v a' d (g, tr) =
    match set_out_entry u v a' d (g, tr) with
    | (inl e, s') => (inl e, s')
    | (inr _, s') => set_in_entry u v a' s'
    end.
Proof.
  intros Hu Hv. unfold SetEdgeAttr, mbind at 1 2 3, get, lift. simpl.
  by rewrite !assert_lt by lia.
Qed.

(** [SetEdgeAttr] on a recorded edge: it succeeds, keeps the invariant, and
    both lookups yield the new handle. *)
Lemma SetEdgeAttr_preserves (g : ARGraph_impl) (u v : Z) (a a' : handle) (d : bool) :
  ARG_inv g → node g u → node g v → HasEdge g u v true = inr (true, Some a) →
  ∃ g', run (SetEdgeAttr u v a' d) g = (inr tt, (g', if d then edge_events g a else [])) ∧
        ARG_inv g' ∧
        HasEdge g' u v true = inr (true, Some a') ∧
        ∃ l, GetInEdge g' v l = inr (u, a').
Proof.
  intros [Hal Hin] Hu Hv Hedge.
  pose proof Hedge as (Hun & Hvn & row & b & c & Hrow & Hb & Hs & Hold)%HasEdge_attr_iff.
  destruct (Hal u v Hu Hv) as [_ H2]. destruct (H2 a Hedge) as [l Hl].
  apply GetInEdge_iff in Hl as (_ & k & Hk & Hlk & Hia & Hiu).
  destruct (Hin v Hv) as (irow & iarow & (Hir & Hiar & Hic & Hilen & Hibound) & Hasc).
  assert (Hirow : read (in_ g) v = inr irow) by (apply read_ok; [apply Hv | done]).
  assert (Hiarow : read (in_attr g) v = inr iarow) by (apply read_ok; [apply Hv | done]).
  assert (Hkl : k = Z.of_nat (length irow)).
  { apply read_inr in Hk as [_ Hk]. congruence. }
  apply read2_inr in Hiu as (irow0 & Hirow0 & Hlu).
  assert (irow0 = irow) as -> by congruence.
  apply read_inr in Hlu as [Hl0 Hlu].
  assert (Hsi : bsearch irow u k = inr (Some l)).
  { rewrite <- (Z2Nat.id l) by done. apply bsearch_find; done || lia. }
  pose proof (bsearch_hit_key _ _ _ _ Hs) as [Hc0 Hcv].
  assert (∃ oa', write2 (out_attr g) u c a' = inr oa') as [oa' Hwo].
  { apply read2_inr in Hold as (arow & Har & Hc).
    eexists. apply write2_inr. exists arow. split; [done|]. split; [|done].
    apply read_inr in Hc as [? Hc%lookup_lt_Some]. lia. }
  assert (∃ ia', write2 (in_attr g) v l a' = inr ia') as [ia' Hwi].
  { eexists. apply write2_inr. exists iarow. split; [done|]. split; [|done]. lia. }
  set (g' := with_in_attr (with_out_attr g oa') ia').
  assert (HHE : ∀ u' v' x, HasEdge g' u' v' true = inr (true, Some x) ↔
            u' < n g ∧ v' < n g ∧
            ∃ row' b' c', read (out g) u' = inr row' ∧ read (out_count g) u' = inr b' ∧
                          bsearch row' v' b' = inr (Some c') ∧ read2 oa' u' c' = inr x).
  { intros. apply (HasEdge_attr_iff g'). }
  assert (HGI : ∀ v' l' u' x, GetInEdge g' v' l' = inr (u', x) ↔
            v' < n g ∧ ∃ k', read (in_count g) v' = inr k' ∧ l' < k' ∧
                             read2 ia' v' l' = inr x ∧ read2 (in_ g) v' l' = inr u').
  { intros. apply (GetInEdge_iff g'). }
  assert (Hnew_out : HasEdge g' u v true = inr (true, Some a')).
  { apply HHE. split; [done|]. split; [done|]. exists row, b, c. repeat split; try done.
    rewrite (read2_write2 _ _ _ _ _ _ _ Hwo). by rewrite decide_True. }
  assert (Hnew_in : GetInEdge g' v l = inr (u, a')).
  { apply HGI. split; [done|]. exists k. repeat split; try done.
    - rewrite (read2_write2 _ _ _ _ _ _ _ Hwi). by rewrite decide_True.
    - apply read2_inr. exists irow. split; [done|]. by apply read_ok. }
  exists g'. split; [|split; [split|split]].
  - unfold run. rewrite SetEdgeAttr_unfold by done.
    rewrite (set_out_entry_hit g [] u v a' d row b c a oa') by done.
    by rewrite (set_in_entry_hit (with_out_attr g oa') _ u v a' irow k l ia') by done.
  - (* the aliasing *)
    intros u' v' Hu' Hv'. split.
    + intros l' x (Hv'n & k' & Hk' & Hl'k & Hx & Hu'r)%HGI.
      rewrite (read2_write2 _ _ _ _ _ _ _ Hwi) in Hx.
      destruct (decide (v' = v ∧ l' = l)) as [[-> ->]|Hcase].
      * injection Hx as <-.
        apply read2_inr in Hu'r as (irow1 & Hirow1 & Hu'r).
        assert (irow1 = irow) as -> by congruence.
        apply read_inr in Hu'r as [_ Hu'r]. assert (u' = u) as -> by congruence. done.
      * assert (Hold' : GetInEdge g v' l' = inr (u', x)).
        { apply GetInEdge_iff. split; [done|]. exists k'. done. }
        destruct (Hal u' v' Hu' Hv') as [H1 _]. apply H1 in Hold'.
        apply HasEdge_attr_iff in Hold' as (Hu'n & _ & row' & b' & c' & Hrow' & Hb' & Hs' & Hx').
        apply HHE. split; [done|]. split; [done|]. exists row', b', c'. repeat split; try done.
        rewrite (read2_write2 _ _ _ _ _ _ _ Hwo).
        destruct (decide (u' = u ∧ c' = c)) as [[-> ->]|]; [|done]. exfalso.
        assert (row' = row) as -> by congruence.
        pose proof (bsearch_hit_key _ _ _ _ Hs') as [_ Hcv'].
        assert (v' = v) as -> by congruence.
        apply read2_inr in Hu'r as (irow1 & Hirow1 & Hu'r).
        assert (irow1 = irow) as -> by congruence.
        apply read_inr in Hu'r as [Hl'0 Hu'r].
        pose proof (ascending_lookup_inj _ _ _ _ Hasc Hu'r Hlu). apply Hcase. split; [done|lia].
    + intros x (Hu'n & Hv'n & row' & b' & c' & Hrow' & Hb' & Hs' & Hx)%HHE.
      rewrite (read2_write2 _ _ _ _ _ _ _ Hwo) in Hx.
      destruct (decide (u' = u ∧ c' = c)) as [[-> ->]|Hcase].
      * injection Hx as <-.
        assert (row' = row) as -> by congruence.
        pose proof (bsearch_hit_key _ _ _ _ Hs') as [_ Hcv'].
        assert (v' = v) as -> by congruence. by exists l.
      * assert (Hold' : HasEdge g u' v' true = inr (true, Some x)).
        { apply HasEdge_attr_iff. split; [done|]. split; [done|]. exists row', b', c'. done. }
        destruct (Hal u' v' Hu' Hv') as [_ H2']. destruct (H2' x Hold') as [l' Hl'].
        exists l'. apply GetInEdge_iff in Hl' as (_ & k' & Hk' & Hl'k & Hx' & Hu'r).
        apply HGI. split; [done|]. exists k'. repeat split; try done.
        rewrite (read2_write2 _ _ _ _ _ _ _ Hwi).
        destruct (decide (v' = v ∧ l' = l)) as [[-> ->]|]; [|done]. exfalso.
        apply read2_inr in Hu'r as (irow1 & Hirow1 & Hu'r).
        assert (irow1 = irow) as -> by congruence.
        apply read_inr in Hu'r as [_ Hu'r]. assert (u' = u) as -> by congruence.
        assert (row' = row) as -> by congruence.
        assert (b' = b) as -> by congruence.
        apply Hcase. split; [done|]. congruence.
  - (* the in-arrays *)
    intros v' Hv'. destruct (Hin v' Hv') as (irow' & iarow' & (Hir' & Hiar' & Hic' & Hilen' & Hib') & Hasc').
    apply write2_inr in Hwi as (iarow0 & Hiarow0 & Hlr & ->).
    assert (iarow0 = iarow) as -> by congruence.
    destruct (decide (v' = v)) as [->|Hne].
    + exists irow', (<[Z.to_nat l := a']> iarow). split; [|done].
      repeat split; try done.
      * simpl. rewrite list_lookup_insert_eq; [done|]. by eapply lookup_lt_Some.
      * rewrite length_insert. congruence.
    + exists irow', iarow'. split; [|done]. repeat split; try done.
      simpl. rewrite list_lookup_insert_ne; [done|]. unfold node in *. lia.
  - exact Hnew_out.
  - by exists l.
Qed.

(** ** Loops *)

(** The rule for [for] loops. Each iteration either keeps the invariant or
    fails, and it fails only when the condition [P] does not hold; with
    [P := True] the rule gives termination without error, with [P := False]
    what holds after a run that ended well. *)
Lemma for_each_rule {St} (P : Prop) (I : Z → St → Prop) (body : Z → St → result St)
    (lo len : Z) (s : St) :
  0 ≤ len → I lo s →
  (∀ i s, lo ≤ i < lo + len → I i s →
     match body i s with inr s' => I (i + 1) s' | inl _ => ¬ P end) →
  match for_each body (seqZ lo len) s with inr s' => I (lo + len) s' | inl _ => ¬ P end.
Proof.
  intros Hlen. rewrite <- (Z2Nat.id len) by done.
  generalize (Z.to_nat len). clear Hlen len. intros m. revert lo s.
  induction m as [|m IH]; intros lo s HI Hbody.
  - rewrite seqZ_nil by lia. simpl. by rewrite Z.add_0_r.
  - rewrite seqZ_cons by lia. simpl.
    pose proof (Hbody lo s ltac:(lia) HI) as Hstep.
    destruct (body lo s) as [e|s']; simpl; [done|].
    replace (Z.pred (Z.of_nat (S m))) with (Z.of_nat m) by lia.
    replace (lo + Z.of_nat (S m)) with (Z.succ lo + Z.of_nat m) by lia.
    apply IH; [by replace (Z.succ lo) with (lo + 1) by lia|].
    intros i s0 Hi. apply Hbody. lia.
Qed.

Lemma for_loop_rule {St} (P : Prop) (I : Z → St → Prop) (body : Z → St → result St)
    (lo hi : Z) (s : St) :
  lo ≤ hi → I lo s →
  (∀ i s, lo ≤ i < hi → I i s →
     match body i s with inr s' => I (i + 1) s' | inl _ => ¬ P end) →
  match for_loop lo hi body s with inr s' => I hi s' | inl _ => ¬ P end.
Proof.
  intros Hle HI Hbody. unfold for_loop.
  pose proof (for_each_rule P I body lo (hi - lo) s ltac:(lia) HI) as H.
  replace (lo + (hi - lo)) with hi in H by lia.
  apply H. intros i s0 Hi. apply Hbody. lia.
Qed.

(** A loop whose state after [i] iterations is known in closed form. *)
Lemma for_loop_closed {St} (st : Z → St) (body : Z → St → result St) (lo hi : Z) :
  lo ≤ hi → (∀ i, lo ≤ i < hi → body i (st i) = inr (st (i + 1))) →
  for_loop lo hi body (st lo) = inr (st hi).
Proof.
  intros Hle Hbody.
  pose proof (for_loop_rule True (fun i s => s = st i) body lo hi (st lo) Hle eq_refl) as H.
  destruct (for_loop lo hi body (st lo)) as [e|s'].
  - exfalso. apply H; [|done]. intros i s Hi ->. by rewrite Hbody.
  - f_equal. apply H. intros i s Hi ->. by rewrite Hbody.
Qed.

(** ** Arrays that are filled from the left *)

Lemma to_node_id_small (i : Z) : 0 ≤ i < 65536 → to_node_id i = i.
Proof. intros. unfold to_node_id. by apply Z.mod_small. Qed.

Lemma to_count_small (k : Z) : -32768 ≤ k ≤ 32767 → to_count k = k.
Proof. intros. unfold to_count. rewrite Z.mod_small; lia. Qed.

Lemma to_count_succ (x : Z) : to_count (to_count x + 1) = to_count (x + 1).
Proof.
  unfold to_count.
  replace ((x + 32768) mod 65536 - 32768 + 1 + 32768) with ((x + 32768) mod 65536 + 1) by lia.
  rewrite Zplus_mod_idemp_l.
  by replace (x + 1 + 32768) with (x + 32768 + 1) by lia.
Qed.

Lemma seqZ_snoc (m : Z) : 0 ≤ m → seqZ 0 (m + 1) = seqZ 0 m ++ [m].
Proof.
  intros Hm. rewrite seqZ_app by lia. f_equal.
Qed.

Lemma fmap_seqZ_snoc {A} (f : Z → A) (m : Z) :
  0 ≤ m → f <$> seqZ 0 (m + 1) = (f <$> seqZ 0 m) ++ [f m].
Proof. intros. rewrite seqZ_snoc by done. by rewrite fmap_app. Qed.

(** [a[i] = x] on an array whose first [i] cells hold [pre]. *)
Lemma insert_after_prefix {A} (pre post : list A) (old x : A) (i : Z) :
  Z.of_nat (length pre) = i → <[Z.to_nat i := x]> (pre ++ old :: post) = pre ++ x :: post.
Proof.
  intros <-. rewrite Nat2Z.id. rewrite insert_app_r_alt by lia.
  by rewrite Nat.sub_diag.
Qed.

Lemma lookup_after_prefix {A} (pre post : list A) (x : A) (i : Z) :
  Z.of_nat (length pre) = i → (pre ++ x :: post) !! Z.to_nat i = Some x.
Proof. intros <-. rewrite Nat2Z.id. by rewrite list_lookup_middle. Qed.

Lemma replicate_Z_cons {A} (k : Z) (d : A) :
  0 < k → replicate (Z.to_nat k) d = d :: replicate (Z.to_nat (k - 1)) d.
Proof. intros. by replace (Z.to_nat k) with (S (Z.to_nat (k - 1))) by lia. Qed.

Lemma length_fmap_seqZ {A} (f : Z → A) (m : Z) :
  0 ≤ m → Z.of_nat (length (f <$> seqZ 0 m)) = m.
Proof. intros. rewrite length_fmap, length_seqZ. lia. Qed.

Lemma lookup_fmap_seqZ {A} (f : Z → A) (m i : Z) :
  0 ≤ i < m → (f <$> seqZ 0 m) !! Z.to_nat i = Some (f i).
Proof.
  intros. rewrite list_lookup_fmap, lookup_seqZ_lt by lia. simpl. f_equal. f_equal. lia.
Qed.

Lemma ascending_snoc (l : list Z) (x : Z) :
  ascending l = true → (∀ y, y ∈ l → y < x) → ascending (l ++ [x]) = true.
Proof.
  induction l as [|z l IH]; intros Hl Hx; [done|].
  apply ascending_cons in Hl as [Hl Hz]. change ((z :: l) ++ [x]) with (z :: (l ++ [x])).
  apply ascending_cons. split.
  - apply IH; [done|]. intros y Hy. apply Hx. by right.
  - intros y [Hy|Hy%list_elem_of_singleton]%elem_of_app; [by apply Hz|].
    subst y. apply Hx. by left.
Qed.

Lemma ascending_filter_seqZ (P : Z → Prop) `{∀ x, Decision (P x)} (m : Z) :
  ascending (filter P (seqZ 0 m)) = true.
Proof.
  destruct (Z.le_gt_cases 0 m) as [Hm|Hm]; [|by rewrite seqZ_nil by lia].
  rewrite <- (Z2Nat.id m) by done. generalize (Z.to_nat m). clear Hm m. intros m.
  induction m as [|m IH]; [done|].
  rewrite Nat2Z.inj_succ, <- Z.add_1_r, seqZ_snoc, filter_app by lia.
  rewrite filter_singleton; [|exact []]. case_decide; [|by rewrite app_nil_r].
  apply ascending_snoc; [done|].
  intros y [_ Hy%elem_of_seqZ]%list_elem_of_filter. lia.
Qed.

(** ** The second phase of the constructor, for any out-adjacency *)

Lemma same_out_refl (g : ARGraph_impl) : same_out g g.
Proof. repeat split. Qed.

Lemma HasEdge_same_out (g g1 : ARGraph_impl) (u v : Z) (p : bool) :
  n g = n g1 → out g = out g1 → out_count g = out_count g1 → out_attr g = out_attr g1 →
  HasEdge g u v p = HasEdge g1 u v p.
Proof. intros Hn Ho Hc Ha. unfold HasEdge. by rewrite Hn, Ho, Hc, Ha. Qed.

Lemma hits_snoc (g : ARGraph_impl) (i j : Z) :
  0 ≤ j → hits g i (j + 1) = hits g i j ++ (if hitb g i j then [j] else []).
Proof.
  intros Hj. unfold hits. rewrite seqZ_snoc, filter_app by done. f_equal.
  rewrite filter_singleton; [|exact []].
  destruct (hitb g i j); case_decide; done.
Qed.

Lemma hits_0 (g : ARGraph_impl) (i : Z) : hits g i 0 = [].
Proof. done. Qed.

Lemma hits_mono (g : ARGraph_impl) (i j m : Z) :
  0 ≤ j ≤ m → (length (hits g i j) ≤ length (hits g i m))%nat.
Proof.
  intros Hj. unfold hits. replace m with (j + (m - j)) by lia.
  rewrite seqZ_app, filter_app, length_app by lia. lia.
Qed.

Lemma hits_elem (g : ARGraph_impl) (i m j : Z) :
  j ∈ hits g i m ↔ hitb g i j = true ∧ 0 ≤ j < m.
Proof. unfold hits. rewrite list_elem_of_filter, elem_of_seqZ. intuition lia. Qed.

Lemma derive_edge_step_upto (g1 gs : ARGraph_impl) (i k j : Z) (s : ARGraph_impl * Z) :
  n g1 ≤ 65536 → 0 ≤ i < n g1 → 0 ≤ j < n g1 →
  (Z.to_nat i < length (in_ gs))%nat → (Z.to_nat i < length (in_attr gs))%nat →
  filling g1 gs i k j s →
  match derive_edge i j s with
  | inr s' => filling g1 gs i k (j + 1) s'
  | inl _ => ¬ derivable_upto g1 i k
  end.
Proof.
  intros HN Hi Hj Hli Hlia Hfill. destruct s as [g l].
  destruct Hfill as (Hso & Hl & Hok & pad & apad & Hin & Hia & Hk & Hlen). simpl in *.
  pose proof Hso as (Hn & Ho & Hoc & Hoa & _).
  unfold derive_edge. simpl. rewrite !to_node_id_small by lia.
  unfold HasEdge2 at 1. rewrite (HasEdge_same_out g g1) by done. fold (HasEdge2 g1 j i).
  pose proof (hits_snoc g1 i j (proj1 Hj)) as Hsnoc.
  destruct (HasEdge2 g1 j i) as [e|[|]] eqn:Hh; simpl.
  - intros (Hd & _). destruct (Hd j) as [b Hb]; [lia|]. congruence.
  - assert (Hhit : hitb g1 i j = true) by (unfold hitb; by rewrite Hh).
    rewrite Hhit in Hsnoc.
    assert (Hrow : read (in_ g) i = inr (hits g1 i j ++ pad)).
    { apply read_ok; [lia|]. rewrite Hin. by apply list_lookup_insert_eq. }
    assert (Harow : read (in_attr g) i = inr ((hit_attr g1 i <$> hits g1 i j) ++ apad)).
    { apply read_ok; [lia|]. rewrite Hia. by apply list_lookup_insert_eq. }
    destruct pad as [|p pad].
    { destruct (write2 (in_ g) i l j) as [e|in'] eqn:Hw; simpl.
      - intros (_ & _ & Hcnt).
        pose proof (hits_mono g1 i (j + 1) (n g1) ltac:(lia)) as Hmono.
        rewrite Hsnoc, length_app in Hmono. simpl in *. lia.
      - exfalso. apply write2_inr in Hw as (row & Hrow' & Hl' & _).
        rewrite Hrow in Hrow'. injection Hrow' as <-.
        rewrite length_app in Hl'. simpl in *. lia. }
    destruct apad as [|q apad]; [discriminate|].
    rewrite (write2_ok _ _ _ _ _ Hrow) by (rewrite length_app; simpl; lia).
    simpl.
    unfold GetEdgeAttr at 1.
    rewrite (HasEdge_same_out (with_in g _) g1) by done. fold (GetEdgeAttr g1 j i).
    destruct (GetEdgeAttr g1 j i) as [e|a] eqn:Ha; simpl.
    { intros (_ & Hd2 & _). destruct (Hd2 j) as [a Ha']; [lia|done|]. congruence. }
    rewrite (write2_ok _ _ _ _ _ Harow) by (rewrite length_app, length_fmap; simpl; lia).
    simpl. split; [|split; [|split]].
    + destruct Hso as (? & ? & ? & ? & ? & ? & ? & ? & ? & ? & Hl1 & Hl2).
      repeat split; simpl; try done; rewrite length_insert; done.
    + simpl. rewrite Hsnoc, length_app. simpl. lia.
    + rewrite Hsnoc. apply Forall_app. split; [done|]. apply Forall_singleton. eauto.
    + exists pad, apad. simpl. rewrite Hsnoc. split; [|split; [|split]].
      * rewrite Hin, list_insert_insert_eq. f_equal.
        rewrite (insert_after_prefix _ _ p j l) by lia. by rewrite <- app_assoc.
      * rewrite Hia, list_insert_insert_eq. f_equal.
        rewrite (insert_after_prefix _ _ q a l) by (rewrite length_fmap; lia).
        rewrite fmap_app, <- app_assoc. simpl. unfold hit_attr at 3. by rewrite Ha.
      * rewrite length_app. simpl in *. lia.
      * simpl in Hlen. lia.
  - assert (Hhit : hitb g1 i j = false) by (unfold hitb; by rewrite Hh).
    rewrite Hhit, app_nil_r in Hsnoc. unfold filling. rewrite Hsnoc.
    split; [done|]. split; [done|]. split; [done|]. by exists pad, apad.
Qed.

Lemma derivable_upto_of (g1 : ARGraph_impl) (i k : Z) :
  in_count g1 !! Z.to_nat i = Some k → derivable g1 i → derivable_upto g1 i k.
Proof.
  intros Hic (Hd1 & Hd2 & Hcnt & _). split; [done|]. split; [done|].
  rewrite Hcnt in Hic. injection Hic as <-. lia.
Qed.

Lemma derive_edge_step (g1 gs : ARGraph_impl) (i k j : Z) (s : ARGraph_impl * Z) :
  n g1 ≤ 65536 → 0 ≤ i < n g1 → 0 ≤ j < n g1 →
  (Z.to_nat i < length (in_ gs))%nat → (Z.to_nat i < length (in_attr gs))%nat →
  in_count g1 !! Z.to_nat i = Some k →
  filling g1 gs i k j s →
  match derive_edge i j s with
  | inr s' => filling g1 gs i k (j + 1) s'
  | inl _ => ¬ derivable g1 i
  end.
Proof.
  intros HN Hi Hj Hli Hlia Hic Hfill.
  pose proof (derive_edge_step_upto g1 gs i k j s HN Hi Hj Hli Hlia Hfill) as Hstep.
  destruct (derive_edge i j s); [|done].
  intros Hd. by apply Hstep, derivable_upto_of.
Qed.

Lemma derive_node_spec (g1 g : ARGraph_impl) (i : Z) :
  n g1 ≤ 65536 → 0 ≤ i < n g1 → same_out g g1 →
  match derive_node i g with
  | inr g' =>
      same_out g' g1 ∧
      in_ g' = <[Z.to_nat i := hits g1 i (n g1)]> (in_ g) ∧
      in_attr g' = <[Z.to_nat i := hit_attr g1 i <$> hits g1 i (n g1)]> (in_attr g) ∧
      in_count g1 !! Z.to_nat i = Some (Z.of_nat (length (hits g1 i (n g1)))) ∧
      (Z.to_nat i < length (in_ g))%nat ∧ (Z.to_nat i < length (in_attr g))%nat ∧
      Forall (fun u => ∃ a, GetEdgeAttr g1 u i = inr a) (hits g1 i (n g1))
  | inl _ => ¬ derivable g1 i
  end.
Proof.
  intros HN Hi Hso.
  pose proof Hso as (Hn & Ho & Hoc & Hoa & Hic & Hat & Hnd & Hed & Hnc & Hec & Hl1 & Hl2).
  unfold derive_node. rewrite Hic, Hn.
  destruct (read (in_count g1) i) as [e|k] eqn:Hk; simpl.
  { intros (_ & _ & Hcnt & _). rewrite (read_ok _ _ _ (proj1 Hi) Hcnt) in Hk. discriminate. }
  apply read_inr in Hk as [_ Hk].
  unfold new_array. destruct (Z.ltb_spec k 0) as [Hneg|Hk0]; simpl.
  { intros (_ & _ & Hcnt & _). rewrite Hcnt in Hk. injection Hk as <-. lia. }
  destruct (write (in_ g) i (replicate (Z.to_nat k) 0)) as [e|in'] eqn:Hw; simpl.
  { intros (_ & _ & _ & Hlen & _). rewrite write_ok in Hw by lia. discriminate. }
  apply write_inr in Hw as [Hli ->].
  destruct (write (in_attr g) i (replicate (Z.to_nat k) NULL)) as [e|ia'] eqn:Hw; simpl.
  { intros (_ & _ & _ & _ & Hlen). rewrite write_ok in Hw by lia. discriminate. }
  apply write_inr in Hw as [Hlia ->].
  set (g2 := with_in_attr (with_in g _) _).
  assert (Hinit : filling g1 g i k 0 (g2, 0)).
  { unfold filling. rewrite hits_0. simpl. split; [|split; [|split]].
    - repeat split; simpl; try done; rewrite length_insert; done.
    - done.
    - constructor.
    - exists (replicate (Z.to_nat k) 0), (replicate (Z.to_nat k) NULL).
      rewrite !length_replicate. repeat split; lia. }
  pose proof (for_loop_rule (derivable g1 i) (filling g1 g i k) (derive_edge i)
                0 (n g1) (g2, 0) ltac:(lia) Hinit) as Hloop.
  assert (Hstep : ∀ j s, 0 ≤ j < n g1 → filling g1 g i k j s →
            match derive_edge i j s with
            | inr s' => filling g1 g i k (j + 1) s'
            | inl _ => ¬ derivable g1 i
            end).
  { intros j s Hj Hfill. apply (derive_edge_step g1 g i k j s); try done; lia. }
  specialize (Hloop Hstep).
  destruct (for_loop 0 (n g1) (derive_edge i) (g2, 0)) as [e|[g3 l]]; simpl; [done|].
  assert (Hfill : filling g1 g i k (n g1) (g3, l)) by done.
    destruct Hfill as (Hso3 & Hl & Hok & pad & apad & Hin & Hia & Hkk & Hlen). simpl in *.
    destruct (Z.eqb_spec l k) as [Hlk|Hlk]; simpl.
    + assert (pad = []) as -> by (apply length_zero_iff_nil; lia).
      assert (apad = []) as -> by (apply length_zero_iff_nil; simpl in *; lia).
      rewrite !app_nil_r in *.
      split; [done|]. split; [done|]. split; [done|].
      split; [rewrite Hk; f_equal; lia|]. split; [lia|]. split; [lia|done].
    + intros (_ & _ & Hcnt & _). rewrite Hcnt in Hk. injection Hk as Hk. lia.
Qed.

Lemma derive_in_spec (g1 : ARGraph_impl) :
  0 ≤ n g1 ≤ 65536 →
  match derive_in g1 with
  | inr g => derived g1 (n g1) g
  | inl _ => ¬ ∀ i, 0 ≤ i < n g1 → derivable g1 i
  end.
Proof.
  intros HN. unfold derive_in.
  apply (for_loop_rule (∀ i, 0 ≤ i < n g1 → derivable g1 i) (derived g1)); [lia|..].
  - split; [apply same_out_refl|]. intros v Hv. lia.
  - intros i g Hi [Hso Hprev].
    pose proof (derive_node_spec g1 g i ltac:(lia) Hi Hso) as Hnode.
    destruct (derive_node i g) as [e|g']; [intros HP; by apply Hnode, HP|].
    destruct Hnode as (Hso' & Hin & Hia & Hcnt & Hli & Hlia & Hok).
    split; [done|]. intros v Hv. destruct (decide (v = i)) as [->|Hne].
    + rewrite Hin, Hia, !list_lookup_insert_eq by done. done.
    + rewrite Hin, Hia, !list_lookup_insert_ne by lia. apply Hprev. lia.
Qed.

Lemma HasEdge_pattr (g : ARGraph_impl) (u v : Z) (f : bool) (st : option handle) :
  HasEdge g u v true = inr (f, st) → HasEdge g u v false = inr (f, None).
Proof.
  unfold HasEdge.
  destruct (assert (u <? n g)) as [|[]]; simpl; [discriminate|].
  destruct (assert (v <? n g)) as [|[]]; simpl; [discriminate|].
  destruct (read (out g) u) as [|row]; simpl; [discriminate|].
  destruct (read (out_count g) u) as [|b]; simpl; [discriminate|].
  destruct (bsearch row v b) as [|[c|]]; simpl; [discriminate| |].
  - destruct (read (out_attr g) u) as [|arow]; simpl; [discriminate|].
    destruct (read arow c); simpl; [discriminate|]. by intros [= <- <-].
  - by intros [= <- <-].
Qed.

Lemma HasEdge2_of_attr (g : ARGraph_impl) (u v : Z) (a : handle) :
  HasEdge g u v true = inr (true, Some a) → HasEdge2 g u v = inr true.
Proof. intros H%HasEdge_pattr. unfold HasEdge2. by rewrite H. Qed.

Lemma GetEdgeAttr_of_attr (g : ARGraph_impl) (u v : Z) (a : handle) :
  HasEdge g u v true = inr (true, Some a) → GetEdgeAttr g u v = inr a.
Proof. intros H. unfold GetEdgeAttr. by rewrite H. Qed.

Lemma GetEdgeAttr_hit_inv (g : ARGraph_impl) (u v : Z) (a : handle) :
  GetEdgeAttr g u v = inr a → HasEdge2 g u v = inr true →
  HasEdge g u v true = inr (true, Some a).
Proof.
  unfold GetEdgeAttr, HasEdge2. intros Ha Hh.
  destruct (HasEdge g u v true) as [e|[f st]] eqn:Ht; simpl in *; [discriminate|].
  apply HasEdge_pattr in Ht. rewrite Ht in Hh. simpl in Hh. injection Hh as ->.
  simpl in Ha. destruct st as [a0|]; [|discriminate]. by injection Ha as ->.
Qed.

Lemma hitb_true (g : ARGraph_impl) (i j : Z) : hitb g i j = true ↔ HasEdge2 g j i = inr true.
Proof.
  unfold hitb. destruct (HasEdge2 g j i) as [e|[|]]; split; (done || discriminate).
Qed.

(** Whatever the first phase has left, a second phase that ends well
    establishes the invariant. *)
Lemma derived_inv (g1 g : ARGraph_impl) :
  n g1 ≤ 65536 → derived g1 (n g1) g → ARG_inv g.
Proof.
  intros HN [Hso Hd].
  pose proof Hso as (Hn & Ho & Hoc & Hoa & Hic & _).
  assert (Hedge : ∀ u v p, HasEdge g u v p = HasEdge g1 u v p).
  { intros. by apply HasEdge_same_out. }
  split.
  - intros u v Hu Hv. unfold node in *. rewrite Hn in Hu, Hv.
    destruct (Hd v Hv) as (Hin & Hia & Hcnt & Hok). split.
    + intros l a (_ & k & Hk & Hlk & (arow & Har & Ha)%read2_inr & (row & Hrow & Hlu)%read2_inr)
        %GetInEdge_iff.
      apply read_inr in Har as [_ Har]. apply read_inr in Hrow as [_ Hrow].
      assert (row = hits g1 v (n g1)) as -> by congruence.
      assert (arow = hit_attr g1 v <$> hits g1 v (n g1)) as -> by congruence.
      apply read_inr in Hlu as [Hl0 Hlu]. apply read_inr in Ha as [_ Ha].
      rewrite list_lookup_fmap, Hlu in Ha. simpl in Ha. injection Ha as <-.
      pose proof (list_elem_of_lookup_2 _ _ _ Hlu) as Hel.
      pose proof Hel as [Hhit%hitb_true _]%hits_elem.
      rewrite Forall_forall in Hok. destruct (Hok u Hel) as [a Ha].
      rewrite Hedge. unfold hit_attr. rewrite Ha. by apply GetEdgeAttr_hit_inv.
    + intros a Ha. rewrite Hedge in Ha.
      assert (Hel : u ∈ hits g1 v (n g1)).
      { apply hits_elem. split; [|done]. apply hitb_true. by eapply HasEdge2_of_attr. }
      apply list_elem_of_lookup in Hel as [l Hl]. exists (Z.of_nat l).
      apply GetInEdge_iff. split; [lia|]. exists (Z.of_nat (length (hits g1 v (n g1)))).
      split; [apply read_ok; [lia|congruence]|].
      split; [apply lookup_lt_Some in Hl; lia|]. split.
      * apply read2_inr. eexists. split; [by apply read_ok; [lia|]|].
        apply read_nat. rewrite list_lookup_fmap, Hl. simpl. f_equal.
        unfold hit_attr. by rewrite (GetEdgeAttr_of_attr _ _ _ _ Ha).
      * apply read2_inr. eexists. split; [by apply read_ok; [lia|]|]. by apply read_nat.
  - intros v Hv. unfold node in *. rewrite Hn in Hv.
    destruct (Hd v Hv) as (Hin & Hia & Hcnt & Hok).
    exists (hits g1 v (n g1)), (hit_attr g1 v <$> hits g1 v (n g1)).
    split; [|apply ascending_filter_seqZ].
    split; [done|]. split; [done|]. split; [congruence|]. split; [by rewrite length_fmap|].
    unfold hits. pose proof (length_filter (fun j => hitb g1 v j = true) (seqZ 0 (n g1))) as Hle.
    rewrite length_seqZ in Hle. lia.
Qed.

(** The first phase leaves the node count alone. *)
Lemma ingest_edge_n (loader : ARGLoader) (i j : Z) (g g' : ARGraph_impl) :
  ingest_edge loader i j g = inr g' → n g' = n g.
Proof. unfold ingest_edge. intros H. inv_result. done. Qed.

Lemma ingest_node_n (loader : ARGLoader) (i : Z) (g g' : ARGraph_impl) :
  ingest_node loader i g = inr g' → n g' = n g.
Proof.
  unfold ingest_node. intros H.
  apply bind_inr in H as (oc & _ & H). apply bind_inr in H as (row & Hrow & H).
  apply bind_inr in H as (o & _ & H). apply bind_inr in H as (arow & _ & H).
  apply bind_inr in H as (oa & _ & H).
  apply new_array_inr in Hrow as [Hk _].
  set (g0 := with_out_attr _ _) in H. change (n g) with (n g0).
  pose proof (for_loop_rule False (fun _ g1 => n g1 = n g0) (ingest_edge loader i)
                0 _ g0 Hk eq_refl) as Hloop.
  rewrite H in Hloop. apply Hloop. intros j g1 _ Hg1.
  destruct (ingest_edge loader i j g1) as [e|g2] eqn:He; [tauto|].
  apply ingest_edge_n in He. congruence.
Qed.

Lemma ingest_out_n (loader : ARGLoader) (g g' : ARGraph_impl) :
  0 ≤ n g → ingest_out loader g = inr g' → n g' = n g.
Proof.
  unfold ingest_out. intros Hn H.
  pose proof (for_loop_rule False (fun _ g1 => n g1 = n g) (ingest_node loader)
                0 _ g Hn eq_refl) as Hloop.
  rewrite H in Hloop. apply Hloop. intros j g1 _ Hg1.
  destruct (ingest_node loader j g1) as [e|g2] eqn:He; [tauto|].
  apply ingest_node_n in He. congruence.
Qed.

Lemma alloc_graph_n (loader : ARGLoader) (g : ARGraph_impl) :
  alloc_graph loader = inr g → n g = L_NodeCount loader ∧ 0 ≤ L_NodeCount loader.
Proof.
  unfold alloc_graph. intros H.
  apply bind_inr in H as (a0 & [Hn _]%new_array_inr & H). inv_result. done.
Qed.

(** Every object that the constructor returns satisfies the invariant. *)
Lemma ARGraph_impl_new_inv (loader : ARGLoader) (g : ARGraph_impl) :
  L_NodeCount loader ≤ 65536 → ARGraph_impl_new loader = inr g → ARG_inv g.
Proof.
  intros HN H. unfold ARGraph_impl_new in H.
  apply bind_inr in H as (g0 & [Hn0 Hpos]%alloc_graph_n & H).
  apply bind_inr in H as (g1 & Hn1 & H).
  apply ingest_out_n in Hn1; [|lia].
  pose proof (derive_in_spec g1 ltac:(lia)) as Hd. rewrite H in Hd.
  apply (derived_inv g1); [lia|done].
Qed.

(** ** The first phase of the constructor *)

Lemma occ_app (v : Z) (l l' : list Z) : occ v (l ++ l') = occ v l + occ v l'.
Proof. unfold occ. induction l as [|x l IH]; simpl; [done|]. rewrite IH. lia. Qed.

Lemma occ_single (v x : Z) : occ v [x] = if v =? x then 1 else 0.
Proof. unfold occ. simpl. destruct (v =? x); lia. Qed.

Lemma insert_fmap_seqZ {A} (f f' : Z → A) (m v : Z) :
  0 ≤ v < m → (∀ w, 0 ≤ w < m → w ≠ v → f' w = f w) →
  <[Z.to_nat v := f' v]> (f <$> seqZ 0 m) = f' <$> seqZ 0 m.
Proof.
  intros Hv Hf. apply list_eq. intros k.
  destruct (decide (k = Z.to_nat v)) as [->|Hne].
  - rewrite list_lookup_insert_eq by (rewrite length_fmap, length_seqZ; lia).
    by rewrite lookup_fmap_seqZ.
  - rewrite list_lookup_insert_ne by done. rewrite !list_lookup_fmap.
    destruct (seqZ 0 m !! k) as [w|] eqn:Hw; [|done]. simpl. f_equal.
    apply lookup_seqZ in Hw as [-> Hk]. symmetry. apply Hf; lia.
Qed.

Lemma write2_middle {A} (pre post : list (list A)) (rpre rpost : list A) (old x : A) (i j : Z) :
  Z.of_nat (length pre) = i → Z.of_nat (length rpre) = j →
  write2 (pre ++ (rpre ++ old :: rpost) :: post) i j x =
    inr (pre ++ (rpre ++ x :: rpost) :: post).
Proof.
  intros Hi Hj.
  rewrite (write2_ok _ (rpre ++ old :: rpost)).
  - by rewrite (insert_after_prefix rpre), (insert_after_prefix pre).
  - apply read_ok; [lia|]. by apply lookup_after_prefix.
  - rewrite length_app. simpl. lia.
Qed.

(** The body of the inner loop, for out-edges in any order. *)
Lemma ingest_edge_step (loader : ARGLoader) (i j : Z) :
  0 ≤ L_NodeCount loader ≤ 65536 → 0 ≤ i < L_NodeCount loader → node_ok loader i →
  0 ≤ j < L_OutEdgeCount loader i →
  ingest_edge loader i j (ingesting loader i j) = inr (ingesting loader i (j + 1)).
Proof.
  intros HN Hi (Hdeg & Hrange) Hj.
  assert (Htgt : 0 ≤ fst (L_GetOutEdge loader i j) < L_NodeCount loader).
  { apply Hrange. unfold loader_row. apply list_elem_of_fmap. exists j. split; [done|].
    apply elem_of_seqZ. lia. }
  unfold ingest_edge. rewrite !to_node_id_small by lia.
  unfold ingesting, ingest_state.
  cbn [n attr in_count in_ in_attr out_count out out_attr with_in_count with_out with_out_attr].
  rewrite (replicate_Z_cons (L_OutEdgeCount loader i - j) 0) by lia.
  rewrite (replicate_Z_cons (L_OutEdgeCount loader i - j) NULL) by lia.
  rewrite !write2_middle by (rewrite length_fmap, length_seqZ; lia).
  cbn [bind].
  set (es := edges_upto loader i ++ ((fun j => fst (L_GetOutEdge loader i j)) <$> seqZ 0 j)).
  set (F := fun v => to_count (occ v es)).
  set (t := fst (L_GetOutEdge loader i j)) in *.
  rewrite (read_ok _ _ (F t)); [|lia|by apply (lookup_fmap_seqZ F)].
  cbn [bind].
  rewrite write_ok by (rewrite length_fmap, length_seqZ; lia).
  unfold with_in_count, with_out, with_out_attr.
  cbn [bind n attr in_count in_ in_attr out_count out out_attr
       node_destroyer edge_destroyer node_comparator edge_comparator].
  unfold ret. f_equal.
  rewrite !fmap_seqZ_snoc by lia. fold t.
  replace (L_OutEdgeCount loader i - (j + 1)) with (L_OutEdgeCount loader i - j - 1) by lia.
  rewrite <- !(app_assoc _ [_]). cbn [app]. f_equal.
  unfold F at 1. rewrite to_count_succ.
  rewrite app_assoc. fold es.
  rewrite <- (insert_fmap_seqZ F (fun v => to_count (occ v (es ++ [t]))) _ t); [|done|].
  - f_equal. by rewrite occ_app, occ_single, Z.eqb_refl.
  - intros w Hw Hne. unfold F. rewrite occ_app, occ_single.
    destruct (Z.eqb_spec w t); [done|]. by rewrite Z.add_0_r.
Qed.

Lemma loader_ok_node_ok (loader : ARGLoader) (u : Z) :
  loader_ok loader → 0 ≤ u < L_NodeCount loader → node_ok loader u.
Proof.
  intros (_ & Hnodes & _) Hu. destruct (Hnodes u Hu) as (Hdeg & _ & Hrange). by split.
Qed.

Lemma write_middle {A} (pre post : list A) (old x : A) (i : Z) :
  Z.of_nat (length pre) = i → write (pre ++ old :: post) i x = inr (pre ++ x :: post).
Proof.
  intros Hi. rewrite write_ok by (rewrite length_app; simpl; lia).
  by rewrite insert_after_prefix.
Qed.

Lemma edges_upto_succ (loader : ARGLoader) (i : Z) :
  0 ≤ i → edges_upto loader (i + 1) = edges_upto loader i ++ loader_row loader i.
Proof.
  intros Hi. unfold edges_upto. rewrite fmap_seqZ_snoc, concat_app by done.
  simpl. by rewrite app_nil_r.
Qed.

(** The three array cells of node [i] are set up: the part of [ingest_node]
    before the loop over the out-edges. *)
Lemma ingest_node_unfold (loader : ARGLoader) (i : Z) :
  0 ≤ L_NodeCount loader ≤ 65536 → 0 ≤ i < L_NodeCount loader →
  ingest_node loader i (ingested loader i) =
    let k := to_count (L_OutEdgeCount loader i) in
    if k <? 0 then inl OutOfMemory
    else for_loop 0 k (ingest_edge loader i)
           (ingest_state loader
              ((L_OutEdgeCount loader <$> seqZ 0 i) ++
                 k :: replicate (Z.to_nat (L_NodeCount loader - i - 1)) 0)
              ((loader_row loader <$> seqZ 0 i) ++
                 replicate (Z.to_nat k) 0 :: replicate (Z.to_nat (L_NodeCount loader - i - 1)) [])
              ((loader_arow loader <$> seqZ 0 i) ++
                 replicate (Z.to_nat k) NULL ::
                 replicate (Z.to_nat (L_NodeCount loader - i - 1)) [])
              (edges_upto loader i)).
Proof.
  intros HN Hi.
  unfold ingest_node. rewrite !to_node_id_small by lia.
  unfold ingested, ingest_state, with_out_attr, with_out, with_out_count.
  cbn [n attr in_count in_ in_attr out_count out out_attr
       node_destroyer edge_destroyer node_comparator edge_comparator].
  rewrite (replicate_Z_cons (L_NodeCount loader - i) 0) by lia.
  rewrite (replicate_Z_cons (L_NodeCount loader - i) (@nil Z)) by lia.
  rewrite (replicate_Z_cons (L_NodeCount loader - i) (@nil handle)) by lia.
  rewrite write_middle by (rewrite length_fmap, length_seqZ; lia). cbn [bind].
  unfold new_array. cbn zeta.
  destruct (Z.ltb_spec (to_count (L_OutEdgeCount loader i)) 0); [done|].
  cbn [bind ret].
  rewrite write_middle by (rewrite length_fmap, length_seqZ; lia). cbn [bind].
  rewrite write_middle by (rewrite length_fmap, length_seqZ; lia). cbn [bind].
  done.
Qed.

Lemma ingest_node_step (loader : ARGLoader) (i : Z) :
  0 ≤ L_NodeCount loader ≤ 65536 → 0 ≤ i < L_NodeCount loader → node_ok loader i →
  ingest_node loader i (ingested loader i) = inr (ingested loader (i + 1)).
Proof.
  intros HN Hi Hnode. pose proof Hnode as (Hdeg & _).
  rewrite ingest_node_unfold by done. cbn zeta. rewrite to_count_small by lia.
  destruct (Z.ltb_spec (L_OutEdgeCount loader i) 0); [exfalso; lia|].
  match goal with
  | |- for_loop _ _ _ ?s = _ => replace s with (ingesting loader i 0)
  end.
  - rewrite (for_loop_closed (ingesting loader i)); [|lia|].
    + f_equal. unfold ingesting. rewrite Z.sub_diag. cbn [Z.to_nat replicate].
      rewrite !app_nil_r. fold (loader_row loader i). fold (loader_arow loader i).
      unfold ingested. rewrite !fmap_seqZ_snoc, edges_upto_succ by lia.
      rewrite <- !(app_assoc _ [_]). cbn [app].
      by replace (L_NodeCount loader - (i + 1)) with (L_NodeCount loader - i - 1) by lia.
    + intros j Hj. by apply ingest_edge_step.
  - unfold ingesting, ingest_state. rewrite (seqZ_nil 0 0) by lia. cbn [fmap list_fmap app].
    by rewrite Z.sub_0_r, app_nil_r.
Qed.

Lemma ingest_node_closed (loader : ARGLoader) (i : Z) :
  loader_ok loader → 0 ≤ i < L_NodeCount loader →
  ingest_node loader i (ingested loader i) = inr (ingested loader (i + 1)).
Proof.
  intros Hok Hi. pose proof Hok as (HN & _).
  apply ingest_node_step; [lia | done | by apply loader_ok_node_ok].
Qed.

Lemma ingest_out_closed (loader : ARGLoader) :
  loader_ok loader → ingest_out loader (ingested loader 0) = inr (ingested loader (L_NodeCount loader)).
Proof.
  intros Hok. pose proof Hok as (HN & _). unfold ingest_out.
  change (n (ingested loader 0)) with (L_NodeCount loader).
  apply (for_loop_closed (ingested loader)); [lia|].
  intros i Hi. by apply ingest_node_closed.
Qed.

Lemma for_each_app {St} (body : Z → St → result St) (l1 l2 : list Z) (s : St) :
  for_each body (l1 ++ l2) s = (s' <- for_each body l1 s ;; for_each body l2 s').
Proof.
  revert s. induction l1 as [|i l1 IH]; intros s; [done|].
  cbn [app for_each]. destruct (body i s) as [e|s']; [done|]. apply IH.
Qed.

(** The first phase up to node [m]. *)
Lemma ingest_upto (loader : ARGLoader) (m : Z) :
  0 ≤ L_NodeCount loader ≤ 65536 → 0 ≤ m ≤ L_NodeCount loader →
  (∀ u, 0 ≤ u < m → node_ok loader u) →
  for_loop 0 m (ingest_node loader) (ingested loader 0) = inr (ingested loader m).
Proof.
  intros HN Hm Hnodes. apply (for_loop_closed (ingested loader)); [lia|].
  intros i Hi. apply ingest_node_step; [done|lia|]. apply Hnodes. lia.
Qed.

Lemma replicate_fmap_seqZ {A} (m : Z) (d : A) :
  replicate (Z.to_nat m) d = (fun _ => d) <$> seqZ 0 m.
Proof.
  apply list_eq. intros k. rewrite list_lookup_fmap.
  destruct (decide (Z.of_nat k < m)) as [Hk|Hk].
  - rewrite lookup_seqZ_lt by done. simpl. apply lookup_replicate_2. lia.
  - rewrite lookup_seqZ_ge by lia. simpl. apply lookup_replicate_None. lia.
Qed.

Lemma fill_attr_closed (loader : ARGLoader) :
  0 ≤ L_NodeCount loader ≤ 65536 →
  for_loop 0 (L_NodeCount loader)
    (fun i a => write a i (L_GetNodeAttr loader (to_node_id i)))
    (replicate (Z.to_nat (L_NodeCount loader)) NULL)
  = inr (L_GetNodeAttr loader <$> seqZ 0 (L_NodeCount loader)).
Proof.
  intros HN.
  pose proof (for_loop_closed
    (fun i => (L_GetNodeAttr loader <$> seqZ 0 i) ++
              replicate (Z.to_nat (L_NodeCount loader - i)) NULL)
    (fun i a => write a i (L_GetNodeAttr loader (to_node_id i)))
    0 (L_NodeCount loader) ltac:(lia)) as Hloop.
  cbn beta in Hloop.
  rewrite (seqZ_nil 0 0), Z.sub_0_r, Z.sub_diag in Hloop by lia.
  cbn [fmap list_fmap app Z.to_nat replicate] in Hloop. rewrite app_nil_r in Hloop.
  apply Hloop. intros i Hi. rewrite to_node_id_small by lia.
  rewrite (replicate_Z_cons (L_NodeCount loader - i)) by lia.
  rewrite write_middle by (rewrite length_fmap, length_seqZ; lia).
  f_equal. rewrite fmap_seqZ_snoc by lia. rewrite <- app_assoc. cbn [app].
  by replace (L_NodeCount loader - (i + 1)) with (L_NodeCount loader - i - 1) by lia.
Qed.

Lemma alloc_graph_closed (loader : ARGLoader) :
  0 ≤ L_NodeCount loader ≤ 65536 → alloc_graph loader = inr (ingested loader 0).
Proof.
  intros HN. unfold alloc_graph, new_array.
  destruct (Z.ltb_spec (L_NodeCount loader) 0); [exfalso; lia|]. cbn [bind ret].
  rewrite fill_attr_closed by done.
  cbn [bind]. unfold ret. f_equal. unfold ingested, ingest_state.
  rewrite Z.sub_0_r.
  unfold edges_upto. rewrite (seqZ_nil 0 0) by lia. cbn [fmap list_fmap app concat].
  f_equal. unfold occ. simpl. rewrite (to_count_small 0) by lia.
  apply replicate_fmap_seqZ.
Qed.

(** ** The constructor on a loader with ascending out-edges *)

Lemma ingested_all (loader : ARGLoader) :
  ingested loader (L_NodeCount loader) =
    ingest_state loader
      (L_OutEdgeCount loader <$> seqZ 0 (L_NodeCount loader))
      (loader_row loader <$> seqZ 0 (L_NodeCount loader))
      (loader_arow loader <$> seqZ 0 (L_NodeCount loader))
      (edges_upto loader (L_NodeCount loader)).
Proof.
  unfold ingested. rewrite Z.sub_diag. cbn [Z.to_nat replicate]. by rewrite !app_nil_r.
Qed.

Lemma n_ingested (loader : ARGLoader) (i : Z) : n (ingested loader i) = L_NodeCount loader.
Proof. done. Qed.

Lemma length_loader_row (loader : ARGLoader) (u : Z) :
  0 ≤ L_OutEdgeCount loader u →
  Z.of_nat (length (loader_row loader u)) = L_OutEdgeCount loader u.
Proof. intros. unfold loader_row. by apply length_fmap_seqZ. Qed.

Lemma out_row_ingested_ranges (loader : ARGLoader) (u : Z) :
  0 ≤ u < L_NodeCount loader → node_ok loader u →
  out_row (ingested loader (L_NodeCount loader)) u (loader_row loader u) (loader_arow loader u).
Proof.
  intros Hu (Hdeg & _).
  rewrite ingested_all. unfold out_row, ingest_state. cbn [out out_attr out_count].
  rewrite !lookup_fmap_seqZ by done. rewrite length_loader_row by lia.
  repeat split; try done.
  - unfold loader_arow, loader_row. by rewrite !length_fmap.
  - lia.
Qed.

Lemma out_row_ingested (loader : ARGLoader) (u : Z) :
  loader_ok loader → 0 ≤ u < L_NodeCount loader →
  out_row (ingested loader (L_NodeCount loader)) u (loader_row loader u) (loader_arow loader u).
Proof.
  intros Hok Hu. apply out_row_ingested_ranges; [done|]. by apply loader_ok_node_ok.
Qed.

Lemma HasEdge2_ingested (loader : ARGLoader) (u v : Z) :
  loader_ok loader → 0 ≤ u < L_NodeCount loader → 0 ≤ v < L_NodeCount loader →
  HasEdge2 (ingested loader (L_NodeCount loader)) u v =
    inr (bool_decide (v ∈ loader_row loader u)).
Proof.
  intros Hok Hu Hv. pose proof (out_row_ingested loader u Hok Hu) as Hrow.
  pose proof Hok as (_ & Hnodes & _). destruct (Hnodes u Hu) as (_ & Hasc & _).
  unfold HasEdge2. case_bool_decide as Hin.
  - apply list_elem_of_lookup in Hin as [c Hc].
    destruct (lookup_lt_is_Some_2 (loader_arow loader u) c) as [a Ha].
    { destruct Hrow as (_ & _ & _ & -> & _). by eapply lookup_lt_Some. }
    by rewrite (HasEdge_hit _ u v false (loader_row loader u) (loader_arow loader u) c a)
      by (done || (rewrite n_ingested; lia)).
  - by rewrite (HasEdge_miss _ u v false (loader_row loader u) (loader_arow loader u))
      by (done || (rewrite n_ingested; lia)).
Qed.

Lemma GetEdgeAttr_ingested (loader : ARGLoader) (u v : Z) :
  loader_ok loader → 0 ≤ u < L_NodeCount loader → 0 ≤ v < L_NodeCount loader →
  v ∈ loader_row loader u →
  GetEdgeAttr (ingested loader (L_NodeCount loader)) u v =
    inr (loader_edge_attr loader v u).
Proof.
  intros Hok Hu Hv Hin. pose proof (out_row_ingested loader u Hok Hu) as Hrow.
  pose proof Hok as (_ & Hnodes & _). destruct (Hnodes u Hu) as (_ & Hasc & _).
  unfold loader_edge_attr.
  destruct (list_find_elem_of (fun x => x = v) _ v Hin eq_refl) as [[c x] Hfind].
  rewrite Hfind. apply list_find_Some in Hfind as (Hc & -> & _).
  destruct (lookup_lt_is_Some_2 (loader_arow loader u) c) as [a Ha].
  { destruct Hrow as (_ & _ & _ & -> & _). by eapply lookup_lt_Some. }
  rewrite Ha. simpl.
  apply (GetEdgeAttr_hit _ u v (loader_row loader u) (loader_arow loader u) c a);
    done || (rewrite n_ingested; lia).
Qed.

Lemma filter_ext_elem {A} (P Q : A → Prop) `{∀ x, Decision (P x)} `{∀ x, Decision (Q x)}
    (l : list A) :
  (∀ x, x ∈ l → (P x ↔ Q x)) → filter P l = filter Q l.
Proof.
  induction l as [|x l IH]; intros Hl; [done|].
  rewrite !filter_cons. rewrite IH by (intros y Hy; apply Hl; by right).
  destruct (decide (P x)) as [HP|HP], (decide (Q x)) as [HQ|HQ]; try done.
  - exfalso. apply HQ, Hl; [by left|done].
  - exfalso. apply HP, Hl; [by left|done].
Qed.

Lemma hits_ingested (loader : ARGLoader) (v : Z) :
  loader_ok loader → 0 ≤ v < L_NodeCount loader →
  hits (ingested loader (L_NodeCount loader)) v (L_NodeCount loader) = loader_preds loader v.
Proof.
  intros Hok Hv. unfold hits, loader_preds.
  apply filter_ext_elem. intros u Hu%elem_of_seqZ.
  rewrite hitb_true, HasEdge2_ingested by (done || lia).
  split.
  - intros [= Hb]. by apply bool_decide_eq_true in Hb.
  - intros Hin. f_equal. by apply bool_decide_eq_true.
Qed.

Lemma occ_NoDup (v : Z) (l : list Z) :
  NoDup l → occ v l = if decide (v ∈ l) then 1 else 0.
Proof.
  unfold occ. induction 1 as [|x l Hx Hl IH]; simpl.
  - destruct (decide (v ∈ [])) as [Hin|]; [by apply not_elem_of_nil in Hin|done].
  - rewrite IH.
    destruct (Z.eqb_spec v x) as [->|Hne], (decide (_ ∈ l)) as [Hin|Hin],
      (decide (_ ∈ x :: l)) as [Hin'|Hin']; try done; exfalso;
      first [ by apply Hx
            | by apply Hin'; left
            | by apply Hin'; right
            | by apply elem_of_cons in Hin' as [?|?] ].
Qed.

Lemma occ_concat (row : Z → list Z) (v : Z) (us : list Z) :
  (∀ u, u ∈ us → NoDup (row u)) →
  occ v (concat (row <$> us)) = Z.of_nat (length (filter (fun u => v ∈ row u) us)).
Proof.
  induction us as [|u us IH]; intros Hnd; [done|].
  cbn [fmap list_fmap concat]. rewrite occ_app, IH by (intros; apply Hnd; by right).
  rewrite occ_NoDup by (apply Hnd; by left). rewrite filter_cons.
  destruct (decide (v ∈ row u)); simpl; lia.
Qed.

Lemma in_count_ingested (loader : ARGLoader) (v : Z) :
  loader_ok loader → 0 ≤ v < L_NodeCount loader →
  to_count (occ v (edges_upto loader (L_NodeCount loader))) =
    Z.of_nat (length (loader_preds loader v)).
Proof.
  intros (HN & Hnodes & Hin) Hv. unfold edges_upto.
  rewrite occ_concat.
  - apply to_count_small. fold (loader_preds loader v). specialize (Hin v Hv). lia.
  - intros u Hu%elem_of_seqZ. apply ascending_NoDup. apply Hnodes. lia.
Qed.

Lemma derivable_ingested (loader : ARGLoader) (i : Z) :
  loader_ok loader → 0 ≤ i < L_NodeCount loader →
  derivable (ingested loader (L_NodeCount loader)) i.
Proof.
  intros Hok Hi. pose proof Hok as (HN & _).
  split; [|split; [|split; [|split]]].
  - intros j Hj. rewrite HasEdge2_ingested by done. eauto.
  - intros j Hj Hhit. apply hitb_true in Hhit.
    rewrite HasEdge2_ingested in Hhit by done. injection Hhit as Hhit.
    apply bool_decide_eq_true in Hhit. rewrite GetEdgeAttr_ingested by done. eauto.
  - change (n (ingested loader (L_NodeCount loader))) with (L_NodeCount loader).
    rewrite hits_ingested by done. rewrite ingested_all. unfold ingest_state. cbn [in_count].
    rewrite (lookup_fmap_seqZ (fun v => to_count (occ v _))) by done.
    by rewrite in_count_ingested.
  - rewrite ingested_all. unfold ingest_state. cbn [in_]. rewrite length_replicate. lia.
  - rewrite ingested_all. unfold ingest_state. cbn [in_attr]. rewrite length_replicate. lia.
Qed.

(** The constructor on such a loader, in closed form. *)
Lemma ARGraph_impl_new_closed (loader : ARGLoader) :
  loader_ok loader → ARGraph_impl_new loader = inr (graph_of loader).
Proof.
  intros Hok. pose proof Hok as (HN & Hnodes & Hindeg).
  unfold ARGraph_impl_new.
  rewrite alloc_graph_closed by lia. cbn [bind].
  rewrite ingest_out_closed by done. cbn [bind].
  set (g1 := ingested loader (L_NodeCount loader)).
  pose proof (derive_in_spec g1 ltac:(simpl; lia)) as Hd.
  destruct (derive_in g1) as [e|g].
  { exfalso. apply Hd. intros i Hi. by apply derivable_ingested. }
  f_equal. destruct Hd as [Hso Hd].
  destruct Hso as (Hn & Ho & Hoc & Hoa & Hic & Hat & Hnd & Hed & Hnc & Hec & Hl1 & Hl2).
  change (n g1) with (L_NodeCount loader) in *.
  unfold g1 in Ho, Hoc, Hoa, Hic, Hat, Hnd, Hed, Hnc, Hec, Hl1, Hl2.
  rewrite ingested_all in Ho, Hoc, Hoa, Hic, Hat, Hnd, Hed, Hnc, Hec, Hl1, Hl2.
  unfold ingest_state in *.
  cbn [n attr in_count in_ in_attr out_count out out_attr
       node_destroyer edge_destroyer node_comparator edge_comparator] in *.
  rewrite length_replicate in Hl1, Hl2.
  assert (Hin : in_ g = loader_preds loader <$> seqZ 0 (L_NodeCount loader)).
  { apply list_eq. intros k. destruct (decide (Z.of_nat k < L_NodeCount loader)) as [Hk|Hk].
    - destruct (Hd (Z.of_nat k) ltac:(lia)) as (Hk1 & _). rewrite Nat2Z.id in Hk1.
      rewrite Hk1, list_lookup_fmap, lookup_seqZ_lt by done. simpl.
      unfold g1. by rewrite hits_ingested by (done || lia).
    - rewrite list_lookup_fmap, lookup_seqZ_ge by lia. apply lookup_ge_None. lia. }
  assert (Hia : in_attr g = (fun v => loader_edge_attr loader v <$> loader_preds loader v)
                           <$> seqZ 0 (L_NodeCount loader)).
  { apply list_eq. intros k. destruct (decide (Z.of_nat k < L_NodeCount loader)) as [Hk|Hk].
    - destruct (Hd (Z.of_nat k) ltac:(lia)) as (_ & Hk2 & _). rewrite Nat2Z.id in Hk2.
      rewrite Hk2, list_lookup_fmap, lookup_seqZ_lt by done. simpl. f_equal.
      unfold g1. rewrite hits_ingested by (done || lia).
      apply list_fmap_ext. intros c u Hu.
      apply list_elem_of_lookup_2, list_elem_of_filter in Hu as [Hin' Hu%elem_of_seqZ].
      unfold hit_attr. by rewrite GetEdgeAttr_ingested by (done || lia).
    - rewrite list_lookup_fmap, lookup_seqZ_ge by lia. apply lookup_ge_None. lia. }
  assert (Hic' : in_count g = (fun v => Z.of_nat (length (loader_preds loader v)))
                              <$> seqZ 0 (L_NodeCount loader)).
  { rewrite Hic. apply list_fmap_ext. intros c v Hv%list_elem_of_lookup_2%elem_of_seqZ.
    apply in_count_ingested; [done|lia]. }
  clear Hic Hd Hl1 Hl2. destruct g. unfold graph_of. simpl in *. by subst.
Qed.

(** ** The constructor and the loader *)

Lemma loader_okb_ok (loader : ARGLoader) : loader_okb loader = true → loader_ok loader.
Proof.
  unfold loader_okb. rewrite !andb_true_iff, !forallb_forall.
  intros [[[H0 HN] Hnodes] Hin]. apply Z.leb_le in H0, HN.
  split; [lia|]. split.
  - intros u Hu. specialize (Hnodes u).
    rewrite !andb_true_iff, forallb_forall in Hnodes.
    destruct Hnodes as [[[Hd0 Hd] Hasc] Hrange].
    { apply list_elem_of_In, elem_of_seqZ. lia. }
    apply Z.leb_le in Hd0, Hd. split; [lia|]. split; [done|].
    intros v Hv%list_elem_of_In. specialize (Hrange v Hv).
    apply andb_true_iff in Hrange as [?%Z.leb_le ?%Z.ltb_lt]. lia.
  - intros v Hv. apply Z.leb_le, Hin, list_elem_of_In, elem_of_seqZ. lia.
Qed.

Lemma filter_none {A} (P : A → Prop) `{∀ x, Decision (P x)} (l : list A) :
  (∀ x, ¬ P x) → filter P l = [].
Proof.
  intros HP. induction l as [|x l IH]; [done|]. by rewrite filter_cons_False.
Qed.

(** Loaders of isolated nodes. *)
Lemma loader_ok_isolated (loader : ARGLoader) :
  0 ≤ L_NodeCount loader ≤ 65535 → (∀ u, L_OutEdgeCount loader u = 0) → loader_ok loader.
Proof.
  intros HN Hdeg.
  assert (Hrow : ∀ u, loader_row loader u = []).
  { intros u. unfold loader_row. by rewrite Hdeg. }
  split; [done|]. split.
  - intros u Hu. rewrite Hdeg, Hrow. split; [lia|]. split; [done|].
    intros v Hv. by apply not_elem_of_nil in Hv.
  - intros v Hv. unfold loader_preds. rewrite filter_none; [simpl; lia|].
    intros u. rewrite Hrow. apply not_elem_of_nil.
Qed.

Lemma out_row_graph_of (loader : ARGLoader) (u : Z) :
  loader_ok loader → 0 ≤ u < L_NodeCount loader →
  out_row (graph_of loader) u (loader_row loader u) (loader_arow loader u).
Proof.
  intros Hok Hu. pose proof (out_row_ingested loader u Hok Hu) as Hrow.
  by rewrite ingested_all in Hrow.
Qed.

Lemma elem_of_loader_row (loader : ARGLoader) (u v : Z) :
  v ∈ loader_row loader u ↔
  ∃ j, 0 ≤ j < L_OutEdgeCount loader u ∧ fst (L_GetOutEdge loader u j) = v.
Proof.
  unfold loader_row. rewrite list_elem_of_fmap. split.
  - intros (j & -> & Hj%elem_of_seqZ). exists j. split; [lia|done].
  - intros (j & Hj & <-). exists j. split; [done|]. apply elem_of_seqZ. lia.
Qed.

(** C1, as it holds. From a loader that reports the out-edges of every
    node in strictly ascending order of the neighbour (at most 65535 nodes,
    neighbours that are nodes, degrees within [count_type]) the constructor
    returns an object in which the out-array and the in-array of every node
    are strictly ascending. The out-arrays are the loader's sequences as they
    were reported: the constructor does not sort. *)
Theorem constructor_keeps_ascending (loader : ARGLoader) :
  loader_ok loader →
  ∃ g, ARGraph_impl_new loader = inr g ∧
       (∀ u, node g u →
          ∃ row arow, out_row g u row arow ∧ ascending row = true ∧
                      row = loader_row loader u) ∧
       (∀ v, node g v → ∃ row arow, in_row g v row arow ∧ ascending row = true).
Proof.
  intros Hok. pose proof Hok as (HN & Hnodes & _).
  exists (graph_of loader). split; [by apply ARGraph_impl_new_closed|]. split.
  - intros u Hu. exists (loader_row loader u), (loader_arow loader u).
    split; [by apply out_row_graph_of|]. split; [|done]. by apply Hnodes.
  - apply (ARGraph_impl_new_inv loader); [lia|]. by apply ARGraph_impl_new_closed.
Qed.

Lemma constructor_keeps_ascending_witness :
  ∃ g, ARGraph_impl_new fan_sorted = inr g ∧
       (∀ u, node g u →
          ∃ row arow, out_row g u row arow ∧ ascending row = true ∧
                      row = loader_row fan_sorted u) ∧
       (∀ v, node g v → ∃ row arow, in_row g v row arow ∧ ascending row = true).
Proof.
  apply (constructor_keeps_ascending fan_sorted).
  apply loader_okb_ok. vm_compute. reflexivity.
Defined.

(** C1, as it is stated, fails: for a loader that reports the out-edges of
    node 0 as 2, 1 the first phase leaves the out-array [2; 1], and the
    consistency assertion of the second phase ends the construction. *)
Lemma constructor_does_not_sort :
  (g0 <- alloc_graph fan_unsorted ;; g1 <- ingest_out fan_unsorted g0 ;; ret (out g1))
    = inr [[2; 1]; [2]; []] ∧
  ascending [2; 1] = false ∧
  ¬ ∃ g, ARGraph_impl_new fan_unsorted = inr g ∧ sorted_arrays g = true.
Proof.
  split; [reflexivity|]. split; [reflexivity|].
  intros (g & Hg & _). vm_compute in Hg. discriminate.
Qed.

(** C2, as it holds. For a loader that reports the out-edges of every node
    in strictly ascending order (as in C1) the object that is built has the
    node count of the loader, the out-degrees of the loader, and [HasEdge]
    returns [true] exactly for the pairs that the loader reported. *)
Theorem loader_round_trip (loader : ARGLoader) :
  loader_ok loader →
  ∃ g, ARGraph_impl_new loader = inr g ∧
       NodeCount g = L_NodeCount loader ∧
       (∀ u, 0 ≤ u < L_NodeCount loader →
          OutEdgeCount g u = inr (L_OutEdgeCount loader u)) ∧
       (∀ u v, 0 ≤ u < L_NodeCount loader → 0 ≤ v < L_NodeCount loader →
          ∃ b, HasEdge2 g u v = inr b ∧
               (b = true ↔
                ∃ j, 0 ≤ j < L_OutEdgeCount loader u ∧ fst (L_GetOutEdge loader u j) = v)).
Proof.
  intros Hok. pose proof Hok as (HN & Hnodes & _).
  exists (graph_of loader). split; [by apply ARGraph_impl_new_closed|].
  split; [done|]. split.
  - intros u Hu. unfold OutEdgeCount. rewrite assert_lt by (simpl; lia). simpl.
    apply read_ok; [lia|]. by apply lookup_fmap_seqZ.
  - intros u v Hu Hv. exists (bool_decide (v ∈ loader_row loader u)). split.
    + rewrite <- (HasEdge2_ingested loader u v Hok Hu Hv). unfold HasEdge2.
      rewrite (HasEdge_same_out (graph_of loader) (ingested loader (L_NodeCount loader)));
        [done|by rewrite ingested_all..].
    + rewrite bool_decide_eq_true. apply elem_of_loader_row.
Qed.

Lemma loader_round_trip_witness :
  ∃ g, ARGraph_impl_new fan_sorted = inr g ∧
       NodeCount g = 3 ∧
       (∀ u, 0 ≤ u < 3 → OutEdgeCount g u = inr (L_OutEdgeCount fan_sorted u)) ∧
       (∀ u v, 0 ≤ u < 3 → 0 ≤ v < 3 →
          ∃ b, HasEdge2 g u v = inr b ∧
               (b = true ↔
                ∃ j, 0 ≤ j < L_OutEdgeCount fan_sorted u ∧
                     fst (L_GetOutEdge fan_sorted u j) = v)).
Proof.
  apply (loader_round_trip fan_sorted).
  apply loader_okb_ok. vm_compute. reflexivity.
Defined.

(** C2, as it is stated, fails: the loader [fan_unsorted] reports the edge
    from 0 to 2, and no object is built from it, so none that has this edge;
    and from the loader [wide], whose node reports 65536 out-edges, an object
    is built that has out-degree 0 and not the edge that was reported. *)
Lemma round_trip_needs_order :
  (fst (L_GetOutEdge fan_unsorted 0 0) = 2 ∧
   ARGraph_impl_new fan_unsorted = inl AssertionFailed ∧
   ¬ ∃ g, ARGraph_impl_new fan_unsorted = inr g ∧ HasEdge2 g 0 2 = inr true) ∧
  (fst (L_GetOutEdge wide 0 0) = 0 ∧
   ∃ g, ARGraph_impl_new wide = inr g ∧
        OutEdgeCount g 0 = inr 0 ∧ L_OutEdgeCount wide 0 = 65536 ∧
        HasEdge2 g 0 0 = inr false).
Proof.
  split.
  - split; [reflexivity|]. split; [reflexivity|].
    intros (g & Hg & _). vm_compute in Hg. discriminate.
  - split; [reflexivity|]. eexists. split; [reflexivity|]. by vm_compute.
Qed.

(** C6, as it holds. A loader of 65534 isolated nodes is accepted and the
    construction succeeds; so is a loader of 65535 isolated nodes: the
    constructor does not look at the node count. *)
Theorem isolated_nodes_accepted (loader : ARGLoader) :
  L_NodeCount loader = 65534 ∨ L_NodeCount loader = 65535 →
  (∀ u, L_OutEdgeCount loader u = 0) →
  ∃ g, ARGraph_impl_new loader = inr g ∧ NodeCount g = L_NodeCount loader.
Proof.
  intros HN Hdeg. exists (graph_of loader). split; [|done].
  apply ARGraph_impl_new_closed, loader_ok_isolated; [lia|done].
Qed.

Lemma isolated_nodes_accepted_witness :
  ∃ g, ARGraph_impl_new (isolated 65534) = inr g ∧ NodeCount g = 65534.
Proof.
  apply (isolated_nodes_accepted (isolated 65534)).
  - left. reflexivity.
  - intros u. reflexivity.
Defined.

(** C6, as it is stated, fails: a loader of 65535 nodes is not rejected. *)
Lemma no_loader_overflow :
  ∃ g, ARGraph_impl_new (isolated 65535) = inr g ∧ NodeCount g = 65535.
Proof.
  exists (graph_of (isolated 65535)). split; [|done].
  apply ARGraph_impl_new_closed, loader_ok_isolated; [simpl; lia|done].
Qed.

(** C4. The handle of an edge is the same in the out-entry and in the
    in-entry: what [HasEdge(u, v, &p)] yields is what the in-entry of [v]
    for [u] holds, and every edge has that in-entry. This holds for every
    object that the constructor returns, for any loader (with a node count
    within the node ids); and [SetEdgeAttr] on a recorded edge succeeds,
    keeps it, and makes both lookups yield the new handle. For the loaders
    of C1 the constructor does return an object. *)
Theorem edge_attr_aliasing :
  (∀ loader g,
     L_NodeCount loader ≤ 65536 → ARGraph_impl_new loader = inr g →
     aliasing g ∧ in_rows_ok g) ∧
  (∀ loader,
     loader_ok loader →
     ∃ g, ARGraph_impl_new loader = inr g ∧ aliasing g ∧ in_rows_ok g) ∧
  (∀ g u v a a' d,
     aliasing g → in_rows_ok g → node g u → node g v →
     HasEdge g u v true = inr (true, Some a) →
     ∃ g', run (SetEdgeAttr u v a' d) g = (inr tt, (g', if d then edge_events g a else [])) ∧
           aliasing g' ∧ in_rows_ok g' ∧
           HasEdge g' u v true = inr (true, Some a') ∧
           ∃ l, GetInEdge g' v l = inr (u, a')).
Proof.
  split; [|split].
  - intros loader g HN Hg. by apply (ARGraph_impl_new_inv loader).
  - intros loader Hok. exists (graph_of loader).
    pose proof (ARGraph_impl_new_closed loader Hok) as Hg. split; [done|].
    apply (ARGraph_impl_new_inv loader); [|done]. destruct Hok as [? _]. lia.
  - intros g u v a a' d Hal Hin Hu Hv Hedge.
    destruct (SetEdgeAttr_preserves g u v a a' d (conj Hal Hin) Hu Hv Hedge)
      as (g' & Hrun & [Hal' Hin'] & Hout & Hl).
    by exists g'.
Qed.

Lemma edge_attr_aliasing_witness :
  aliasing fan_graph ∧
  ∃ g', run (SetEdgeAttr 0 2 777 true) fan_graph = (inr tt, (g', [])) ∧
        aliasing g' ∧
        HasEdge g' 0 2 true = inr (true, Some 777) ∧
        ∃ l, GetInEdge g' 2 l = inr (0, 777).
Proof.
  destruct edge_attr_aliasing as (Hnew & _ & Hset).
  destruct (Hnew fan_sorted fan_graph) as [Hal Hin]; [simpl; lia | reflexivity |].
  split; [exact Hal|].
  destruct (Hset fan_graph 0 2 102 777 true Hal Hin) as (g' & Hrun & Hal' & _ & Hout & Hl).
  - unfold node. simpl. lia.
  - unfold node. simpl. lia.
  - reflexivity.
  - exists g'. split; [exact Hrun|]. split; [exact Hal'|]. split; [exact Hout | exact Hl].
Defined.

(** ** Enumerating the edges of a node *)

Lemma GetOutEdge_iff (g : ARGraph_impl) (u i v : Z) (a : handle) :
  GetOutEdge g u i = inr (v, a) ↔
  u < n g ∧ ∃ k, read (out_count g) u = inr k ∧ i < k ∧
                 read2 (out_attr g) u i = inr a ∧ read2 (out g) u i = inr v.
Proof.
  unfold GetOutEdge. split.
  - intros H.
    apply bind_inr in H as ([] & Hv%assert_inr%Z.ltb_lt & H).
    apply bind_inr in H as (k & Hk & H).
    apply bind_inr in H as ([] & Hl%assert_inr%Z.ltb_lt & H).
    apply bind_inr in H as (arow & Har & H).
    apply bind_inr in H as (a0 & Ha & H).
    apply bind_inr in H as (row & Hrow & H).
    apply bind_inr in H as (u0 & Hu0 & H). inv_result.
    split; [done|]. exists k. repeat split; try done; apply read2_inr; eauto.
  - intros (Hv & k & Hk & Hl & (arow & Har & Ha)%read2_inr & (row & Hrow & Hu)%read2_inr).
    rewrite assert_lt by done. simpl. rewrite Hk. simpl.
    rewrite assert_lt by done. simpl. rewrite Har. simpl. rewrite Ha. simpl.
    rewrite Hrow. simpl. by rewrite Hu.
Qed.

Lemma assert_ge (i m : Z) : m ≤ i → assert (i <? m) = inl AssertionFailed.
Proof. intros H. unfold assert. by destruct (Z.ltb_spec i m); [lia|]. Qed.

Lemma read_neg {A} (a : list A) (i : Z) : i < 0 → read a i = inl OutOfBounds.
Proof. intros H. unfold read. by destruct (Z.ltb_spec i 0); [|lia]. Qed.

(** X1. [GetOutEdge(u, i, &p)] on a node [u] with [k] out-entries: for
    [0 <= i < k] it yields the [i]-th out-neighbour and its handle, and the
    overload without [pattr] yields the same neighbour; for [i >= k] the
    assertion fails; a negative [i] passes the assertion, which tests the
    upper bound only, and the array is read before its first cell. *)
Theorem GetOutEdge_index (g : ARGraph_impl) (u i : Z) (row : list Z) (arow : list handle) :
  node g u → out_row g u row arow →
  (0 ≤ i < Z.of_nat (length row) →
     ∃ v a, row !! Z.to_nat i = Some v ∧ arow !! Z.to_nat i = Some a ∧
            GetOutEdge g u i = inr (v, a) ∧ GetOutEdge2 g u i = inr v) ∧
  (Z.of_nat (length row) ≤ i →
     GetOutEdge g u i = inl AssertionFailed ∧ GetOutEdge2 g u i = inl AssertionFailed) ∧
  (i < 0 → GetOutEdge g u i = inl OutOfBounds ∧ GetOutEdge2 g u i = inl OutOfBounds).
Proof.
  intros Hu (Hrow & Harow & Hcnt & Hlen & _). unfold GetOutEdge, GetOutEdge2, read2.
  rewrite !assert_lt by apply Hu. cbn [bind].
  rewrite !(read_ok _ _ _ (proj1 Hu) Hcnt). cbn [bind].
  rewrite !(read_ok _ _ _ (proj1 Hu) Harow), !(read_ok _ _ _ (proj1 Hu) Hrow).
  split; [|split].
  - intros Hi.
    destruct (lookup_lt_is_Some_2 row (Z.to_nat i)) as [v Hv]; [lia|].
    destruct (lookup_lt_is_Some_2 arow (Z.to_nat i)) as [a Ha]; [lia|].
    exists v, a. rewrite assert_lt by lia. cbn [bind].
    by rewrite !(read_ok _ _ _ (proj1 Hi) Ha), !(read_ok _ _ _ (proj1 Hi) Hv).
  - intros Hi. by rewrite assert_ge.
  - intros Hi. rewrite assert_lt by lia. cbn [bind]. by rewrite !read_neg.
Qed.

Lemma GetOutEdge_index_witness :
  (∃ v a, [1; 2] !! Z.to_nat 1 = Some v ∧ [101; 102] !! Z.to_nat 1 = Some a ∧
          GetOutEdge fan_graph 0 1 = inr (v, a) ∧ GetOutEdge2 fan_graph 0 1 = inr v) ∧
  GetOutEdge fan_graph 0 2 = inl AssertionFailed ∧
  GetOutEdge fan_graph 0 (-1) = inl OutOfBounds.
Proof.
  assert (Hu : node fan_graph 0) by (unfold node; simpl; lia).
  assert (Hrow : out_row fan_graph 0 [1; 2] [101; 102]) by (repeat split; simpl; lia).
  split; [|split].
  - apply (GetOutEdge_index fan_graph 0 1 [1; 2] [101; 102] Hu Hrow). simpl. lia.
  - apply (GetOutEdge_index fan_graph 0 2 [1; 2] [101; 102] Hu Hrow). simpl. lia.
  - apply (GetOutEdge_index fan_graph 0 (-1) [1; 2] [101; 102] Hu Hrow). lia.
Defined.

(** X2. [GetInEdge(v, i, &p)] on a node [v] with [k] in-entries: for
    [0 <= i < k] it yields the source of the [i]-th in-entry and its handle,
    and the overload without [pattr] yields the same source; for [i >= k]
    the assertion fails; a negative [i] passes the assertion and the array is
    read before its first cell. *)
Theorem GetInEdge_index (g : ARGraph_impl) (v i : Z) (row : list Z) (arow : list handle) :
  node g v → in_row g v row arow →
  (0 ≤ i < Z.of_nat (length row) →
     ∃ u a, row !! Z.to_nat i = Some u ∧ arow !! Z.to_nat i = Some a ∧
            GetInEdge g v i = inr (u, a) ∧ GetInEdge2 g v i = inr u) ∧
  (Z.of_nat (length row) ≤ i →
     GetInEdge g v i = inl AssertionFailed ∧ GetInEdge2 g v i = inl AssertionFailed) ∧
  (i < 0 → GetInEdge g v i = inl OutOfBounds ∧ GetInEdge2 g v i = inl OutOfBounds).
Proof.
  intros Hu (Hrow & Harow & Hcnt & Hlen & _). unfold GetInEdge, GetInEdge2, read2.
  rewrite !assert_lt by apply Hu. cbn [bind].
  rewrite !(read_ok _ _ _ (proj1 Hu) Hcnt). cbn [bind].
  rewrite !(read_ok _ _ _ (proj1 Hu) Harow), !(read_ok _ _ _ (proj1 Hu) Hrow).
  split; [|split].
  - intros Hi.
    destruct (lookup_lt_is_Some_2 row (Z.to_nat i)) as [u' Hv]; [lia|].
    destruct (lookup_lt_is_Some_2 arow (Z.to_nat i)) as [a Ha]; [lia|].
    exists u', a. rewrite assert_lt by lia. cbn [bind].
    by rewrite !(read_ok _ _ _ (proj1 Hi) Ha), !(read_ok _ _ _ (proj1 Hi) Hv).
  - intros Hi. by rewrite assert_ge.
  - intros Hi. rewrite assert_lt by lia. cbn [bind]. by rewrite !read_neg.
Qed.

Lemma GetInEdge_index_witness :
  (∃ u a, [0; 1] !! Z.to_nat 1 = Some u ∧ [102; 112] !! Z.to_nat 1 = Some a ∧
          GetInEdge fan_graph 2 1 = inr (u, a) ∧ GetInEdge2 fan_graph 2 1 = inr u) ∧
  GetInEdge fan_graph 2 2 = inl AssertionFailed ∧
  GetInEdge fan_graph 2 (-1) = inl OutOfBounds.
Proof.
  assert (Hv : node fan_graph 2) by (unfold node; simpl; lia).
  assert (Hrow : in_row fan_graph 2 [0; 1] [102; 112]) by (repeat split; simpl; lia).
  split; [|split].
  - apply (GetInEdge_index fan_graph 2 1 [0; 1] [102; 112] Hv Hrow). simpl. lia.
  - apply (GetInEdge_index fan_graph 2 2 [0; 1] [102; 112] Hv Hrow). simpl. lia.
  - apply (GetInEdge_index fan_graph 2 (-1) [0; 1] [102; 112] Hv Hrow). lia.
Defined.

(** X3. Enumeration and lookup agree. On a node [u] whose out-array is
    strictly ascending, [GetOutEdge(u, i, &p)] yields the neighbour [v] and
    the handle [a] for some [i] exactly when [HasEdge(u, v, &p)] finds the
    edge with the handle [a]; [GetEdgeAttr(u, v)] is then [a]. *)
Theorem GetOutEdge_agrees_HasEdge (g : ARGraph_impl) (u v : Z) (a : handle)
    (row : list Z) (arow : list handle) :
  node g u → node g v → out_row g u row arow → ascending row = true →
  ((∃ i, GetOutEdge g u i = inr (v, a)) ↔ HasEdge g u v true = inr (true, Some a)) ∧
  ((∃ i, GetOutEdge g u i = inr (v, a)) → GetEdgeAttr g u v = inr a).
Proof.
  intros Hu Hv Hrow Hasc. pose proof Hrow as (Hr & Har & Hcnt & Hlen & Hshort).
  assert (Hfwd : (∃ i, GetOutEdge g u i = inr (v, a)) → HasEdge g u v true = inr (true, Some a)).
  { intros [i (_ & k & Hk & Hik & (arow' & Har' & Ha)%read2_inr & (row' & Hr' & Hi)%read2_inr)
              %GetOutEdge_iff].
    apply read_inr in Har' as [_ Har'], Hr' as [_ Hr'].
    assert (arow' = arow) as -> by congruence. assert (row' = row) as -> by congruence.
    apply read_inr in Ha as [_ Ha], Hi as [_ Hi].
    apply (HasEdge_hit g u v true row arow (Z.to_nat i) a); done || apply Hu || apply Hv. }
  split; [split; [exact Hfwd|]|].
  - intros (row' & c & _ & _ & Hr' & _ & Hc0 & Hc & arow' & a' & Har' & Ha & [= <-])
      %HasEdge_true_inv.
    apply read_inr in Har' as [_ Har'], Hr' as [_ Hr'].
    assert (arow' = arow) as -> by congruence. assert (row' = row) as -> by congruence.
    exists c. apply GetOutEdge_iff. split; [apply Hu|].
    exists (Z.of_nat (length row)). split; [by apply read_ok; [apply Hu|]|].
    split; [apply lookup_lt_Some in Hc; lia|].
    split; apply read2_inr; eexists; (split; [by apply read_ok; [apply Hu|]|]);
      [done | by apply read_ok].
  - intros Hi. unfold GetEdgeAttr. by rewrite (Hfwd Hi).
Qed.

Lemma GetOutEdge_agrees_HasEdge_witness :
  ((∃ i, GetOutEdge fan_graph 0 i = inr (2, 102)) ↔
   HasEdge fan_graph 0 2 true = inr (true, Some 102)) ∧
  ((∃ i, GetOutEdge fan_graph 0 i = inr (2, 102)) → GetEdgeAttr fan_graph 0 2 = inr 102).
Proof.
  apply (GetOutEdge_agrees_HasEdge fan_graph 0 2 102 [1; 2] [101; 102]).
  - unfold node. simpl. lia.
  - unfold node. simpl. lia.
  - repeat split. simpl. lia.
  - reflexivity.
Defined.

(** ** The number of probes of the binary search *)

Lemma midpoint_half (a b : Z) :
  0 ≤ a → a < b → b < 2 ^ 31 →
  a + b - 1 ≤ 2 * Z.shiftr (to_unsigned (a + b)) 1 ≤ a + b.
Proof.
  intros Ha Hab Hb. unfold to_unsigned.
  rewrite Z.mod_small by lia. rewrite Z.shiftr_div_pow2 by lia.
  change (2 ^ 1) with 2. pose proof (Z.div_mod (a + b) 2 ltac:(lia)).
  pose proof (Z.mod_pos_bound (a + b) 2 ltac:(lia)). lia.
Qed.

(** The result of the loop does not depend on the fuel, once the fuel is
    the binary logarithm of the width of the range. *)
Lemma bsearch_loop_fuel (f1 f2 : nat) (id : list Z) (key a b : Z) :
  0 ≤ a → b < 2 ^ 31 → b - a < 2 ^ Z.of_nat f1 → b - a < 2 ^ Z.of_nat f2 →
  bsearch_loop f1 id key a b = bsearch_loop f2 id key a b.
Proof.
  revert f2 a b. induction f1 as [|f1 IH]; intros f2 a b Ha Hb H1 H2.
  - change (2 ^ Z.of_nat 0) with 1 in H1.
    destruct f2; simpl; destruct (Z.ltb_spec a b); done || lia.
  - destruct f2 as [|f2].
    { change (2 ^ Z.of_nat 0) with 1 in H2.
      simpl; destruct (Z.ltb_spec a b); done || lia. }
    simpl. destruct (Z.ltb_spec a b) as [Hab|]; [|done].
    pose proof (midpoint_half a b Ha Hab Hb) as Hc.
    set (c := Z.shiftr (to_unsigned (a + b)) 1) in *.
    rewrite !Nat2Z.inj_succ, !Z.pow_succ_r in H1, H2 by lia.
    destruct (read id c) as [e|x]; [done|]. simpl.
    destruct (x <? key); [apply IH; lia|].
    destruct (key <? x); [apply IH; lia|done].
Qed.

Lemma pow2_gt (m : nat) : Z.of_nat m < 2 ^ Z.of_nat m.
Proof. apply Z.pow_gt_lin_r; lia. Qed.

(** X4. The binary search of [HasEdge] and [SetEdgeAttr] is logarithmic: on
    an array of [count < 2^k] entries the loop is left after at most [k]
    iterations, each of which reads one entry. An out-degree or in-degree is
    a [count_type], so at most 15 entries of an array are read. *)
Theorem bsearch_probes (id : list Z) (key count : Z) (k : nat) :
  0 ≤ count < 2 ^ Z.of_nat k → count ≤ Z.of_nat (length id) → count < 2 ^ 31 →
  ∃ r, bsearch id key count = inr r ∧ bsearch_loop k id key 0 count = inr r.
Proof.
  intros Hk Hlen Hb.
  destruct (bsearch_loop_hit (Z.to_nat count) id key 0 count) as (r & Hr & _); [lia..|].
  exists r. split; [exact Hr|]. rewrite <- Hr.
  apply bsearch_loop_fuel; try lia.
  rewrite Z.sub_0_r. pose proof (pow2_gt (Z.to_nat count)). lia.
Qed.

Lemma bsearch_probes_witness :
  ∃ r, bsearch (seqZ 0 32767) 20000 32767 = inr r ∧
       bsearch_loop 15 (seqZ 0 32767) 20000 0 32767 = inr r.
Proof.
  apply (bsearch_probes (seqZ 0 32767) 20000 32767 15).
  - simpl. lia.
  - rewrite length_seqZ. lia.
  - lia.
Defined.

(** ** Edge lookup on arrays in any order *)

Lemma bsearch_loop_hit_range (fuel : nat) (id : list Z) (key a b c : Z) :
  0 ≤ a → b < 2 ^ 31 → bsearch_loop fuel id key a b = inr (Some c) → a ≤ c < b.
Proof.
  revert a b. induction fuel as [|fuel IH]; intros a b Ha Hb; simpl.
  - destruct (a <? b); intros Hr; inv_result.
  - destruct (Z.ltb_spec a b) as [Hab|Hba]; [|intros Hr; inv_result].
    pose proof (midpoint a b Ha Hab Hb) as Hm.
    set (m := Z.shiftr (to_unsigned (a + b)) 1) in *.
    intros Hr. apply bind_inr in Hr as (x & Hx & Hr).
    destruct (Z.ltb_spec x key); [apply IH in Hr; lia|].
    destruct (Z.ltb_spec key x); [apply IH in Hr; lia|].
    inv_result. lia.
Qed.

(** X5. [HasEdge] has no false positives, whatever the arrays hold: when
    [HasEdge(u, v, pattr)] returns [true], [v] is at an index below
    [out_count[u]] of the out-array of [u], and the handle stored through a
    non-null [pattr] is the one at that index of the attribute array. The
    order of the array matters for the misses only. *)
Theorem HasEdge_no_false_positive (g : ARGraph_impl) (u v : Z) (pattr : bool)
    (stored : option handle) :
  HasEdge g u v pattr = inr (true, stored) →
  ∃ row k c,
    out g !! Z.to_nat u = Some row ∧ out_count g !! Z.to_nat u = Some k ∧
    0 ≤ c ∧ (k < 2 ^ 31 → c < k) ∧ row !! Z.to_nat c = Some v ∧
    if pattr then ∃ arow a, out_attr g !! Z.to_nat u = Some arow ∧
                            arow !! Z.to_nat c = Some a ∧ stored = Some a
    else stored = None.
Proof.
  intros (row & c & _ & _ & Hrow & (k & Hk & Hs) & Hc0 & Hc & Hst)%HasEdge_true_inv.
  apply read_inr in Hrow as [Hu Hrow]. apply read_inr in Hk as [_ Hk].
  exists row, k, c. split; [done|]. split; [done|]. split; [done|]. split.
  { intros Hb. apply bsearch_loop_hit_range in Hs; lia. }
  split; [done|]. destruct pattr; [|done].
  destruct Hst as (arow & a & Harow & Ha & ->).
  apply read_inr in Harow as [_ Harow]. apply read_inr in Ha as [_ Ha]. eauto 10.
Qed.

Lemma HasEdge_no_false_positive_witness :
  ∃ row k c,
    out fan_graph !! Z.to_nat 0 = Some row ∧ out_count fan_graph !! Z.to_nat 0 = Some k ∧
    0 ≤ c ∧ (k < 2 ^ 31 → c < k) ∧ row !! Z.to_nat c = Some 2 ∧
    ∃ arow a, out_attr fan_graph !! Z.to_nat 0 = Some arow ∧
              arow !! Z.to_nat c = Some a ∧ Some 102 = Some a.
Proof.
  apply (HasEdge_no_false_positive fan_graph 0 2 true (Some 102)). reflexivity.
Defined.

(** ** Changing the attribute of a node *)

Lemma GetNodeAttr_with_attr (g : ARGraph_impl) (l : list handle) (j : Z) :
  GetNodeAttr (with_attr g l) j = (_ <- assert (j <? n g) ;; read l j).
Proof. done. Qed.

(** X6. [SetNodeAttr(i, a, destroyOld)] on a node [i]: [GetNodeAttr(i)] is
    [a] afterwards, the attributes of the other nodes and the edges are as
    before, and the old handle is given to the node destroyer exactly when
    [destroyOld] is set. For [i >= n] the assertion fails before anything
    is destroyed or written. *)
Theorem SetNodeAttr_GetNodeAttr (g : ARGraph_impl) (i : Z) (a : handle) (d : bool) :
  (∀ old, node g i → attr g !! Z.to_nat i = Some old →
     ∃ g', run (SetNodeAttr i a d) g = (inr tt, (g', if d then node_events g old else [])) ∧
           GetNodeAttr g' i = inr a ∧
           (∀ j, j ≠ i → GetNodeAttr g' j = GetNodeAttr g j) ∧
           NodeCount g' = NodeCount g ∧
           (∀ u v p, HasEdge g' u v p = HasEdge g u v p) ∧
           (∀ v l, GetInEdge g' v l = GetInEdge g v l)) ∧
  (n g ≤ i → run (SetNodeAttr i a d) g = (inl AssertionFailed, (g, []))).
Proof.
  split.
  - intros old Hi Hold. exists (with_attr g (<[Z.to_nat i := a]> (attr g))).
    pose proof (lookup_lt_Some _ _ _ Hold) as Hlt.
    split; [|split; [|split; [|split]]]; try done.
    + unfold run, SetNodeAttr, mbind, get, lift. cbn [fst snd].
      rewrite assert_lt by apply Hi.
      destruct d.
      * rewrite (read_ok _ _ _ (proj1 Hi) Hold).
        unfold DestroyNode, node_events, mbind, get, emit, mret. cbn [fst snd].
        rewrite write_ok by (destruct Hi; lia).
        destruct (node_destroyer g); done.
      * unfold mret. by rewrite write_ok by (destruct Hi; lia).
    + rewrite GetNodeAttr_with_attr, assert_lt by apply Hi. cbn [bind].
      apply read_ok; [apply Hi|]. by rewrite list_lookup_insert_eq.
    + intros j Hj. rewrite GetNodeAttr_with_attr. unfold GetNodeAttr.
      destruct (assert (j <? n g)); [done|]. cbn [bind]. unfold read.
      destruct (Z.ltb_spec j 0); [done|].
      rewrite list_lookup_insert_ne; [done|]. destruct Hi. lia.
  - intros Hi. unfold run, SetNodeAttr, mbind, get, lift. cbn [fst snd].
    by rewrite assert_ge.
Qed.

Lemma SetNodeAttr_GetNodeAttr_witness :
  (∃ g', run (SetNodeAttr 1 99 true) fan_graph_hooks = (inr tt, (g', [Invoke (Call 5 11)])) ∧
         GetNodeAttr g' 1 = inr 99 ∧ GetNodeAttr g' 0 = inr 10) ∧
  run (SetNodeAttr 3 99 true) fan_graph_hooks = (inl AssertionFailed, (fan_graph_hooks, [])).
Proof.
  destruct (SetNodeAttr_GetNodeAttr fan_graph_hooks 1 99 true) as [Hset _].
  destruct (Hset 11) as (g' & Hrun & Hi & Hj & _); [unfold node; simpl; lia | reflexivity |].
  split.
  - exists g'. split; [exact Hrun|]. split; [exact Hi|]. rewrite Hj by lia. reflexivity.
  - apply (SetNodeAttr_GetNodeAttr fan_graph_hooks 3 99 true). simpl. lia.
Defined.

(** ** What [SetEdgeAttr] leaves alone *)

Lemma with_attrs_id (g : ARGraph_impl) :
  with_in_attr (with_out_attr g (out_attr g)) (in_attr g) = g.
Proof. by destruct g. Qed.

Lemma set_out_entry_shape (g g' : ARGraph_impl) (tr tr' : list event) (u v : Z) (a' : handle)
    (d : bool) (r : result unit) :
  set_out_entry u v a' d (g, tr) = (r, (g', tr')) →
  ∃ oa, g' = with_out_attr g oa ∧ out_attr_written g u v a' oa.
Proof.
  assert (Hid : g = with_out_attr g (out_attr g)) by by destruct g.
  unfold set_out_entry, mbind, get, lift, error, put. cbn [fst snd].
  destruct (read (out g) u) as [e|row] eqn:Hrow.
  { intros [= _ <- _]. exists (out_attr g). split; [done|by left]. }
  destruct (read (out_count g) u) as [e|b] eqn:Hb.
  { intros [= _ <- _]. exists (out_attr g). split; [done|by left]. }
  destruct (bsearch row v b) as [e|[c|]] eqn:Hs;
    [intros [= _ <- _]; exists (out_attr g); split; [done|by left]| |
     intros [= _ <- _]; exists (out_attr g); split; [done|by left]].
  assert (Hw : ∀ tr0, (match lift (write2 (out_attr g) u c a') (g, tr0) with
                 | (inl e, s') => (inl e, s')
                 | (inr x, s') => (inr tt, (with_out_attr g x, snd s'))
                 end = (r, (g', tr'))) →
               ∃ oa, g' = with_out_attr g oa ∧ out_attr_written g u v a' oa).
  { intros tr0. unfold lift. destruct (write2 (out_attr g) u c a') as [e|oa] eqn:Hw.
    - intros [= _ <- _]. exists (out_attr g). split; [done|by left].
    - intros [= _ <- _]. exists oa. split; [done|]. right. exists row, b, c. done. }
  destruct d; [|apply Hw].
  destruct (read (out_attr g) u) as [e|arow] eqn:Harow.
  { intros [= _ <- _]. exists (out_attr g). split; [done|by left]. }
  destruct (read arow c) as [e|old] eqn:Hold.
  { intros [= _ <- _]. exists (out_attr g). split; [done|by left]. }
  unfold DestroyEdge, mbind, get, emit, mret. cbn [fst snd].
  destruct (edge_destroyer g); apply Hw.
Qed.

Lemma set_in_entry_shape (g g' : ARGraph_impl) (tr tr' : list event) (u v : Z) (a' : handle)
    (r : result unit) :
  set_in_entry u v a' (g, tr) = (r, (g', tr')) →
  ∃ ia, g' = with_in_attr g ia ∧ in_attr_written g u v a' ia.
Proof.
  assert (Hid : g = with_in_attr g (in_attr g)) by by destruct g.
  unfold set_in_entry, mbind, get, lift, error, put. cbn [fst snd].
  destruct (read (in_ g) v) as [e|row] eqn:Hrow.
  { intros [= _ <- _]. exists (in_attr g). split; [done|by left]. }
  destruct (read (in_count g) v) as [e|b] eqn:Hb.
  { intros [= _ <- _]. exists (in_attr g). split; [done|by left]. }
  destruct (bsearch row u b) as [e|[c|]] eqn:Hs;
    [intros [= _ <- _]; exists (in_attr g); split; [done|by left]| |
     intros [= _ <- _]; exists (in_attr g); split; [done|by left]].
  destruct (write2 (in_attr g) v c a') as [e|ia] eqn:Hw.
  - intros [= _ <- _]. exists (in_attr g). split; [done|by left].
  - intros [= _ <- _]. exists ia. split; [done|]. right. exists row, b, c. done.
Qed.

(** Whatever its outcome, [SetEdgeAttr] changes the two attribute arrays
    only, each at the entry of the edge. *)
Lemma SetEdgeAttr_shape (g g' : ARGraph_impl) (tr tr' : list event) (u v : Z) (a' : handle)
    (d : bool) (r : result unit) :
  SetEdgeAttr u v a' d (g, tr) = (r, (g', tr')) →
  ∃ oa ia, g' = with_in_attr (with_out_attr g oa) ia ∧
           out_attr_written g u v a' oa ∧ in_attr_written g u v a' ia.
Proof.
  assert (Hnone : g = g' → ∃ oa ia, g' = with_in_attr (with_out_attr g oa) ia ∧
           out_attr_written g u v a' oa ∧ in_attr_written g u v a' ia).
  { intros <-. exists (out_attr g), (in_attr g). rewrite with_attrs_id.
    split; [done|]. split; by left. }
  unfold SetEdgeAttr, mbind at 1 2 3, get, lift. cbn [fst snd].
  destruct (assert (u <? n g)); [intros [= _ <- _]; by apply Hnone|].
  destruct (assert (v <? n g)); [intros [= _ <- _]; by apply Hnone|].
  unfold mbind.
  destruct (set_out_entry u v a' d (g, tr)) as [r1 [g1 tr1]] eqn:Hout.
  apply set_out_entry_shape in Hout as (oa & -> & Hoa).
  destruct r1 as [e|[]].
  { intros [= _ <- _]. exists oa, (in_attr g). split; [by destruct g|]. split; [done|by left]. }
  intros (ia & -> & Hia)%set_in_entry_shape. exists oa, ia. done.
Qed.

Lemma bind_assoc {A B C} (m : result A) (f : A → result B) (h : B → result C) :
  (y <- (x <- m ;; f x) ;; h y) = (x <- m ;; y <- f x ;; h y).
Proof. by destruct m. Qed.

(** X7. [SetEdgeAttr(u, v, a, destroyOld)] changes nothing but the handle
    of the edge from [u] to [v], whatever its outcome: the node count, the
    node attributes, the degrees, the neighbours and the comparators are as
    before, [HasEdge] answers as before for every pair (with the handle of
    before for every other pair), and the in-entries of every other edge are
    as before. *)
Theorem SetEdgeAttr_frame (g g' : ARGraph_impl) (tr : list event) (u v : Z) (a' : handle)
    (d : bool) (r : result unit) :
  run (SetEdgeAttr u v a' d) g = (r, (g', tr)) →
  NodeCount g' = NodeCount g ∧
  (∀ i, GetNodeAttr g' i = GetNodeAttr g i) ∧
  (∀ i, OutEdgeCount g' i = OutEdgeCount g i ∧ InEdgeCount g' i = InEdgeCount g i) ∧
  (∀ i j, GetOutEdge2 g' i j = GetOutEdge2 g i j ∧ GetInEdge2 g' i j = GetInEdge2 g i j) ∧
  (∀ x y, CompatibleNode g' x y = CompatibleNode g x y ∧
          CompatibleEdge g' x y = CompatibleEdge g x y) ∧
  (∀ u' v', HasEdge2 g' u' v' = HasEdge2 g u' v') ∧
  (∀ u' v', u' ≠ u ∨ v' ≠ v → HasEdge g' u' v' true = HasEdge g u' v' true) ∧
  (∀ u' v' l x, u' ≠ u ∨ v' ≠ v →
     GetInEdge g v' l = inr (u', x) → GetInEdge g' v' l = inr (u', x)).
Proof.
  intros (oa & ia & -> & Hoa & Hia)%SetEdgeAttr_shape.
  split; [done|]. split; [done|]. split; [done|]. split; [done|]. split; [done|].
  split; [done|]. split.
  - intros u' v' Hne. unfold HasEdge.
    cbn [n out out_count out_attr with_in_attr with_out_attr].
    destruct Hoa as [->|(row & b & c & Hrow & Hb & Hs & Hw)]; [done|].
    destruct (assert (u' <? n g)); [done|]. destruct (assert (v' <? n g)); [done|].
    cbn [bind]. destruct (read (out g) u') as [e|row'] eqn:Hrow'; [done|].
    cbn [bind]. destruct (read (out_count g) u') as [e|b'] eqn:Hb'; [done|].
    cbn [bind]. destruct (bsearch row' v' b') as [e|[c'|]] eqn:Hs'; [done| |done].
    cbn [bind].
    rewrite <- !(bind_assoc _ (fun row0 => read row0 c')).
    change (row0 <- read oa u' ;; read row0 c') with (read2 oa u' c').
    change (row0 <- read (out_attr g) u' ;; read row0 c') with (read2 (out_attr g) u' c').
    rewrite (read2_write2 _ _ _ _ u' c' _ Hw). rewrite decide_False; [done|].
    intros [-> ->]. assert (row' = row) as -> by congruence.
    apply bsearch_hit_key in Hs as [_ Hs], Hs' as [_ Hs'].
    destruct Hne as [Hne|Hne]; [done|]. congruence.
  - intros u' v' l x Hne (Hv' & k & Hk & Hl & Hx & Hu')%GetInEdge_iff.
    apply (GetInEdge_iff (with_in_attr (with_out_attr g oa) ia)).
    cbn [n in_ in_count in_attr with_in_attr with_out_attr].
    split; [done|]. exists k. split; [done|]. split; [done|]. split; [|done].
    destruct Hia as [->|(row & b & c & Hrow & Hb & Hs & Hw)]; [done|].
    rewrite (read2_write2 _ _ _ _ v' l _ Hw). rewrite decide_False; [done|].
    intros [-> ->]. apply read2_inr in Hu' as (row' & Hrow' & Hu').
    assert (row' = row) as -> by congruence.
    apply bsearch_hit_key in Hs as [Hc0 Hs]. apply read_inr in Hu' as [_ Hu'].
    destruct Hne as [Hne|Hne]; [|done]. congruence.
Qed.

Lemma SetEdgeAttr_frame_witness :
  HasEdge (with_in_attr (with_out_attr fan_graph [[101; 777]; [112]; []])
                        [[]; [101]; [777; 112]]) 0 1 true
    = HasEdge fan_graph 0 1 true ∧
  GetInEdge (with_in_attr (with_out_attr fan_graph [[101; 777]; [112]; []])
                          [[]; [101]; [777; 112]]) 2 1
    = inr (1, 112).
Proof.
  destruct (SetEdgeAttr_frame fan_graph
              (with_in_attr (with_out_attr fan_graph [[101; 777]; [112]; []])
                            [[]; [101]; [777; 112]])
              [] 0 2 777 false (inr tt) eq_refl)
    as (_ & _ & _ & _ & _ & _ & Hout & Hin).
  split.
  - apply Hout. right. lia.
  - apply (Hin 1 2 1 112); [left; lia | reflexivity].
Defined.

(** ** Restoring the attribute of an edge *)

(** [SetEdgeAttr] on an edge whose two entries are known. *)
Lemma SetEdgeAttr_closed (g : ARGraph_impl) (tr : list event) (u v : Z) (a' : handle) (d : bool)
    (row : list Z) (b c : Z) (arow : list handle) (old : handle)
    (irow : list Z) (k l : Z) (iarow : list handle) :
  u < n g → v < n g →
  read (out g) u = inr row → read (out_count g) u = inr b → bsearch row v b = inr (Some c) →
  read (out_attr g) u = inr arow → read arow c = inr old →
  read (in_ g) v = inr irow → read (in_count g) v = inr k → bsearch irow u k = inr (Some l) →
  read (in_attr g) v = inr iarow → 0 ≤ l < Z.of_nat (length iarow) →
  SetEdgeAttr u v a' d (g, tr) =
    (inr tt,
     (with_in_attr
        (with_out_attr g (<[Z.to_nat u := <[Z.to_nat c := a']> arow]> (out_attr g)))
        (<[Z.to_nat v := <[Z.to_nat l := a']> iarow]> (in_attr g)),
      tr ++ if d then edge_events g old else [])).
Proof.
  intros Hu Hv Hrow Hb Hs Harow Hold Hirow Hk Hsi Hiarow Hl.
  rewrite SetEdgeAttr_unfold by done.
  assert (Hc : 0 ≤ c < Z.of_nat (length arow)).
  { apply read_inr in Hold as [? Hold%lookup_lt_Some]. lia. }
  rewrite (set_out_entry_hit g tr u v a' d row b c old _ Hrow Hb Hs
             ltac:(apply read2_inr; eauto) (write2_ok _ _ _ _ _ Harow Hc)).
  by rewrite (set_in_entry_hit
                (with_out_attr g (<[Z.to_nat u := <[Z.to_nat c := a']> arow]> (out_attr g)))
                _ u v a' irow k l _ Hirow Hk Hsi (write2_ok _ _ _ _ _ Hiarow Hl)).
Qed.

(** The two entries of a recorded edge of an object that satisfies the
    invariant. *)
Lemma edge_entries (g : ARGraph_impl) (u v : Z) (a : handle) :
  ARG_inv g → node g u → node g v → HasEdge g u v true = inr (true, Some a) →
  ∃ row b c arow irow l iarow,
    read (out g) u = inr row ∧ read (out_count g) u = inr b ∧
    bsearch row v b = inr (Some c) ∧
    read (out_attr g) u = inr arow ∧ read arow c = inr a ∧
    read (in_ g) v = inr irow ∧ read (in_count g) v = inr (Z.of_nat (length irow)) ∧
    bsearch irow u (Z.of_nat (length irow)) = inr (Some l) ∧
    read (in_attr g) v = inr iarow ∧ read iarow l = inr a ∧
    0 ≤ l < Z.of_nat (length iarow).
Proof.
  intros [Hal Hin] Hu Hv Hedge.
  pose proof Hedge as (Hun & Hvn & row & b & c & Hrow & Hb & Hs & Hold)%HasEdge_attr_iff.
  apply read2_inr in Hold as (arow & Harow & Hold).
  destruct (Hal u v Hu Hv) as [_ H2]. destruct (H2 a Hedge) as [l Hl].
  apply GetInEdge_iff in Hl as (_ & k & Hk & Hlk & Hia & Hiu).
  destruct (Hin v Hv) as (irow & iarow & (Hir & Hiar & Hic & Hilen & Hibound) & Hasc).
  assert (Hirow : read (in_ g) v = inr irow) by (apply read_ok; [apply Hv | done]).
  assert (Hiarow : read (in_attr g) v = inr iarow) by (apply read_ok; [apply Hv | done]).
  assert (Hkl : k = Z.of_nat (length irow)).
  { apply read_inr in Hk as [_ Hk]. congruence. }
  subst k.
  apply read2_inr in Hiu as (irow0 & Hirow0 & Hlu).
  assert (irow0 = irow) as -> by congruence.
  apply read2_inr in Hia as (iarow0 & Hiarow0 & Hla).
  assert (iarow0 = iarow) as -> by congruence.
  apply read_inr in Hlu as [Hl0 Hlu].
  exists row, b, c, arow, irow, l, iarow. repeat split; try done; try lia.
  rewrite <- (Z2Nat.id l) at 1 by done. apply bsearch_find; done || lia.
Qed.

Lemma insert_insert_id {A} (a : list (list A)) (row : list A) (i j : nat) (x y : A) :
  a !! i = Some row → row !! j = Some y →
  <[i := <[j := y]> (<[j := x]> row)]> (<[i := <[j := x]> row]> a) = a.
Proof.
  intros Hrow Hy. rewrite list_insert_insert_eq, list_insert_insert_eq.
  rewrite (list_insert_id row) by done. by apply list_insert_id.
Qed.

(** X8. Setting the handle of a recorded edge and setting the old handle
    again, without destroying, gives back the object that was there: both
    calls succeed with no event, and nothing else than the two entries of the
    edge was written in between. *)
Theorem SetEdgeAttr_restore (g : ARGraph_impl) (u v : Z) (a a' : handle) :
  ARG_inv g → node g u → node g v → HasEdge g u v true = inr (true, Some a) →
  ∃ g', run (SetEdgeAttr u v a' false) g = (inr tt, (g', [])) ∧
        GetEdgeAttr g' u v = inr a' ∧
        run (SetEdgeAttr u v a false) g' = (inr tt, (g, [])).
Proof.
  intros Hinv Hu Hv Hedge.
  destruct (edge_entries g u v a Hinv Hu Hv Hedge)
    as (row & b & c & arow & irow & l & iarow & Hrow & Hb & Hs & Harow & Hold &
        Hirow & Hk & Hsi & Hiarow & Hiold & Hl).
  pose proof (bsearch_hit_key _ _ _ _ Hs) as [Hc0 _].
  assert (Hc : 0 ≤ c < Z.of_nat (length arow)).
  { apply read_inr in Hold as [? Hc%lookup_lt_Some]. lia. }
  pose proof Harow as [_ Harow']%read_inr. pose proof Hiarow as [_ Hiarow']%read_inr.
  pose proof Hold as [_ Hold']%read_inr. pose proof Hiold as [_ Hiold']%read_inr.
  set (g' := with_in_attr
        (with_out_attr g (<[Z.to_nat u := <[Z.to_nat c := a']> arow]> (out_attr g)))
        (<[Z.to_nat v := <[Z.to_nat l := a']> iarow]> (in_attr g))).
  assert (Harow1 : read (out_attr g') u = inr (<[Z.to_nat c := a']> arow)).
  { apply read_ok; [apply Hu|]. cbn. apply list_lookup_insert_eq. by eapply lookup_lt_Some. }
  assert (Hnew : read (<[Z.to_nat c := a']> arow) c = inr a').
  { apply read_ok; [done|]. apply list_lookup_insert_eq. lia. }
  exists g'. split; [|split].
  - unfold run.
    rewrite (SetEdgeAttr_closed g [] u v a' false row b c arow a irow
               (Z.of_nat (length irow)) l iarow);
      done || apply Hu || apply Hv.
  - unfold GetEdgeAttr.
    rewrite (proj2 (HasEdge_attr_iff g' u v a')); [done|].
    split; [apply Hu|]. split; [apply Hv|]. exists row, b, c. repeat split; try done.
    apply read2_inr. eauto.
  - unfold run.
    rewrite (SetEdgeAttr_closed g' [] u v a false row b c (<[Z.to_nat c := a']> arow) a'
               irow (Z.of_nat (length irow)) l (<[Z.to_nat l := a']> iarow));
      try (done || apply Hu || apply Hv).
    + cbn [app]. f_equal. f_equal. unfold g', with_in_attr, with_out_attr.
      cbn [n attr in_count in_ in_attr out_count out out_attr
           node_destroyer edge_destroyer node_comparator edge_comparator].
      rewrite !insert_insert_id by done. by destruct g.
    + apply read_ok; [apply Hv|]. cbn. apply list_lookup_insert_eq. by eapply lookup_lt_Some.
    + by rewrite length_insert.
Qed.

Lemma SetEdgeAttr_restore_witness :
  ∃ g', run (SetEdgeAttr 0 2 777 false) fan_graph = (inr tt, (g', [])) ∧
        GetEdgeAttr g' 0 2 = inr 777 ∧
        run (SetEdgeAttr 0 2 102 false) g' = (inr tt, (fan_graph, [])).
Proof.
  apply (SetEdgeAttr_restore fan_graph 0 2 102 777).
  - apply (ARGraph_impl_new_inv fan_sorted); [simpl; lia | reflexivity].
  - unfold node. simpl. lia.
  - unfold node. simpl. lia.
  - reflexivity.
Defined.

(** ** [SetEdgeAttr] is all or nothing *)

Lemma write2_read2_some {A} (a a' : list (list A)) (i j : Z) (x : A) :
  write2 a i j x = inr a' → ∃ y, read2 a i j = inr y.
Proof.
  intros (row & Hrow & Hj & _)%write2_inr.
  destruct (lookup_lt_is_Some_2 row (Z.to_nat j)) as [y Hy]; [lia|].
  exists y. apply read2_inr. exists row. split; [done|]. apply read_ok; [lia|done].
Qed.

(** The first part of [SetEdgeAttr] either replaces the handle of a
    recorded edge or fails and leaves everything as it was. *)
Lemma set_out_entry_atomic (g : ARGraph_impl) (tr : list event) (u v : Z) (a' : handle)
    (d : bool) :
  u < n g → v < n g →
  (∃ a, HasEdge g u v true = inr (true, Some a)) ∨
  (∃ e, set_out_entry u v a' d (g, tr) = (inl e, (g, tr)) ∧ e ≠ InconsistentGraph).
Proof.
  intros Hu Hv.
  unfold set_out_entry, mbind, get, lift, error. cbn [fst snd].
  destruct (read (out g) u) as [e|row] eqn:Hrow.
  { right. exists e. split; [done|]. apply read_err in Hrow as ->. discriminate. }
  destruct (read (out_count g) u) as [e|b] eqn:Hb.
  { right. exists e. split; [done|]. apply read_err in Hb as ->. discriminate. }
  destruct (bsearch row v b) as [e|[c|]] eqn:Hs.
  { right. exists e. split; [done|]. apply bsearch_loop_err in Hs as [-> | ->]; discriminate. }
  2:{ right. exists UnknownEdge. split; [done|discriminate]. }
  destruct (read2 (out_attr g) u c) as [e|old] eqn:Hold.
  - right. exists OutOfBounds.
    assert (Hw : write2 (out_attr g) u c a' = inl OutOfBounds).
    { destruct (write2 (out_attr g) u c a') as [e'|oa'] eqn:Hw.
      - by apply write2_err in Hw as ->.
      - apply write2_read2_some in Hw as [y Hy]. congruence. }
    split; [|discriminate].
    destruct d; [|unfold mret; by rewrite Hw].
    unfold read2 in Hold. destruct (read (out_attr g) u) as [e'|arow] eqn:Harow.
    { by apply read_err in Harow as ->. }
    cbn [bind] in Hold. destruct (read arow c) as [e'|y] eqn:Hy; [|discriminate].
    by apply read_err in Hy as ->.
  - left. exists old. apply HasEdge_attr_iff. split; [done|]. split; [done|].
    exists row, b, c. done.
Qed.

(** X9. On an object that satisfies the invariant of the constructor,
    [SetEdgeAttr(u, v, a, destroyOld)] either succeeds, or fails before
    anything is destroyed or written: the object is then as it was and no
    event has occurred. The failure is never the one reported as an
    inconsistent graph state. *)
Theorem SetEdgeAttr_all_or_nothing (g : ARGraph_impl) (u v : Z) (a' : handle) (d : bool) :
  ARG_inv g → node g u → node g v →
  (∃ g' tr, run (SetEdgeAttr u v a' d) g = (inr tt, (g', tr)) ∧ ARG_inv g') ∨
  (∃ e, run (SetEdgeAttr u v a' d) g = (inl e, (g, [])) ∧ e ≠ InconsistentGraph).
Proof.
  intros Hinv Hu Hv.
  destruct (set_out_entry_atomic g [] u v a' d) as [[a Ha]|(e & He & Hne)];
    [apply Hu | apply Hv | |].
  - left. destruct (SetEdgeAttr_preserves g u v a a' d Hinv Hu Hv Ha) as (g' & Hrun & Hinv' & _).
    by exists g', (if d then edge_events g a else []).
  - right. exists e. split; [|done]. unfold run.
    rewrite SetEdgeAttr_unfold by (apply Hu || apply Hv). by rewrite He.
Qed.

Lemma SetEdgeAttr_all_or_nothing_witness :
  ∃ e, run (SetEdgeAttr 1 0 777 true) fan_graph = (inl e, (fan_graph, [])) ∧
       e ≠ InconsistentGraph.
Proof.
  destruct (SetEdgeAttr_all_or_nothing fan_graph 1 0 777 true)
    as [(g' & tr & Hrun & _)|Hfail].
  - apply (ARGraph_impl_new_inv fan_sorted); [simpl; lia | reflexivity].
  - unfold node. simpl. lia.
  - unfold node. simpl. lia.
  - vm_compute in Hrun. discriminate Hrun.
  - exact Hfail.
Defined.

(** ** Teardown *)

Lemma mfor_each_emit (body : Z → M unit) (ev : Z → list event) (range : list Z)
    (g : ARGraph_impl) (tr : list event) :
  (∀ i tr, i ∈ range → body i (g, tr) = (inr tt, (g, tr ++ ev i))) →
  mfor_each body range (g, tr) = (inr tt, (g, tr ++ concat (ev <$> range))).
Proof.
  revert tr. induction range as [|i range IH]; intros tr Hbody; simpl.
  - by rewrite app_nil_r.
  - unfold mbind. rewrite Hbody by left. rewrite IH.
    + by rewrite app_assoc.
    + intros j tr' Hj. apply Hbody. by right.
Qed.

(** A loop over the indices of an array is a map over the array. *)
Lemma fmap_seqZ_lookup {A B} (f : A → B) (h : Z → B) (l : list A) :
  (∀ i x, l !! i = Some x → h (Z.of_nat i) = f x) →
  h <$> seqZ 0 (Z.of_nat (length l)) = f <$> l.
Proof.
  intros Hh. apply list_eq. intros i. rewrite !list_lookup_fmap.
  destruct (l !! i) as [x|] eqn:Hx.
  - rewrite lookup_seqZ_lt by (apply lookup_lt_Some in Hx; lia). simpl.
    f_equal. rewrite Z.add_0_l. by apply Hh.
  - rewrite lookup_seqZ_ge; [done|]. apply lookup_ge_None in Hx. lia.
Qed.

Lemma DestroyEdge_run (g : ARGraph_impl) (tr : list event) (a : handle) :
  DestroyEdge a (g, tr) = (inr tt, (g, tr ++ edge_events g a)).
Proof.
  unfold DestroyEdge, edge_events, mbind, get, emit, mret. cbn [fst snd].
  destruct (edge_destroyer g); [done|]. by rewrite app_nil_r.
Qed.

Lemma DestroyNode_run (g : ARGraph_impl) (tr : list event) (a : handle) :
  DestroyNode a (g, tr) = (inr tt, (g, tr ++ node_events g a)).
Proof.
  unfold DestroyNode, node_events, mbind, get, emit, mret. cbn [fst snd].
  destruct (node_destroyer g); [done|]. by rewrite app_nil_r.
Qed.

Lemma destroy_edges_run (g : ARGraph_impl) (tr : list event) :
  Z.of_nat (length (out_attr g)) = n g →
  out_count g = (fun arow => Z.of_nat (length arow)) <$> out_attr g →
  destroy_edges (g, tr) =
    (inr tt, (g, tr ++ concat ((fun arow => concat (edge_events g <$> arow)) <$> out_attr g))).
Proof.
  intros Hn Hcount. unfold destroy_edges, mbind at 1, get. cbn [fst snd].
  unfold mfor_loop. rewrite Z.sub_0_r, <- Hn.
  rewrite (mfor_each_emit _
             (fun i => concat (edge_events g <$> default [] (out_attr g !! Z.to_nat i)))).
  - f_equal. f_equal. f_equal. f_equal.
    apply (fmap_seqZ_lookup (fun arow => concat (edge_events g <$> arow)) _ (out_attr g)).
    intros i arow Hi. by rewrite Nat2Z.id, Hi.
  - intros i tr' [Hi0 Hi]%elem_of_seqZ.
    destruct (lookup_lt_is_Some_2 (out_attr g) (Z.to_nat i)) as [arow Harow]; [lia|].
    rewrite Harow. cbn [default]. unfold mbind at 1, lift.
    rewrite (read_ok _ _ (Z.of_nat (length arow)) Hi0)
      by (by rewrite Hcount, list_lookup_fmap, Harow).
    rewrite Z.sub_0_r.
    rewrite (mfor_each_emit _ (fun j => edge_events g (default NULL (arow !! Z.to_nat j)))).
    + f_equal. f_equal. f_equal. f_equal.
      apply (fmap_seqZ_lookup (edge_events g) _ arow). intros j a Hj.
      by rewrite Nat2Z.id, Hj.
    + intros j tr'' [Hj0 Hj]%elem_of_seqZ.
      destruct (lookup_lt_is_Some_2 arow (Z.to_nat j)) as [a Ha]; [lia|].
      rewrite Ha. cbn [default]. unfold mbind, lift.
      rewrite (read_ok _ _ _ Hi0 Harow), (read_ok _ _ _ Hj0 Ha).
      apply DestroyEdge_run.
Qed.

Lemma destroy_nodes_run (g : ARGraph_impl) (tr : list event) :
  Z.of_nat (length (attr g)) = n g →
  destroy_nodes (g, tr) = (inr tt, (g, tr ++ concat (node_events g <$> attr g))).
Proof.
  intros Hn. unfold destroy_nodes, mbind at 1, get. cbn [fst snd].
  unfold mfor_loop. rewrite Z.sub_0_r, <- Hn.
  rewrite (mfor_each_emit _ (fun i => node_events g (default NULL (attr g !! Z.to_nat i)))).
  - f_equal. f_equal. f_equal. f_equal.
    apply (fmap_seqZ_lookup (node_events g) _ (attr g)). intros i a Hi.
    by rewrite Nat2Z.id, Hi.
  - intros i tr' [Hi0 Hi]%elem_of_seqZ.
    destruct (lookup_lt_is_Some_2 (attr g) (Z.to_nat i)) as [a Ha]; [lia|].
    rewrite Ha. cbn [default]. unfold mbind, lift.
    rewrite (read_ok _ _ _ Hi0 Ha). apply DestroyNode_run.
Qed.

Lemma delete_hooks_run (g : ARGraph_impl) (tr : list event) :
  delete_hooks (g, tr) =
    (inr tt, (g, tr ++ destroyer_deleted (node_destroyer g) ++
                       destroyer_deleted (edge_destroyer g) ++
                       comparator_deleted (node_comparator g) ++
                       comparator_deleted (edge_comparator g))).
Proof.
  unfold delete_hooks, mbind, get, delete_destroyer, delete_comparator, emit, mret.
  cbn [fst snd].
  destruct (node_destroyer g), (edge_destroyer g), (node_comparator g), (edge_comparator g);
    cbn [fst snd destroyer_deleted comparator_deleted app];
    rewrite <- ?app_assoc, ?app_nil_r; done.
Qed.

(** X10. The destructor, on an object whose attribute arrays have the
    lengths that the counts record: it ends without error and gives every
    handle of an out-entry to the edge destroyer once, node by node in the
    order of the entries, then every node handle to the node destroyer, and
    then deletes the four hook objects. The handles of the in-entries, which
    are the same handles, are not destroyed a second time. *)
Theorem destructor_trace (g : ARGraph_impl) :
  Z.of_nat (length (attr g)) = n g →
  Z.of_nat (length (out_attr g)) = n g →
  out_count g = (fun arow => Z.of_nat (length arow)) <$> out_attr g →
  run ARGraph_impl_delete g = (inr tt, (g, teardown_events g)).
Proof.
  intros Hattr Hout Hcount. unfold run, ARGraph_impl_delete, mbind.
  rewrite destroy_edges_run, destroy_nodes_run, delete_hooks_run by done.
  unfold teardown_events. by rewrite <- !app_assoc.
Qed.

Lemma destructor_trace_witness :
  run ARGraph_impl_delete fan_graph_hooks =
    (inr tt, (fan_graph_hooks,
              [Invoke (Call 6 101); Invoke (Call 6 102); Invoke (Call 6 112);
               Invoke (Call 5 10); Invoke (Call 5 11); Invoke (Call 5 12);
               DeleteDestroyer (FunctionAttrDestroyer 5);
               DeleteDestroyer (FunctionAttrDestroyer 6)])).
Proof. apply (destructor_trace fan_graph_hooks); reflexivity. Defined.

(** ** Installing an edge destroyer *)

(** X18. [SetEdgeDestroyer(d)] puts [d] in the edge destroyer slot, deleting
    the destroyer that was there and leaving the node destroyer alone. From
    then on [DestroyEdge(a)] is [d->destroy(a)], and the teardown gives every
    handle of an out-entry to [d] once, ends with the node handles as
    before, and deletes [d] with the other hook objects. *)
Theorem SetEdgeDestroyer_teardown (g : ARGraph_impl) (d : AttrDestroyer) :
  Z.of_nat (length (attr g)) = n g →
  Z.of_nat (length (out_attr g)) = n g →
  out_count g = (fun arow => Z.of_nat (length arow)) <$> out_attr g →
  ∃ g', run (SetEdgeDestroyer (Some d)) g =
          (inr tt, (g', destroyer_deleted (edge_destroyer g))) ∧
        edge_destroyer g' = Some d ∧ node_destroyer g' = node_destroyer g ∧
        (∀ a tr, DestroyEdge a (g', tr) = (inr tt, (g', tr ++ (Invoke <$> destroy d a)))) ∧
        run ARGraph_impl_delete g' =
          (inr tt,
           (g', concat ((fun arow => concat ((fun a => Invoke <$> destroy d a) <$> arow))
                          <$> out_attr g) ++
                concat (node_events g <$> attr g) ++
                destroyer_deleted (node_destroyer g) ++ [DeleteDestroyer d] ++
                comparator_deleted (node_comparator g) ++
                comparator_deleted (edge_comparator g))).
Proof.
  intros Hattr Hout Hcount. exists (with_edge_destroyer g (Some d)).
  split; [|split; [done|split; [done|split]]].
  - unfold run, SetEdgeDestroyer, mbind, get, put, delete_destroyer. cbn [fst snd].
    by destruct (edge_destroyer g).
  - intros a tr. by rewrite DestroyEdge_run.
  - unfold run, ARGraph_impl_delete, mbind.
    rewrite destroy_edges_run, destroy_nodes_run, delete_hooks_run by done.
    by rewrite <- !app_assoc.
Qed.

Lemma SetEdgeDestroyer_teardown_witness :
  ∃ g', run (SetEdgeDestroyer (Some (FunctionAttrDestroyer 6))) fan_graph = (inr tt, (g', [])) ∧
        run ARGraph_impl_delete g' =
          (inr tt, (g', [Invoke (Call 6 101); Invoke (Call 6 102); Invoke (Call 6 112);
                         DeleteDestroyer (FunctionAttrDestroyer 6)])).
Proof.
  destruct (SetEdgeDestroyer_teardown fan_graph (FunctionAttrDestroyer 6))
    as (g' & Hset & _ & _ & _ & Hdel); [reflexivity..|].
  exists g'. split; [exact Hset | exact Hdel].
Defined.

(** ** Comparators *)

(** X11. [SetNodeCompat(fn)] and [SetEdgeCompat(fn)] each install the
    function in their own slot: afterwards [CompatibleNode] (resp.
    [CompatibleEdge]) is [fn], or [true] for a null [fn], the other slot
    answers as before, the comparator object that was in the slot is deleted
    and no other event occurs. *)
Theorem SetCompat_installs (g : ARGraph_impl) (fn : option (handle → handle → bool))
    (a b : handle) :
  (∃ g', run (SetNodeCompat fn) g = (inr tt, (g', comparator_deleted (node_comparator g))) ∧
         CompatibleNode g' a b = match fn with Some f => f a b | None => true end ∧
         CompatibleEdge g' a b = CompatibleEdge g a b) ∧
  (∃ g', run (SetEdgeCompat fn) g = (inr tt, (g', comparator_deleted (edge_comparator g))) ∧
         CompatibleEdge g' a b = match fn with Some f => f a b | None => true end ∧
         CompatibleNode g' a b = CompatibleNode g a b).
Proof.
  split.
  - exists (with_node_comparator g (Some (FunctionAttrComparator fn))). split; [|done].
    unfold run, SetNodeCompat, SetNodeComparator, mbind, get, put, delete_comparator.
    cbn [fst snd]. by destruct (node_comparator g).
  - exists (with_edge_comparator g (Some (FunctionAttrComparator fn))). split; [|done].
    unfold run, SetEdgeCompat, SetEdgeComparator, mbind, get, put, delete_comparator.
    cbn [fst snd]. by destruct (edge_comparator g).
Qed.

(** ** Visiting the edges of a node *)

Lemma visit_loop_observe (count : ARGraph_impl → result Z) (body : Z → M unit)
    (ev : Z → list event) (g : ARGraph_impl) (k : Z) (fuel : nat) (i : Z) (tr : list event) :
  count g = inr k → (Z.to_nat (k - i) ≤ fuel)%nat →
  (∀ j tr, i ≤ j < k → body j (g, tr) = (inr tt, (g, tr ++ ev j))) →
  visit_loop fuel count body i (g, tr) = (inr tt, (g, tr ++ concat (ev <$> seqZ i (k - i)))).
Proof.
  intros Hk. revert i tr. induction fuel as [|fuel IH]; intros i tr Hfuel Hbody;
    cbn [visit_loop]; unfold mbind at 1 2, get, lift; cbn [fst snd]; rewrite Hk;
    (destruct (Z.ltb_spec i k) as [Hik|Hik];
      [|rewrite seqZ_nil by lia; by rewrite app_nil_r]).
  - exfalso. lia.
  - unfold mbind. rewrite Hbody by lia. rewrite IH.
    + rewrite (seqZ_cons i (k - i)) by lia. cbn [fmap list_fmap concat].
      rewrite app_assoc.
      replace (Z.succ i) with (i + 1) by lia.
      by replace (Z.pred (k - i)) with (k - (i + 1)) by lia.
    + lia.
    + intros j tr' Hj. apply Hbody. lia.
Qed.

Lemma zip_with_seqZ {B} (f : Z → handle → B) (h : Z → B) (row : list Z) (arow : list handle) :
  length arow = length row →
  (∀ i x a, row !! i = Some x → arow !! i = Some a → h (Z.of_nat i) = f x a) →
  h <$> seqZ 0 (Z.of_nat (length row)) = zip_with f row arow.
Proof.
  intros Hlen Hh. apply list_eq. intros i. rewrite list_lookup_fmap, lookup_zip_with.
  destruct (row !! i) as [x|] eqn:Hx.
  - destruct (lookup_lt_is_Some_2 arow i) as [a Ha].
    { rewrite Hlen. by eapply lookup_lt_Some. }
    rewrite Ha. rewrite lookup_seqZ_lt by (apply lookup_lt_Some in Hx; lia). simpl.
    f_equal. rewrite Z.add_0_l. by apply Hh.
  - rewrite lookup_seqZ_ge; [done|]. apply lookup_ge_None in Hx. lia.
Qed.

Lemma VisitOutEdges_observe (vis : edge_visitor) (log : Z → Z → handle → handle → list event)
    (g : ARGraph_impl) (tr : list event) (u : Z) (param : handle)
    (row : list Z) (arow : list handle) :
  observer vis log → node g u → out_row g u row arow →
  VisitOutEdges u vis param (g, tr) =
    (inr tt, (g, tr ++ visit_events (fun v a => log u v a param) row arow)).
Proof.
  intros Hvis Hu (Hrow & Harow & Hcnt & Hlen & Hshort).
  unfold VisitOutEdges, mbind at 1 2, get, lift. cbn [fst snd].
  rewrite assert_lt by apply Hu.
  rewrite (visit_loop_observe _ _
             (fun i => log u (default 0 (row !! Z.to_nat i))
                         (default NULL (arow !! Z.to_nat i)) param)
             g (Z.of_nat (length row))).
  - rewrite Z.sub_0_r. unfold visit_events. do 4 f_equal.
    apply (zip_with_seqZ (fun v a => log u v a param)); [done|].
    intros i x a Hx Ha. by rewrite Nat2Z.id, Hx, Ha.
  - by apply read_ok; [apply Hu|].
  - lia.
  - intros j tr' Hj.
    destruct (lookup_lt_is_Some_2 row (Z.to_nat j)) as [x Hx]; [lia|].
    destruct (lookup_lt_is_Some_2 arow (Z.to_nat j)) as [a Ha]; [lia|].
    rewrite Hx, Ha. cbn [default]. unfold mbind, get, lift, read2. cbn [fst snd].
    rewrite !(read_ok _ _ _ (proj1 Hu) Hrow), !(read_ok _ _ _ (proj1 Hu) Harow). cbn [bind].
    rewrite (read_ok _ _ _ (proj1 Hj) Hx), (read_ok _ _ _ (proj1 Hj) Ha).
    apply Hvis.
Qed.

Lemma VisitInEdges_observe (vis : edge_visitor) (log : Z → Z → handle → handle → list event)
    (g : ARGraph_impl) (tr : list event) (v : Z) (param : handle)
    (row : list Z) (arow : list handle) :
  observer vis log → node g v → in_row g v row arow → Z.of_nat (length row) ≤ 32767 →
  VisitInEdges v vis param (g, tr) =
    (inr tt, (g, tr ++ visit_events (fun u a => log u v a param) row arow)).
Proof.
  intros Hvis Hu (Hrow & Harow & Hcnt & Hlen & _) Hshort.
  unfold VisitInEdges, mbind at 1 2, get, lift. cbn [fst snd].
  rewrite assert_lt by apply Hu.
  rewrite (visit_loop_observe _ _
             (fun i => log (default 0 (row !! Z.to_nat i)) v
                         (default NULL (arow !! Z.to_nat i)) param)
             g (Z.of_nat (length row))).
  - rewrite Z.sub_0_r. unfold visit_events. do 4 f_equal.
    apply (zip_with_seqZ (fun u a => log u v a param)); [done|].
    intros i x a Hx Ha. by rewrite Nat2Z.id, Hx, Ha.
  - by apply read_ok; [apply Hu|].
  - lia.
  - intros j tr' Hj.
    destruct (lookup_lt_is_Some_2 row (Z.to_nat j)) as [x Hx]; [lia|].
    destruct (lookup_lt_is_Some_2 arow (Z.to_nat j)) as [a Ha]; [lia|].
    rewrite Hx, Ha. cbn [default]. unfold mbind, get, lift, read2. cbn [fst snd].
    rewrite !(read_ok _ _ _ (proj1 Hu) Hrow), !(read_ok _ _ _ (proj1 Hu) Harow). cbn [bind].
    rewrite (read_ok _ _ _ (proj1 Hj) Hx), (read_ok _ _ _ (proj1 Hj) Ha).
    apply Hvis.
Qed.

(** X12. [VisitOutEdges(u, vis, param)], for a visitor that does not change
    the object: the visitor is called once for every out-entry of [u], in the
    order of the array, with [u], the neighbour, the handle of the entry and
    [param]; nothing else happens and the object is as before. *)
Theorem VisitOutEdges_calls (vis : edge_visitor) (log : Z → Z → handle → handle → list event)
    (g : ARGraph_impl) (u : Z) (param : handle) (row : list Z) (arow : list handle) :
  observer vis log → node g u → out_row g u row arow →
  run (VisitOutEdges u vis param) g =
    (inr tt, (g, visit_events (fun v a => log u v a param) row arow)).
Proof. intros. unfold run. by rewrite (VisitOutEdges_observe vis log g [] u param row arow). Qed.

Lemma logging_visitor_observer : observer logging_visitor logging_events.
Proof. intros n1 n2 a param g tr. reflexivity. Qed.

Lemma VisitOutEdges_calls_witness :
  run (VisitOutEdges 0 logging_visitor 7) fan_graph =
    (inr tt, (fan_graph,
              [Invoke (Call 7 0); Invoke (Call 7 1); Invoke (Call 7 101);
               Invoke (Call 7 0); Invoke (Call 7 2); Invoke (Call 7 102)])).
Proof.
  apply (VisitOutEdges_calls logging_visitor logging_events fan_graph 0 7 [1; 2] [101; 102]).
  - exact logging_visitor_observer.
  - unfold node. simpl. lia.
  - repeat split. simpl. lia.
Defined.

(** X13. [VisitInEdges(v, vis, param)], for a visitor that does not change
    the object, calls the visitor once for every in-entry of [v], in the
    order of the array, with the source, [v], the handle of the entry and
    [param]. [VisitEdges(v, vis, param)] makes these calls and then the calls
    of [VisitOutEdges(v, vis, param)] for the out-entries of [v]; a loop of
    [v] on itself is visited twice. *)
Theorem VisitEdges_calls (vis : edge_visitor) (log : Z → Z → handle → handle → list event)
    (g : ARGraph_impl) (v : Z) (param : handle)
    (irow : list Z) (iarow : list handle) (row : list Z) (arow : list handle) :
  observer vis log → node g v →
  in_row g v irow iarow → Z.of_nat (length irow) ≤ 32767 → out_row g v row arow →
  run (VisitInEdges v vis param) g =
    (inr tt, (g, visit_events (fun u a => log u v a param) irow iarow)) ∧
  run (VisitEdges v vis param) g =
    (inr tt, (g, visit_events (fun u a => log u v a param) irow iarow ++
                 visit_events (fun w a => log v w a param) row arow)).
Proof.
  intros Hvis Hv Hin Hshort Hout. unfold run, VisitEdges, mbind.
  rewrite (VisitInEdges_observe vis log g [] v param irow iarow) by done.
  split; [done|].
  by rewrite (VisitOutEdges_observe vis log g _ v param row arow).
Qed.

Lemma VisitEdges_calls_witness :
  run (VisitInEdges 1 logging_visitor 7) fan_graph =
    (inr tt, (fan_graph, [Invoke (Call 7 0); Invoke (Call 7 1); Invoke (Call 7 101)])) ∧
  run (VisitEdges 1 logging_visitor 7) fan_graph =
    (inr tt, (fan_graph,
              [Invoke (Call 7 0); Invoke (Call 7 1); Invoke (Call 7 101);
               Invoke (Call 7 1); Invoke (Call 7 2); Invoke (Call 7 112)])).
Proof.
  apply (VisitEdges_calls logging_visitor logging_events fan_graph 1 7 [0] [101] [2] [112]).
  - exact logging_visitor_observer.
  - unfold node. simpl. lia.
  - repeat split. simpl. lia.
  - simpl. lia.
  - repeat split. simpl. lia.
Defined.

(** ** An out-degree that [count_type] cannot hold *)

(** X14. An out-degree that [count_type] cannot hold. If the loader reports
    for some node an out-degree that is negative once it is converted to the
    16 bit [count_type] (32768 to 65535, for instance), the nodes before it
    being well reported, the constructor fails at the allocation of the
    out-array of that node: no object is built. *)
Theorem constructor_degree_overflow (loader : ARGLoader) (i : Z) :
  0 ≤ L_NodeCount loader ≤ 65536 → 0 ≤ i < L_NodeCount loader →
  (∀ u, 0 ≤ u < i → node_ok loader u) →
  to_count (L_OutEdgeCount loader i) < 0 →
  ARGraph_impl_new loader = inl OutOfMemory.
Proof.
  intros HN Hi Hnodes Hneg. unfold ARGraph_impl_new.
  rewrite alloc_graph_closed by done. cbn [bind].
  unfold ingest_out, for_loop. change (n (ingested loader 0)) with (L_NodeCount loader).
  replace (L_NodeCount loader - 0) with (i + (L_NodeCount loader - i)) by lia.
  rewrite seqZ_app, for_each_app by lia.
  pose proof (ingest_upto loader i HN ltac:(lia) Hnodes) as Hpre.
  unfold for_loop in Hpre. rewrite Z.sub_0_r in Hpre. rewrite Hpre. cbn [bind].
  rewrite seqZ_cons by lia. cbn [for_each]. rewrite Z.add_0_l.
  rewrite ingest_node_unfold by done. cbn zeta.
  by destruct (Z.ltb_spec (to_count (L_OutEdgeCount loader i)) 0); [|lia].
Qed.

Lemma constructor_degree_overflow_witness :
  ARGraph_impl_new second_wide = inl OutOfMemory.
Proof.
  apply (constructor_degree_overflow second_wide 1).
  - simpl. lia.
  - simpl. lia.
  - intros u Hu. assert (u = 0) as -> by lia. split; [simpl; lia|].
    intros v Hv. by apply not_elem_of_nil in Hv.
  - reflexivity.
Defined.

(** ** What the accessors return on a constructed object *)

Lemma GetOutEdge_graph_of (loader : ARGLoader) (u j : Z) :
  loader_ok loader → 0 ≤ u < L_NodeCount loader → 0 ≤ j < L_OutEdgeCount loader u →
  GetOutEdge (graph_of loader) u j = inr (L_GetOutEdge loader u j).
Proof.
  intros Hok Hu Hj.
  destruct (out_row_graph_of loader u Hok Hu) as (Hrow & Harow & Hcnt & Hlen & _).
  unfold GetOutEdge. rewrite assert_lt by apply Hu. cbn [bind].
  rewrite (read_ok _ _ _ (proj1 Hu) Hcnt). cbn [bind].
  rewrite length_loader_row by lia. rewrite assert_lt by lia. cbn [bind].
  rewrite (read_ok _ _ _ (proj1 Hu) Harow). cbn [bind].
  rewrite (read_ok _ _ (snd (L_GetOutEdge loader u j)) (proj1 Hj))
    by (apply (lookup_fmap_seqZ (fun j => snd (L_GetOutEdge loader u j))); lia).
  cbn [bind]. rewrite (read_ok _ _ _ (proj1 Hu) Hrow). cbn [bind].
  rewrite (read_ok _ _ (fst (L_GetOutEdge loader u j)) (proj1 Hj))
    by (apply (lookup_fmap_seqZ (fun j => fst (L_GetOutEdge loader u j))); lia).
  cbn [bind]. unfold ret. by destruct (L_GetOutEdge loader u j).
Qed.

Lemma HasEdge_graph_of (loader : ARGLoader) (u j : Z) :
  loader_ok loader → 0 ≤ u < L_NodeCount loader → 0 ≤ j < L_OutEdgeCount loader u →
  HasEdge (graph_of loader) u (fst (L_GetOutEdge loader u j)) true =
    inr (true, Some (snd (L_GetOutEdge loader u j))).
Proof.
  intros Hok Hu Hj. pose proof Hok as (_ & Hnodes & _).
  destruct (Hnodes u Hu) as (Hdeg & Hasc & Hrange).
  assert (Hin : fst (L_GetOutEdge loader u j) ∈ loader_row loader u).
  { apply elem_of_loader_row. eauto. }
  apply (HasEdge_hit _ u _ true (loader_row loader u) (loader_arow loader u) (Z.to_nat j)).
  - done.
  - apply Hrange, Hin.
  - by apply out_row_graph_of.
  - done.
  - by apply (lookup_fmap_seqZ (fun j => fst (L_GetOutEdge loader u j))).
  - by apply (lookup_fmap_seqZ (fun j => snd (L_GetOutEdge loader u j))).
Qed.

(** X15. The attributes survive the construction. On the object built from
    a loader that reports ascending out-edges, [GetNodeAttr(u)] is the handle
    that the loader gave for [u], [GetOutEdge(u, j, &p)] yields the [j]-th
    out-edge of the loader with its handle, [GetEdgeAttr] of that edge is
    the handle, and the in-entries of a node [v] are the reported edges into
    [v], each with the handle that the loader gave for it. *)
Theorem constructor_keeps_attributes (loader : ARGLoader) :
  loader_ok loader →
  ∃ g, ARGraph_impl_new loader = inr g ∧
       (∀ u, 0 ≤ u < L_NodeCount loader → GetNodeAttr g u = inr (L_GetNodeAttr loader u)) ∧
       (∀ u j, 0 ≤ u < L_NodeCount loader → 0 ≤ j < L_OutEdgeCount loader u →
          GetOutEdge g u j = inr (L_GetOutEdge loader u j) ∧
          GetEdgeAttr g u (fst (L_GetOutEdge loader u j)) =
            inr (snd (L_GetOutEdge loader u j))) ∧
       (∀ u v a, 0 ≤ v < L_NodeCount loader →
          (∃ l, GetInEdge g v l = inr (u, a)) ↔
          0 ≤ u < L_NodeCount loader ∧
          ∃ j, 0 ≤ j < L_OutEdgeCount loader u ∧ L_GetOutEdge loader u j = (v, a)).
Proof.
  intros Hok. pose proof Hok as (HN & Hnodes & _).
  pose proof (ARGraph_impl_new_closed loader Hok) as Hnew.
  destruct (ARGraph_impl_new_inv loader _ ltac:(lia) Hnew) as [Hal Hin].
  exists (graph_of loader). split; [done|]. split; [|split].
  - intros u Hu. unfold GetNodeAttr. rewrite assert_lt by apply Hu. cbn [bind].
    apply read_ok; [lia|]. by apply lookup_fmap_seqZ.
  - intros u j Hu Hj. split; [by apply GetOutEdge_graph_of|].
    unfold GetEdgeAttr. by rewrite HasEdge_graph_of.
  - intros u v a Hv. split.
    + intros [l Hl].
      assert (Hu : 0 ≤ u < L_NodeCount loader).
      { apply GetInEdge_iff in Hl as (_ & k & _ & _ & _ & (row & Hrow & Hu)%read2_inr).
        apply read_inr in Hrow as [_ Hrow]. cbn [graph_of in_] in Hrow.
        rewrite lookup_fmap_seqZ in Hrow by done. injection Hrow as <-.
        apply read_inr in Hu as [_ Hu%list_elem_of_lookup_2].
        apply list_elem_of_filter in Hu as [_ Hu%elem_of_seqZ]. lia. }
      split; [done|].
      destruct (Hal u v Hu Hv) as [H1 _]. apply H1 in Hl.
      apply HasEdge_true_inv in Hl
        as (row & c & _ & _ & Hrow & _ & Hc0 & Hc & arow & a0 & Harow & Ha & [= <-]).
      destruct (out_row_graph_of loader u Hok Hu) as (Hrow' & Harow' & _ & _ & _).
      apply read_inr in Hrow as [_ Hrow], Harow as [_ Harow], Ha as [_ Ha].
      assert (row = loader_row loader u) as -> by congruence.
      assert (arow = loader_arow loader u) as -> by congruence.
      destruct (Hnodes u Hu) as (Hdeg & _ & _).
      pose proof (lookup_lt_Some _ _ _ Hc) as Hlt.
      pose proof (length_loader_row loader u ltac:(lia)) as Hlen.
      exists c. split; [lia|].
      unfold loader_row in Hc. unfold loader_arow in Ha.
      rewrite (lookup_fmap_seqZ (fun j => fst (L_GetOutEdge loader u j))) in Hc by lia.
      rewrite (lookup_fmap_seqZ (fun j => snd (L_GetOutEdge loader u j))) in Ha by lia.
      destruct (L_GetOutEdge loader u c). cbn [fst snd] in *. congruence.
    + intros (Hu & j & Hj & He).
      destruct (Hal u v Hu Hv) as [_ H2]. apply H2.
      pose proof (HasEdge_graph_of loader u j Hok Hu Hj) as Hedge.
      by rewrite He in Hedge.
Qed.

Lemma constructor_keeps_attributes_witness :
  ∃ g, ARGraph_impl_new fan_sorted = inr g ∧
       GetNodeAttr g 1 = inr 11 ∧
       GetOutEdge g 0 1 = inr (2, 102) ∧
       ∃ l, GetInEdge g 2 l = inr (0, 102).
Proof.
  destruct (constructor_keeps_attributes fan_sorted) as (g & Hg & Hnode & Hout & Hin).
  { apply loader_okb_ok. vm_compute. reflexivity. }
  exists g. split; [exact Hg|]. split; [|split].
  - apply (Hnode 1). simpl. lia.
  - apply (Hout 0 1); simpl; lia.
  - apply (Hin 0 2 102); [simpl; lia|]. split; [simpl; lia|].
    exists 1. split; [simpl; lia | reflexivity].
Defined.

(** ** The degrees of a constructed object *)

Lemma sumZ_app {A} (f : A → Z) (l1 l2 : list A) : sumZ f (l1 ++ l2) = sumZ f l1 + sumZ f l2.
Proof. unfold sumZ. induction l1 as [|x l1 IH]; simpl; lia. Qed.

Lemma sumZ_ext {A} (f h : A → Z) (l : list A) :
  (∀ x, x ∈ l → f x = h x) → sumZ f l = sumZ h l.
Proof.
  induction l as [|x l IH]; intros Hf; [done|]. unfold sumZ in *. simpl.
  rewrite Hf by left. rewrite IH; [done|]. intros y Hy. apply Hf. by right.
Qed.

Lemma sumZ_add {A} (f h : A → Z) (l : list A) :
  sumZ (fun x => f x + h x) l = sumZ f l + sumZ h l.
Proof. unfold sumZ. induction l as [|x l IH]; simpl; lia. Qed.

Lemma total_sum (count : Z → result Z) (f : Z → Z) (m : Z) :
  0 ≤ m → (∀ i, 0 ≤ i < m → count i = inr (f i)) →
  total count m = inr (sumZ f (seqZ 0 m)).
Proof.
  intros Hm Hcount. unfold total.
  apply (for_loop_closed (fun i => sumZ f (seqZ 0 i))); [done|].
  intros i Hi. rewrite Hcount by done. cbn [bind]. unfold ret. f_equal.
  rewrite seqZ_snoc, sumZ_app by lia. unfold sumZ at 3. simpl. lia.
Qed.

(** Every element of [es] is counted once among the nodes. *)
Lemma sumZ_occ (es : list Z) (m : Z) :
  (∀ x, x ∈ es → 0 ≤ x < m) →
  sumZ (fun v => occ v es) (seqZ 0 m) = Z.of_nat (length es).
Proof.
  induction es as [|x es IH]; intros Hes.
  - unfold sumZ, occ. simpl. induction (seqZ 0 m); [done|]. simpl. lia.
  - rewrite (sumZ_ext _ (fun v => (if decide (v = x) then 1 else 0) + occ v es)).
    + rewrite sumZ_add, IH by (intros y Hy; apply Hes; by right).
      assert (Hx : sumZ (fun v => if decide (v = x) then 1 else 0) (seqZ 0 m) = 1).
      { specialize (Hes x ltac:(left)).
        replace m with (x + (1 + (m - x - 1))) by lia.
        rewrite seqZ_app, sumZ_app by lia. rewrite (seqZ_app (0 + x)), sumZ_app by lia.
        rewrite (sumZ_ext _ (fun _ => 0) (seqZ 0 x));
          [|intros y Hy%elem_of_seqZ; case_decide; lia].
        rewrite (sumZ_ext _ (fun _ => 0) (seqZ (0 + x + 1) _));
          [|intros y Hy%elem_of_seqZ; case_decide; lia].
        assert (Hz : ∀ l : list Z, sumZ (fun _ => 0) l = 0).
        { intros l. unfold sumZ. induction l; simpl; lia. }
        rewrite !Hz. change (seqZ (0 + x) 1) with [0 + x]. unfold sumZ. simpl.
        case_decide; lia. }
      rewrite Hx. simpl length. lia.
    + intros v _. unfold occ. simpl. destruct (Z.eqb_spec v x); case_decide; done || lia.
Qed.

Lemma length_concat_sumZ {A} (rows : list (list A)) :
  Z.of_nat (length (concat rows)) = sumZ (fun row => Z.of_nat (length row)) rows.
Proof.
  unfold sumZ. induction rows as [|row rows IH]; [done|].
  simpl. rewrite length_app. lia.
Qed.

Lemma elem_of_concat {A} (x : A) (rows : list (list A)) :
  x ∈ concat rows → ∃ row, x ∈ row ∧ row ∈ rows.
Proof.
  induction rows as [|row rows IH]; simpl; [by intros ?%not_elem_of_nil|].
  intros [Hx|Hx]%elem_of_app.
  - exists row. split; [done|by left].
  - destruct (IH Hx) as (row' & ? & ?). exists row'. split; [done|by right].
Qed.

Lemma sumZ_fmap {A B} (f : B → Z) (h : A → B) (l : list A) :
  sumZ f (h <$> l) = sumZ (fun x => f (h x)) l.
Proof.
  induction l as [|x l IH]; [done|]. unfold sumZ in *.
  cbn [fmap list_fmap foldr]. f_equal. exact IH.
Qed.

(** X16. In-degrees and out-degrees add up to the same number. On the
    object built from a loader that reports ascending out-edges, the sum of
    [InEdgeCount] over the nodes and the sum of [OutEdgeCount] over the nodes
    are both the number of edges that the loader reported, and [EdgeCount] of
    a node is the sum of its two degrees. *)
Theorem degrees_add_up (loader : ARGLoader) :
  loader_ok loader →
  ∃ g, ARGraph_impl_new loader = inr g ∧
       total (OutEdgeCount g) (NodeCount g) =
         inr (sumZ (L_OutEdgeCount loader) (seqZ 0 (L_NodeCount loader))) ∧
       total (InEdgeCount g) (NodeCount g) = total (OutEdgeCount g) (NodeCount g) ∧
       (∀ u, 0 ≤ u < L_NodeCount loader →
          ∃ i o, InEdgeCount g u = inr i ∧ OutEdgeCount g u = inr o ∧
                 EdgeCount g u = inr (i + o)).
Proof.
  intros Hok. pose proof Hok as (HN & Hnodes & Hindeg).
  exists (graph_of loader). split; [by apply ARGraph_impl_new_closed|].
  assert (Hout : ∀ u, 0 ≤ u < L_NodeCount loader →
            OutEdgeCount (graph_of loader) u = inr (L_OutEdgeCount loader u)).
  { intros u Hu. unfold OutEdgeCount. rewrite assert_lt by apply Hu. cbn [bind].
    apply read_ok; [lia|]. by apply lookup_fmap_seqZ. }
  assert (Hin : ∀ v, 0 ≤ v < L_NodeCount loader →
            InEdgeCount (graph_of loader) v = inr (occ v (edges_upto loader (L_NodeCount loader)))).
  { intros v Hv. unfold InEdgeCount. rewrite assert_lt by apply Hv. cbn [bind].
    apply read_ok; [lia|]. cbn [graph_of in_count].
    rewrite (lookup_fmap_seqZ (fun v => Z.of_nat (length (loader_preds loader v)))) by done.
    f_equal. unfold edges_upto. rewrite occ_concat; [done|].
    intros u Hu%elem_of_seqZ. apply ascending_NoDup, Hnodes. lia. }
  assert (Htot : total (OutEdgeCount (graph_of loader)) (NodeCount (graph_of loader)) =
                 inr (sumZ (L_OutEdgeCount loader) (seqZ 0 (L_NodeCount loader)))).
  { apply total_sum; [apply HN | exact Hout]. }
  split; [exact Htot|]. split.
  - rewrite Htot.
    rewrite (total_sum _ (fun v => occ v (edges_upto loader (L_NodeCount loader))));
      [|apply HN | exact Hin].
    f_equal. rewrite sumZ_occ.
    + unfold edges_upto. rewrite length_concat_sumZ, sumZ_fmap.
      apply sumZ_ext. intros u Hu%elem_of_seqZ. apply length_loader_row.
      apply Hnodes. lia.
    + intros x (row & Hx & (u & -> & Hu%elem_of_seqZ)%list_elem_of_fmap)%elem_of_concat.
      apply (Hnodes u ltac:(lia)), Hx.
  - intros u Hu. eexists _, _. split; [by apply Hin|]. split; [by apply Hout|].
    pose proof (Hin u Hu) as Hi. pose proof (Hout u Hu) as Ho.
    unfold InEdgeCount, OutEdgeCount, EdgeCount in *.
    destruct (assert (u <? n (graph_of loader))); [discriminate|]. cbn [bind] in *.
    by rewrite Hi, Ho.
Qed.

Lemma degrees_add_up_witness :
  ∃ g, ARGraph_impl_new fan_sorted = inr g ∧
       total (OutEdgeCount g) (NodeCount g) = inr 3 ∧
       total (InEdgeCount g) (NodeCount g) = total (OutEdgeCount g) (NodeCount g).
Proof.
  destruct (degrees_add_up fan_sorted) as (g & Hg & Hout & Hin & _).
  { apply loader_okb_ok. vm_compute. reflexivity. }
  exists g. split; [exact Hg|]. split; [exact Hout | exact Hin].
Defined.

(** ** Arrays on which the binary search finds every element *)

Lemma ascending_pairwise (l : list Z) :
  ascending_on l 0 (Z.of_nat (length l)) → ascending l = true.
Proof.
  induction l as [|x l IH]; intros Hl; [done|].
  apply ascending_cons. split.
  - apply IH. intros i j y z Hi Hij Hj Hy Hz.
    apply (Hl (i + 1) (j + 1)); [lia|lia|simpl length; lia|..].
    + by replace (Z.to_nat (i + 1)) with (S (Z.to_nat i)) by lia.
    + by replace (Z.to_nat (j + 1)) with (S (Z.to_nat j)) by lia.
  - intros y [k Hk]%list_elem_of_lookup.
    apply (Hl 0 (Z.of_nat (S k))); [lia|lia| |done|by rewrite Nat2Z.id].
    apply lookup_lt_Some in Hk. simpl length. lia.
Qed.

Lemma bsearch_loop_S (fuel : nat) (id : list Z) (key a b x : Z) :
  a < b → read id (Z.shiftr (to_unsigned (a + b)) 1) = inr x →
  bsearch_loop (S fuel) id key a b =
    if x <? key then bsearch_loop fuel id key (Z.shiftr (to_unsigned (a + b)) 1 + 1) b
    else if key <? x then bsearch_loop fuel id key a (Z.shiftr (to_unsigned (a + b)) 1)
    else inr (Some (Z.shiftr (to_unsigned (a + b)) 1)).
Proof.
  intros Hab Hx. cbn [bsearch_loop]. destruct (Z.ltb_spec a b); [|lia].
  cbn zeta. by rewrite Hx.
Qed.

(** If the loop finds every element of the range, the range is strictly
    ascending: the comparisons on the way to an element order it with
    respect to every midpoint that is probed. *)
Lemma bsearch_loop_complete (fuel : nat) (id : list Z) (a b : Z) :
  NoDup id → 0 ≤ a → b ≤ Z.of_nat (length id) → b < 2 ^ 31 →
  (∀ i x, a ≤ i < b → id !! Z.to_nat i = Some x →
     ∃ c, bsearch_loop fuel id x a b = inr (Some c)) →
  ascending_on id a b.
Proof.
  intros Hnd. revert a b. induction fuel as [|fuel IH]; intros a b Ha Hlen Hb Hall.
  - intros i j x y Hi Hij Hj Hx Hy. exfalso.
    destruct (Hall i x ltac:(lia) Hx) as [c Hc]. cbn [bsearch_loop] in Hc.
    destruct (Z.ltb_spec a b); [discriminate|lia].
  - destruct (Z.lt_ge_cases a b) as [Hab|Hba];
      [|intros i j x y Hi Hij Hj; lia].
    pose proof (midpoint a b Ha Hab Hb) as Hm.
    set (c := Z.shiftr (to_unsigned (a + b)) 1) in *.
    destruct (lookup_lt_is_Some_2 id (Z.to_nat c)) as [xc Hxc]; [lia|].
    assert (Hread : read id c = inr xc) by (apply read_ok; [lia|done]).
    assert (Hinj : ∀ i j x, 0 ≤ i → 0 ≤ j →
              id !! Z.to_nat i = Some x → id !! Z.to_nat j = Some x → i = j).
    { intros i j x Hi Hj Hix Hjx.
      pose proof (NoDup_lookup _ _ _ _ Hnd Hix Hjx). lia. }
    assert (Hleft : ∀ i x, a ≤ i < c → id !! Z.to_nat i = Some x →
              x < xc ∧ ∃ c', bsearch_loop fuel id x a c = inr (Some c')).
    { intros i x Hi Hx. destruct (Hall i x ltac:(lia) Hx) as [c' Hc'].
      rewrite (bsearch_loop_S fuel id x a b xc Hab Hread) in Hc'. fold c in Hc'.
      destruct (Z.ltb_spec xc x).
      { exfalso. pose proof (bsearch_loop_hit_range fuel id x (c + 1) b c' ltac:(lia) Hb Hc') as Hr.
        apply bsearch_loop_hit_key in Hc' as [_ Hk].
        pose proof (Hinj c' i x ltac:(lia) ltac:(lia) Hk Hx). lia. }
      destruct (Z.ltb_spec x xc); [split; [done|by exists c']|].
      exfalso. assert (x = xc) as -> by lia.
      pose proof (Hinj c i xc ltac:(lia) ltac:(lia) Hxc Hx). lia. }
    assert (Hright : ∀ i x, c < i < b → id !! Z.to_nat i = Some x →
              xc < x ∧ ∃ c', bsearch_loop fuel id x (c + 1) b = inr (Some c')).
    { intros i x Hi Hx. destruct (Hall i x ltac:(lia) Hx) as [c' Hc'].
      rewrite (bsearch_loop_S fuel id x a b xc Hab Hread) in Hc'. fold c in Hc'.
      destruct (Z.ltb_spec xc x); [split; [done|by exists c']|].
      exfalso. destruct (Z.ltb_spec x xc).
      - pose proof (bsearch_loop_hit_range fuel id x a c c' Ha ltac:(lia) Hc') as Hr.
        apply bsearch_loop_hit_key in Hc' as [_ Hk].
        pose proof (Hinj c' i x ltac:(lia) ltac:(lia) Hk Hx). lia.
      - assert (x = xc) as -> by lia.
        pose proof (Hinj c i xc ltac:(lia) ltac:(lia) Hxc Hx). lia. }
    pose proof (IH a c Ha ltac:(lia) ltac:(lia) (fun i x Hi Hx => proj2 (Hleft i x Hi Hx)))
      as IH1.
    pose proof (IH (c + 1) b ltac:(lia) Hlen Hb
                  (fun i x Hi Hx => proj2 (Hright i x ltac:(lia) Hx))) as IH2.
    intros i j x y Hi Hij Hj Hx Hy.
    destruct (Z.lt_total j c) as [Hjc|[->|Hjc]].
    + by apply (IH1 i j).
    + rewrite Hxc in Hy. injection Hy as <-. apply (Hleft i x); [lia|done].
    + destruct (Z.lt_total i c) as [Hic|[->|Hic]].
      * destruct (Hleft i x ltac:(lia) Hx) as [? _].
        destruct (Hright j y ltac:(lia) Hy) as [? _]. lia.
      * rewrite Hxc in Hx. injection Hx as <-. apply (Hright j y); [lia|done].
      * apply (IH2 i j); done || lia.
Qed.

Lemma bsearch_complete (id : list Z) :
  NoDup id → Z.of_nat (length id) < 2 ^ 31 →
  (∀ x, x ∈ id → ∃ c, bsearch id x (Z.of_nat (length id)) = inr (Some c)) →
  ascending id = true.
Proof.
  intros Hnd Hlen Hall. apply ascending_pairwise.
  apply (bsearch_loop_complete (Z.to_nat (Z.of_nat (length id)))); try done; try lia.
  intros i x Hi Hx. apply Hall. by eapply list_elem_of_lookup_2.
Qed.

(** ** Counting the edges into a node *)

Lemma occ_nonneg (v : Z) (l : list Z) : 0 ≤ occ v l.
Proof. unfold occ. induction l as [|x l IH]; simpl; [done|]. destruct (v =? x); lia. Qed.

Lemma occ_elem (v : Z) (l : list Z) : v ∈ l → 1 ≤ occ v l.
Proof.
  unfold occ. induction l as [|x l IH]; [by intros ?%not_elem_of_nil|].
  pose proof (occ_nonneg v l) as Hl. unfold occ in Hl.
  simpl. intros [->|Hv]%elem_of_cons.
  - rewrite Z.eqb_refl. lia.
  - specialize (IH Hv). destruct (v =? x); lia.
Qed.

Lemma occ_NoDup_inv (l : list Z) : (∀ v, v ∈ l → occ v l ≤ 1) → NoDup l.
Proof.
  induction l as [|x l IH]; intros Hl; [constructor|].
  constructor.
  - intros Hx%occ_elem. specialize (Hl x ltac:(left)).
    unfold occ in *. simpl in Hl. rewrite Z.eqb_refl in Hl. lia.
  - apply IH. intros v Hv. specialize (Hl v ltac:(by right)).
    pose proof (occ_nonneg v l). unfold occ in *. simpl in Hl. destruct (v =? x); lia.
Qed.

(** When the sources that are found are as many as the reported edges into
    [v], every row holds [v] once if it is found there and not at all if it
    is not. *)
Lemma occ_concat_found (P : Z → Prop) `{∀ u, Decision (P u)} (row : Z → list Z) (v : Z)
    (us : list Z) :
  (∀ u, u ∈ us → P u → v ∈ row u) →
  Z.of_nat (length (filter P us)) ≤ occ v (concat (row <$> us)) ∧
  (occ v (concat (row <$> us)) = Z.of_nat (length (filter P us)) →
   ∀ u, u ∈ us → occ v (row u) = if decide (P u) then 1 else 0).
Proof.
  induction us as [|u us IH]; intros Hin.
  - split; [done|]. intros _ u Hu. by apply not_elem_of_nil in Hu.
  - destruct IH as [IH1 IH2]; [intros; apply Hin; [by right|done]|].
    cbn [fmap list_fmap concat]. rewrite occ_app, filter_cons.
    pose proof (occ_nonneg v (row u)) as Hnn.
    assert (Hu : (if decide (P u) then 1 else 0) ≤ occ v (row u)).
    { destruct (decide (P u)) as [HP|]; [|done]. apply occ_elem, Hin; [by left|done]. }
    split.
    + destruct (decide (P u)); simpl length; lia.
    + intros Heq w [->|Hw]%elem_of_cons.
      * destruct (decide (P u)); simpl length in Heq; lia.
      * apply IH2; [|done]. destruct (decide (P u)); simpl length in Heq; lia.
Qed.

(** ** The failure of the second phase *)

(** The rule for [for] loops, with what is known of the error. *)
Lemma for_each_rule_err {St} (E : error_kind → Prop) (I : Z → St → Prop)
    (body : Z → St → result St) (lo len : Z) (s : St) :
  0 ≤ len → I lo s →
  (∀ i s, lo ≤ i < lo + len → I i s →
     match body i s with inr s' => I (i + 1) s' | inl e => E e end) →
  match for_each body (seqZ lo len) s with inr s' => I (lo + len) s' | inl e => E e end.
Proof.
  intros Hlen. rewrite <- (Z2Nat.id len) by done.
  generalize (Z.to_nat len). clear Hlen len. intros m. revert lo s.
  induction m as [|m IH]; intros lo s HI Hbody.
  - rewrite seqZ_nil by lia. simpl. by rewrite Z.add_0_r.
  - rewrite seqZ_cons by lia. simpl.
    pose proof (Hbody lo s ltac:(lia) HI) as Hstep.
    destruct (body lo s) as [e|s']; simpl; [done|].
    replace (Z.pred (Z.of_nat (S m))) with (Z.of_nat m) by lia.
    replace (lo + Z.of_nat (S m)) with (Z.succ lo + Z.of_nat m) by lia.
    apply IH; [by replace (Z.succ lo) with (lo + 1) by lia|].
    intros i s0 Hi. apply Hbody. lia.
Qed.

(** The loop over the sources of [i], when [HasEdge] and [GetEdgeAttr]
    return and the count of [i] is not below the number of hits: the loop
    ends well, and the assertion that follows is what can fail. *)
Lemma derive_node_outcome (g1 g : ARGraph_impl) (i k : Z) :
  0 ≤ n g1 ≤ 65536 → 0 ≤ i < n g1 → same_out g g1 →
  (Z.to_nat i < length (in_ g1))%nat → (Z.to_nat i < length (in_attr g1))%nat →
  in_count g1 !! Z.to_nat i = Some k → derivable_upto g1 i k →
  match derive_node i g with
  | inr g' => same_out g' g1
  | inl e => e = AssertionFailed
  end.
Proof.
  intros HN Hi Hso Hli1 Hlia1 Hk Hup.
  pose proof Hso as (Hn & Ho & Hoc & Hoa & Hic & Hat & Hnd & Hed & Hnc & Hec & Hl1 & Hl2).
  pose proof Hup as (_ & _ & Hle).
  unfold derive_node. rewrite Hic, Hn.
  rewrite (read_ok _ _ _ (proj1 Hi) Hk). cbn [bind].
  unfold new_array. destruct (Z.ltb_spec k 0) as [Hneg|Hk0]; [lia|]. cbn [bind ret].
  rewrite write_ok by lia. cbn [bind].
  rewrite write_ok by lia. cbn [bind].
  set (g2 := with_in_attr (with_in g _) _).
  assert (Hinit : filling g1 g i k 0 (g2, 0)).
  { unfold filling. rewrite hits_0. simpl. split; [|split; [|split]].
    - repeat split; simpl; try done; rewrite length_insert; done.
    - done.
    - constructor.
    - exists (replicate (Z.to_nat k) 0), (replicate (Z.to_nat k) NULL).
      rewrite !length_replicate. repeat split; lia. }
  pose proof (for_loop_rule (derivable_upto g1 i k) (filling g1 g i k) (derive_edge i)
                0 (n g1) (g2, 0) ltac:(lia) Hinit) as Hloop.
  assert (Hstep : ∀ j s, 0 ≤ j < n g1 → filling g1 g i k j s →
            match derive_edge i j s with
            | inr s' => filling g1 g i k (j + 1) s'
            | inl _ => ¬ derivable_upto g1 i k
            end).
  { intros j s Hj Hfill. apply (derive_edge_step_upto g1 g i k j s); try done; lia. }
  specialize (Hloop Hstep).
  destruct (for_loop 0 (n g1) (derive_edge i) (g2, 0)) as [e|[g3 l]]; [by destruct Hloop|].
  cbn [bind snd fst]. destruct Hloop as (Hso3 & _).
  unfold assert. destruct (l =? k); cbn [bind]; done.
Qed.

(** The second phase ends well or at the assertion [l==k]. *)
Lemma derive_in_outcome (g1 : ARGraph_impl) :
  0 ≤ n g1 ≤ 65536 →
  Z.of_nat (length (in_ g1)) = n g1 → Z.of_nat (length (in_attr g1)) = n g1 →
  (∀ i, 0 ≤ i < n g1 → ∃ k, in_count g1 !! Z.to_nat i = Some k ∧ derivable_upto g1 i k) →
  ∀ e, derive_in g1 = inl e → e = AssertionFailed.
Proof.
  intros HN Hl1 Hl2 Hup e He. unfold derive_in, for_loop in He.
  pose proof (for_each_rule_err (fun e => e = AssertionFailed) (fun _ g => same_out g g1)
                derive_node 0 (n g1 - 0) g1 ltac:(lia) (same_out_refl g1)) as Hloop.
  rewrite He in Hloop. apply Hloop. intros i g Hi Hso.
  destruct (Hup i ltac:(lia)) as (k & Hk & Hupi).
  apply (derive_node_outcome g1 g i k); done || lia.
Qed.

(** ** The constructor accepts the ascending loaders only *)

Lemma hitb_bsearch (g : ARGraph_impl) (u v : Z) (row : list Z) (arow : list handle) :
  node g u → v < n g → out_row g u row arow →
  hitb g v u = true ↔ ∃ c, bsearch row v (Z.of_nat (length row)) = inr (Some c).
Proof.
  intros Hu Hv (Hrow & Harow & Hcnt & _). rewrite hitb_true.
  unfold HasEdge2, HasEdge. rewrite !assert_lt by (done || apply Hu). cbn [bind].
  rewrite (read_ok _ _ _ (proj1 Hu) Hrow), (read_ok _ _ _ (proj1 Hu) Hcnt). cbn [bind].
  destruct (bsearch row v _) as [e|[c|]]; cbn [bind fst]; unfold ret.
  - split; [discriminate|]. intros [c [=]].
  - split; [by exists c|done].
  - split; [discriminate|]. intros [c [=]].
Qed.

Lemma loader_ranges_ok (loader : ARGLoader) :
  loader_ranges loader →
  (∀ u, 0 ≤ u < L_NodeCount loader → ascending (loader_row loader u) = true) →
  loader_ok loader.
Proof.
  intros (HN & Hnodes & Hin) Hasc. split; [done|]. split.
  - intros u Hu. destruct (Hnodes u Hu) as [Hdeg Hrange]. split; [done|]. split; [|done].
    by apply Hasc.
  - intros v Hv. specialize (Hin v Hv). unfold edges_upto in Hin.
    rewrite occ_concat in Hin; [done|].
    intros u Hu%elem_of_seqZ. apply ascending_NoDup, Hasc. lia.
Qed.

Lemma loader_rangesb_ok (loader : ARGLoader) :
  loader_rangesb loader = true → loader_ranges loader.
Proof.
  unfold loader_rangesb. rewrite !andb_true_iff, !forallb_forall.
  intros [[[H0 HN] Hnodes] Hin]. apply Z.leb_le in H0, HN.
  split; [lia|]. split.
  - intros u Hu. specialize (Hnodes u).
    rewrite !andb_true_iff, forallb_forall in Hnodes.
    destruct Hnodes as [[Hd0 Hd] Hrange].
    { apply list_elem_of_In, elem_of_seqZ. lia. }
    apply Z.leb_le in Hd0, Hd. split; [lia|].
    intros v Hv%list_elem_of_In. specialize (Hrange v Hv).
    apply andb_true_iff in Hrange as [?%Z.leb_le ?%Z.ltb_lt]. lia.
  - intros v Hv. apply Z.leb_le, Hin, list_elem_of_In, elem_of_seqZ. lia.
Qed.

(** [HasEdge] returns on a node whose out-entries have the recorded
    length, in whatever order they are; a hit comes with a handle. *)
Lemma HasEdge_total (g : ARGraph_impl) (u v : Z) (p : bool) (row : list Z) (arow : list handle) :
  node g u → v < n g → out_row g u row arow →
  ∃ found st, HasEdge g u v p = inr (found, st) ∧
              (found = true → p = true → ∃ a, st = Some a).
Proof.
  intros Hu Hv (Hrow & Harow & Hcnt & Hlen & Hshort). unfold HasEdge.
  rewrite !assert_lt by (done || apply Hu). cbn [bind].
  rewrite (read_ok _ _ _ (proj1 Hu) Hrow), (read_ok _ _ _ (proj1 Hu) Hcnt). cbn [bind].
  destruct (bsearch_total row v (Z.of_nat (length row)) eq_refl ltac:(lia)) as (r & -> & Hr).
  cbn [bind]. destruct r as [c|]; [|by eexists _, _].
  destruct (Hr c eq_refl) as [Hc _].
  destruct p; [|by eexists _, _].
  rewrite (read_ok _ _ _ (proj1 Hu) Harow). cbn [bind].
  destruct (lookup_lt_is_Some_2 arow (Z.to_nat c)) as [a Ha]; [lia|].
  rewrite (read_ok _ _ _ (proj1 Hc) Ha). cbn [bind]. eexists _, _. split; [done|]. eauto.
Qed.

Lemma derivable_upto_ingested (loader : ARGLoader) (v : Z) :
  loader_ranges loader → 0 ≤ v < L_NodeCount loader →
  in_count (ingested loader (L_NodeCount loader)) !! Z.to_nat v =
    Some (occ v (edges_upto loader (L_NodeCount loader))) ∧
  derivable_upto (ingested loader (L_NodeCount loader)) v
    (occ v (edges_upto loader (L_NodeCount loader))).
Proof.
  intros (HN & Hnodes & Hindeg) Hv.
  set (g1 := ingested loader (L_NodeCount loader)).
  assert (Hrows : ∀ u, 0 ≤ u < L_NodeCount loader →
            out_row g1 u (loader_row loader u) (loader_arow loader u)).
  { intros u Hu. apply out_row_ingested_ranges; [done|]. by apply Hnodes. }
  split; [|split; [|split]].
  - unfold g1. rewrite ingested_all. unfold ingest_state. cbn [in_count].
    rewrite (lookup_fmap_seqZ (fun v => to_count (occ v _))) by done.
    rewrite to_count_small; [done|].
    pose proof (occ_nonneg v (edges_upto loader (L_NodeCount loader))).
    specialize (Hindeg v Hv). lia.
  - intros j Hj. unfold HasEdge2.
    destruct (HasEdge_total g1 j v false _ _ Hj ltac:(simpl; lia) (Hrows j Hj))
      as (found & st & -> & _). by eexists.
  - intros j Hj Hhit%hitb_true. unfold GetEdgeAttr.
    destruct (HasEdge_total g1 j v true _ _ Hj ltac:(simpl; lia) (Hrows j Hj))
      as (found & st & Hedge & Hst).
    pose proof (HasEdge_pattr _ _ _ _ _ Hedge) as Hfalse.
    unfold HasEdge2 in Hhit. rewrite Hfalse in Hhit. cbn [bind fst] in Hhit.
    injection Hhit as ->. destruct (Hst eq_refl eq_refl) as [a ->].
    rewrite Hedge. cbn [bind fst snd]. by eexists.
  - change (n g1) with (L_NodeCount loader). unfold hits, edges_upto.
    apply (occ_concat_found (fun u => hitb g1 v u = true) (loader_row loader) v).
    intros w Hw%elem_of_seqZ Hhit.
    apply (hitb_bsearch g1 w v (loader_row loader w) (loader_arow loader w)) in Hhit
      as [c Hc]; [|split; simpl; lia|simpl; lia|apply Hrows; lia].
    apply bsearch_hit_key in Hc as [_ Hc]. by eapply list_elem_of_lookup_2.
Qed.

(** After a first phase within the ranges, a second phase that ends well
    has found every reported edge, once. *)
Lemma ascending_of_derived (loader : ARGLoader) (g : ARGraph_impl) (u : Z) :
  loader_ranges loader →
  derive_in (ingested loader (L_NodeCount loader)) = inr g →
  0 ≤ u < L_NodeCount loader → ascending (loader_row loader u) = true.
Proof.
  intros Hr Hnew Hu. pose proof Hr as (HN & Hnodes & Hindeg).
  set (g1 := ingested loader (L_NodeCount loader)) in *.
  pose proof (derive_in_spec g1 ltac:(simpl; lia)) as Hd. rewrite Hnew in Hd.
  destruct Hd as [_ Hd]. change (n g1) with (L_NodeCount loader) in Hd.
  assert (Hone : ∀ v, 0 ≤ v < L_NodeCount loader →
            occ v (loader_row loader u) = if decide (hitb g1 v u = true) then 1 else 0).
  { intros v Hv. destruct (Hd v Hv) as (_ & _ & Hcnt & _).
    destruct (derivable_upto_ingested loader v Hr Hv) as [Hic _]. fold g1 in Hic.
    rewrite Hic in Hcnt. injection Hcnt as Hcnt.
    destruct (occ_concat_found (fun u => hitb g1 v u = true) (loader_row loader) v
                (seqZ 0 (L_NodeCount loader))) as [_ Hfound].
    { intros w Hw%elem_of_seqZ Hhit.
      apply (hitb_bsearch g1 w v (loader_row loader w) (loader_arow loader w)) in Hhit
        as [c Hc]; [|split; simpl; lia|simpl; lia|].
      - apply bsearch_hit_key in Hc as [_ Hc]. by eapply list_elem_of_lookup_2.
      - apply out_row_ingested_ranges; [lia|]. apply Hnodes. lia. }
    apply Hfound; [exact Hcnt|]. apply elem_of_seqZ. lia. }
  destruct (Hnodes u Hu) as [Hdeg Hrange].
  pose proof (length_loader_row loader u ltac:(lia)) as Hlen.
  apply bsearch_complete.
  - apply occ_NoDup_inv. intros v Hv. rewrite Hone by by apply Hrange.
    case_decide; lia.
  - lia.
  - intros v Hv. pose proof (occ_elem _ _ Hv) as Hocc.
    rewrite Hone in Hocc by by apply Hrange.
    destruct (decide (hitb g1 v u = true)) as [Hhit|]; [|lia].
    apply (hitb_bsearch g1 u v (loader_row loader u) (loader_arow loader u)) in Hhit;
      [done|split; simpl; lia| |].
    + simpl. apply Hrange, Hv.
    + apply out_row_ingested_ranges; [lia|]. by apply Hnodes.
Qed.

(** X17. The constructor builds an object exactly for the loaders that
    report the out-edges of every node in strictly ascending order of the
    neighbour, among the loaders within the ranges of the representation.
    For any other order, or an edge reported twice, the sources that
    [HasEdge] finds for some node are fewer than the edges counted for it,
    and the construction ends at the assertion [l==k]: when no object is
    built, the error is the failed assertion. *)
Theorem constructor_accepts_ascending_only (loader : ARGLoader) :
  loader_ranges loader →
  ((∃ g, ARGraph_impl_new loader = inr g) ↔
   (∀ u, 0 ≤ u < L_NodeCount loader → ascending (loader_row loader u) = true)) ∧
  (∀ e, ARGraph_impl_new loader = inl e → e = AssertionFailed).
Proof.
  intros Hr. pose proof Hr as (HN & Hnodes & Hindeg).
  assert (Hnew : ARGraph_impl_new loader = derive_in (ingested loader (L_NodeCount loader))).
  { unfold ARGraph_impl_new. rewrite alloc_graph_closed by lia. cbn [bind].
    unfold ingest_out. change (n (ingested loader 0)) with (L_NodeCount loader).
    by rewrite (ingest_upto loader (L_NodeCount loader)) by (done || lia). }
  split; [split|].
  - intros [g Hg] u Hu. rewrite Hnew in Hg. by apply (ascending_of_derived loader g).
  - intros Hasc. exists (graph_of loader).
    by apply ARGraph_impl_new_closed, loader_ranges_ok.
  - intros e He. rewrite Hnew in He. revert e He. apply derive_in_outcome.
    + simpl. lia.
    + rewrite ingested_all. unfold ingest_state. cbn [in_ n]. rewrite length_replicate. lia.
    + rewrite ingested_all. unfold ingest_state. cbn [in_attr n]. rewrite length_replicate. lia.
    + intros i Hi. eexists. by apply derivable_upto_ingested.
Qed.

Lemma constructor_accepts_ascending_only_witness :
  (∃ g, ARGraph_impl_new fan_sorted = inr g) ∧
  ¬ (∃ g, ARGraph_impl_new fan_unsorted = inr g) ∧
  (∀ e, ARGraph_impl_new fan_unsorted = inl e → e = AssertionFailed).
Proof.
  split; [|split].
  - apply (constructor_accepts_ascending_only fan_sorted).
    + apply loader_rangesb_ok. vm_compute. reflexivity.
    + intros u Hu. assert (u = 0 ∨ u = 1 ∨ u = 2) as [->|[->| ->]] by (simpl in Hu; lia);
        reflexivity.
  - intros Hg.
    destruct (constructor_accepts_ascending_only fan_unsorted) as [[Hfwd _] _].
    { apply loader_rangesb_ok. vm_compute. reflexivity. }
    specialize (Hfwd Hg 0 ltac:(simpl; lia)). discriminate Hfwd.
  - apply (constructor_accepts_ascending_only fan_unsorted).
    apply loader_rangesb_ok. vm_compute. reflexivity.
Defined.
